(** * The Discord markdown transcoder of the bridge

    A shallow embedding of the escaping subsystem, the ambiguity-repair
    pass, the mention resolver and the inbound entry point, followed by the
    properties the specification states about them.

    Go strings are byte sequences; the regexp package reads them as UTF-8,
    one rune at a time, and [strings.Replacer] works on bytes.  Both views
    are kept: a string is a list of bytes, and the regexp engine decodes
    runes from it the way [utf8.DecodeRuneInString] does. *)

From Stdlib Require Import Ascii String NArith ZArith Arith Lia Bool.
From Stdlib Require Import List.
Import ListNotations.

(* ================================================================== *)
(** ** Bytes, strings, runes *)

Abbreviation byte := ascii (only parsing).
Abbreviation gostring := (list ascii) (only parsing).
Abbreviation rune := N (only parsing).

(** A string literal of the source, as its bytes. *)
Definition str (s : string) : gostring := list_ascii_of_string s.

Definition b2n (b : byte) : N := N_of_ascii b.

(** [s[lo:hi]] for [lo <= hi <= len(s)].  Go panics otherwise; the slices
    taken below are in range: the positions of a match lie in the text and
    after the position searched from ([EngineFacts.doExecute_bounds]), the
    spans of the links come one after the other
    ([EscapeFacts.links_spans]), and a match of the escape fixer is at
    least four bytes long ([FixerFacts.fm_patterns]). *)
Definition slice (s : gostring) (lo hi : nat) : gostring :=
  firstn (hi - lo) (skipn lo s).

(** [s[lo:]] *)
Definition sliceFrom (s : gostring) (lo : nat) : gostring := skipn lo s.

Fixpoint HasPrefix (s p : gostring) {struct p} : bool :=
  match p, s with
  | [], _ => true
  | c :: p', d :: s' => Ascii.eqb c d && HasPrefix s' p'
  | _ :: _, [] => false
  end.

Definition HasSuffix (s p : gostring) : bool :=
  (length p <=? length s) && HasPrefix (skipn (length s - length p) s) p.

(* ================================================================== *)
(** ** unicode/utf8: DecodeRuneInString *)

Module utf8.

Definition RuneError : rune := 0xFFFD%N.

(** The [first] table of the package: what the first byte of a sequence
    announces.  [AS] is ASCII, [XX] an invalid first byte, [Lead sz lo hi] a
    sequence of [sz] bytes whose second byte must lie in [lo..hi]. *)
Inductive firstInfo := AS | XX | Lead (sz : nat) (lo hi : N).

Definition first (s0 : N) : firstInfo :=
  (if s0 <? 0x80 then AS
   else if s0 <? 0xC2 then XX
   else if s0 <? 0xE0 then Lead 2 0x80 0xBF
   else if s0 =? 0xE0 then Lead 3 0xA0 0xBF
   else if s0 <? 0xED then Lead 3 0x80 0xBF
   else if s0 =? 0xED then Lead 3 0x80 0x9F
   else if s0 <? 0xF0 then Lead 3 0x80 0xBF
   else if s0 =? 0xF0 then Lead 4 0x90 0xBF
   else if s0 <? 0xF4 then Lead 4 0x80 0xBF
   else if s0 =? 0xF4 then Lead 4 0x80 0x8F
   else XX)%N.

Definition locb : N := 0x80%N.
Definition hicb : N := 0xBF%N.
Definition maskx : N := 0x3F%N.
Definition mask2 : N := 0x1F%N.
Definition mask3 : N := 0x0F%N.
Definition mask4 : N := 0x07%N.

Definition DecodeRuneInString (s : gostring) : rune * nat :=
  match s with
  | [] => (RuneError, 0)
  | b0 :: t =>
    let s0 := b2n b0 in
    match first s0 with
    | AS => (s0, 1)
    | XX => (RuneError, 1)
    | Lead sz lo hi =>
      if length s <? sz then (RuneError, 1) else
      match t with
      | [] => (RuneError, 1)
      | b1 :: t1 =>
        let s1 := b2n b1 in
        if ((s1 <? lo) || (hi <? s1))%N then (RuneError, 1) else
        if sz <=? 2 then
          (N.lor (N.shiftl (N.land s0 mask2) 6) (N.land s1 maskx), 2)
        else
        match t1 with
        | [] => (RuneError, 1)
        | b2 :: t2 =>
          let s2 := b2n b2 in
          if ((s2 <? locb) || (hicb <? s2))%N then (RuneError, 1) else
          if sz <=? 3 then
            (N.lor (N.lor (N.shiftl (N.land s0 mask3) 12)
                          (N.shiftl (N.land s1 maskx) 6))
                   (N.land s2 maskx), 3)
          else
          match t2 with
          | [] => (RuneError, 1)
          | b3 :: _ =>
            let s3 := b2n b3 in
            if ((s3 <? locb) || (hicb <? s3))%N then (RuneError, 1) else
            (N.lor (N.lor (N.lor (N.shiftl (N.land s0 mask4) 18)
                                 (N.shiftl (N.land s1 maskx) 12))
                          (N.shiftl (N.land s2 maskx) 6))
                   (N.land s3 maskx), 4)
          end
        end
      end
    end
  end.

End utf8.

(* ================================================================== *)
(** ** regexp: the fragment of the syntax the three patterns use

    Go's regexp has leftmost-first (Perl) semantics: among the matches
    that start at the leftmost possible position, the one a backtracking
    search finds first.  The engine below is that backtracking search,
    written with continuations.  Patterns are compiled with the Perl flags,
    so a negated class matches a line feed and [.] does not. *)

Module regexp.

(** Items of a bracket expression. *)
Inductive citem :=
| CChar (c : ascii)          (* a literal ASCII character *)
| CRune (r : rune)           (* \x{...} *)
| CZs.                       (* \p{Zs} *)

(** unicode.Zs, the space separators. *)
Definition Zs (r : rune) : bool :=
  ((r =? 0x20) || (r =? 0xA0) || (r =? 0x1680)
   || ((0x2000 <=? r) && (r <=? 0x200A))
   || (r =? 0x202F) || (r =? 0x205F) || (r =? 0x3000))%N.

Definition citemMatches (i : citem) (r : rune) : bool :=
  match i with
  | CChar c => (r =? b2n c)%N
  | CRune r' => (r =? r')%N
  | CZs => Zs r
  end.

(** One-rune atoms. *)
Inductive atom :=
| Chr (c : ascii)                          (* a literal character *)
| Dot                                      (* .  : any rune but \n *)
| Cls (neg : bool) (items : list citem).   (* [...] and [^...] *)

Definition atomMatches (a : atom) (r : rune) : bool :=
  match a with
  | Chr c => (r =? b2n c)%N
  | Dot => negb (r =? 10)%N
  | Cls neg items => xorb neg (existsb (fun i => citemMatches i r) items)
  end.

Inductive regex :=
| One (a : atom)
| Star (a : atom)            (* a*, greedy; only atoms are repeated here *)
| Cat (x y : regex)
| Alt (x y : regex)          (* x|y, x preferred *)
| Quest (x : regex)          (* x?, greedy *)
| Cap (n : nat) (x : regex). (* capturing group number n *)

(** inputString.step: the rune at the front of the remaining input and its
    width in bytes; [None] at the end of the text. *)
Definition step (s : gostring) : option (rune * nat) :=
  match s with
  | [] => None
  | c :: _ =>
    if (b2n c <? 0x80)%N then Some (b2n c, 1)
    else Some (utf8.DecodeRuneInString s)
  end.

(** Capture positions recorded so far, newest first. *)
Definition caps := list (nat * (nat * nat)).
Definition cont := gostring -> nat -> caps -> option (nat * caps).

(** [star a n s pos c k]: take as many runes matching [a] as possible, then
    continue with [k]; on failure give one back.  [n] bounds the number of
    iterations, [length s] is always enough. *)
Fixpoint star (a : atom) (n : nat) (s : gostring) (pos : nat) (c : caps)
         (k : cont) : option (nat * caps) :=
  match n with
  | 0 => k s pos c
  | S n' =>
    match step s with
    | Some (r, w) =>
      if atomMatches a r then
        match star a n' (skipn w s) (pos + w) c k with
        | Some x => Some x
        | None => k s pos c
        end
      else k s pos c
    | None => k s pos c
    end
  end.

(** [run re s pos c k]: match [re] at the front of [s], which starts at byte
    offset [pos] of the text, then continue with [k]. *)
Fixpoint run (re : regex) (s : gostring) (pos : nat) (c : caps) (k : cont)
  : option (nat * caps) :=
  match re with
  | One a =>
    match step s with
    | Some (r, w) =>
      if atomMatches a r then k (skipn w s) (pos + w) c else None
    | None => None
    end
  | Star a => star a (length s) s pos c k
  | Cat x y => run x s pos c (fun s' pos' c' => run y s' pos' c' k)
  | Alt x y =>
    match run x s pos c k with
    | Some r => Some r
    | None => run y s pos c k
    end
  | Quest x =>
    match run x s pos c k with
    | Some r => Some r
    | None => k s pos c
    end
  | Cap n x =>
    run x s pos c (fun s' pos' c' => k s' pos' ((n, (pos, pos')) :: c'))
  end.

(** A match: the span of the whole match and the capture positions. *)
Record Match := mkMatch { m_start : nat; m_end : nat; m_caps : caps }.

Definition accept : cont := fun _ e c => Some (e, c).

(** The unanchored search: try the current position, else move on by one
    rune. *)
Fixpoint search (fuel : nat) (re : regex) (s : gostring) (pos : nat)
  : option Match :=
  match fuel with
  | 0 => None
  | S f =>
    match run re s pos [] accept with
    | Some (e, c) => Some (mkMatch pos e c)
    | None =>
      match step s with
      | Some (_, w) => search f re (skipn w s) (pos + w)
      | None => None
      end
    end
  end.

(** re.doExecute(nil, nil, src, pos, ...): the leftmost match that starts
    at or after [pos].  None of the patterns below looks behind the search
    position. *)
Definition doExecute (re : regex) (src : gostring) (pos : nat) : option Match :=
  search (S (length src - pos)) re (skipn pos src) pos.

(** The position of capture group [n] in a match. *)
Fixpoint group (n : nat) (c : caps) : option (nat * nat) :=
  match c with
  | [] => None
  | (i, p) :: c' => if i =? n then Some p else group n c'
  end.

End regexp.

(* ================================================================== *)
(** ** regexp: the loops of FindAllStringIndex and ReplaceAllString *)

Module regexploops.
Import regexp.

(** The width of the rune at [pos], as [inputString.step] reports it: 0 at
    the end of the text. *)
Definition widthAt (s : gostring) (pos : nat) : nat :=
  match step (sliceFrom s pos) with
  | Some (_, w) => w
  | None => 0
  end.

(** The loop of [allMatches]; [prev] is [prevMatchEnd], [None] for -1.  The
    loop runs while [i < n && pos <= end]; every turn moves [pos] forward,
    so [fuel] turns reach the end when [fuel] exceeds the length of [s]. *)
Fixpoint allMatchesLoop (fuel : nat) (re : regex) (s : gostring) (n : nat)
         (pos i : nat) (prev : option nat) : list (nat * nat) :=
  match fuel with
  | 0 => []
  | S f =>
    if (i <? n) && (pos <=? length s) then
      match doExecute re s pos with
      | None => []
      | Some m =>
        let empty := m_end m =? pos in
        let accepted :=
            negb (empty && match prev with
                           | Some p => m_start m =? p
                           | None => false
                           end) in
        let pos' :=
            if empty then
              (if 0 <? widthAt s pos then pos + widthAt s pos
               else length s + 1)
            else m_end m in
        if accepted then
          (m_start m, m_end m)
            :: allMatchesLoop f re s n pos' (S i) (Some (m_end m))
        else allMatchesLoop f re s n pos' i (Some (m_end m))
      end
    else []
  end.

(** re.FindAllStringIndex(s, n); a negative [n] asks for all matches.  The
    result is nil, the empty list, when there is none. *)
Definition FindAllStringIndex (re : regex) (s : gostring) (n : Z)
  : list (nat * nat) :=
  let n := if (n <? 0)%Z then length s + 1 else Z.to_nat n in
  allMatchesLoop (length s + 2) re s n 0 0 None.

(** The loop of [replaceAll]. *)
Fixpoint replaceAllLoop (fuel : nat) (re : regex) (src : gostring)
         (repl : Match -> gostring) (lastMatchEnd searchPos : nat)
         (buf : gostring) : gostring :=
  match fuel with
  | 0 => buf ++ sliceFrom src lastMatchEnd
  | S f =>
    if searchPos <=? length src then
      match doExecute re src searchPos with
      | None => buf ++ sliceFrom src lastMatchEnd
      | Some a =>
        let buf := buf ++ slice src lastMatchEnd (m_start a) in
        let buf :=
            if (lastMatchEnd <? m_end a) || (m_start a =? 0)
            then buf ++ repl a else buf in
        let width := snd (utf8.DecodeRuneInString (sliceFrom src searchPos)) in
        let searchPos' :=
            if m_end a <? searchPos + width then searchPos + width
            else if m_end a <? searchPos + 1 then searchPos + 1
            else m_end a in
        replaceAllLoop f re src repl (m_end a) searchPos' buf
      end
    else buf ++ sliceFrom src lastMatchEnd
  end.

Definition replaceAll (re : regex) (src : gostring) (repl : Match -> gostring)
  : gostring :=
  replaceAllLoop (length src + 2) re src repl 0 0 [].

(** re.ReplaceAllStringFunc(src, repl) *)
Definition ReplaceAllStringFunc (re : regex) (src : gostring)
           (repl : gostring -> gostring) : gostring :=
  replaceAll re src (fun m => repl (slice src (m_start m) (m_end m))).

(** A replacement template, parsed: literal text and [$n] references. *)
Inductive titem := TText (t : gostring) | TGroup (n : nat).

(** re.expand: a group that did not take part expands to nothing. *)
Definition expand (template : list titem) (src : gostring) (m : Match)
  : gostring :=
  flat_map (fun t =>
              match t with
              | TText x => x
              | TGroup 0 => slice src (m_start m) (m_end m)
              | TGroup n =>
                match group n (m_caps m) with
                | Some (lo, hi) => slice src lo hi
                | None => []
                end
              end) template.

(** re.ReplaceAllString(src, repl) *)
Definition ReplaceAllString (re : regex) (src : gostring)
           (template : list titem) : gostring :=
  replaceAll re src (expand template src).

End regexploops.

(* ================================================================== *)
(** ** strings.Replacer

    Every old string of the replacer of this file is one byte long, so
    [strings.NewReplacer] builds a byte-to-string replacer: each byte of the
    input is looked up on its own, the first pair with that byte wins. *)

Module strings.

Definition Replacer := list (byte * gostring).

Definition NewReplacer (oldnew : list (ascii * string)) : Replacer :=
  map (fun p => (fst p, str (snd p))) oldnew.

Fixpoint lookup (r : Replacer) (b : byte) : option gostring :=
  match r with
  | [] => None
  | (o, n) :: r' => if Ascii.eqb o b then Some n else lookup r' b
  end.

Definition replaceByte (r : Replacer) (b : byte) : gostring :=
  match lookup r b with
  | Some n => n
  | None => [b]
  end.

Definition Replace (r : Replacer) (s : gostring) : gostring :=
  flat_map (replaceByte r) s.

End strings.

(* ================================================================== *)
(** ** The formatter of the bridge *)

Import regexp regexploops.

(** Concatenation of a sequence of sub-patterns. *)
Fixpoint seq (l : list regex) : regex :=
  match l with
  | [] => Quest (One (Cls false []))       (* the empty pattern *)
  | [x] => x
  | x :: l' => Cat x (seq l')
  end.

Definition chars (s : string) : list regex :=
  map (fun c => One (Chr c)) (list_ascii_of_string s).

Definition backslash : ascii := "\"%char.
Definition backtick : ascii := "`"%char.
Definition dquote : ascii := "034"%char.

(** [var escapeFixer = regexp.MustCompile(`\\(__[^_]|\*\*[^*])`)] *)
Definition escapeFixer : regex :=
  Cat (One (Chr backslash))
      (Cap 1 (Alt (seq (chars "__" ++ [One (Cls true [CChar "_"])]))
                  (seq (chars "**" ++ [One (Cls true [CChar "*"])])))).

(** [func(s string) string { return s[:2] + `\` + s[2:] }] *)
Definition escapeFixerRepl (s : gostring) : gostring :=
  slice s 0 2 ++ [backslash] ++ sliceFrom s 2.

(** The first statement of [renderDiscordMarkdown], the ambiguity-repair
    pass: [text = escapeFixer.ReplaceAllStringFunc(text, ...)]. *)
Definition fixAmbiguousEscape (text : gostring) : gostring :=
  ReplaceAllStringFunc escapeFixer text escapeFixerRepl.

(** [var discordLinkRegex = regexp.MustCompile(...)], the pattern being
    [https?://] followed by [[^<\p{Zs}\x{feff}]*] and by one character of
    the negated class whose members are the double quote, the characters
    [' ) , . : ; ]], [\p{Zs}] and [\x{feff}]. *)
Definition linkBody : atom := Cls true [CChar "<"; CZs; CRune 0xFEFF%N].
Definition linkLast : atom :=
  Cls true [CChar dquote; CChar "'"; CChar ")"; CChar ","; CChar ".";
            CChar ":"; CChar ";"; CChar "]"; CZs; CRune 0xFEFF%N].

Definition discordLinkRegex : regex :=
  seq (chars "http" ++ [Quest (One (Chr "s"))] ++ chars "://"
         ++ [Star linkBody; One linkLast]).

(** [var discordMarkdownEscaper = strings.NewReplacer(...)] *)
Definition discordMarkdownEscaper : strings.Replacer :=
  strings.NewReplacer
    [ ("\"%char, "\\"%string);
      ("_"%char, "\_"%string);
      ("*"%char, "\*"%string);
      ("~"%char, "\~"%string);
      ("`"%char, "\`"%string);
      ("|"%char, "\|"%string);
      ("<"%char, "\<"%string) ].

(** [var discordMarkdownUnscaper = regexp.MustCompile(`\\(.)`)] *)
Definition discordMarkdownUnscaper : regex :=
  Cat (One (Chr backslash)) (Cap 1 (One Dot)).

(** The loop of [escapeDiscordMarkdown] over the matches: the builder and
    the offset are the state. *)
Fixpoint escapeLoop (s : gostring) (submatches : list (nat * nat))
         (builder : gostring) (offset : nat) : gostring * nat :=
  match submatches with
  | [] => (builder, offset)
  | (start, end_) :: rest =>
    let builder :=
        builder ++ strings.Replace discordMarkdownEscaper (slice s offset start) in
    let builder := builder ++ slice s start end_ in
    escapeLoop s rest builder end_
  end.

Definition escapeDiscordMarkdown (s : gostring) : gostring :=
  let submatches := FindAllStringIndex discordLinkRegex s (-1) in
  match submatches with
  | [] => strings.Replace discordMarkdownEscaper s
  | _ =>
    let '(builder, offset) := escapeLoop s submatches [] 0 in
    builder ++ strings.Replace discordMarkdownEscaper (sliceFrom s offset)
  end.

(** [discordMarkdownUnscaper.ReplaceAllString(s, "$1")] *)
Definition unescape (s : gostring) : gostring :=
  ReplaceAllString discordMarkdownUnscaper s [TGroup 1].

(** [matrixHTMLParser.ItalicConverter] *)
Definition ItalicConverter (s : gostring) : gostring :=
  str "*" ++ s ++ str "*".

(** [matrixHTMLParser.UnderlineConverter] *)
Definition UnderlineConverter (s : gostring) : gostring :=
  str "__" ++ s ++ str "__".

(** [matrixHTMLParser.TextConverter] *)
Definition TextConverter (s : gostring) : gostring :=
  escapeDiscordMarkdown s.

(** [matrixHTMLParser.SpoilerConverter] *)
Definition SpoilerConverter (text reason : gostring) : gostring :=
  match reason with
  | [] => str "||" ++ text ++ str "||"
  | _ => str "(" ++ reason ++ str ") ||" ++ text ++ str "||"
  end.

(** [matrixHTMLParser.MonospaceConverter] *)
Definition MonospaceConverter (s : gostring) : gostring :=
  let s := unescape s in
  let pre := if HasPrefix s [backtick] then str " " else [] in
  let suf := if HasSuffix s [backtick] then str " " else [] in
  str "``" ++ pre ++ s ++ suf ++ str "``".

(* ------------------------------------------------------------------ *)
(** *** The mention resolver *)

(** A call either returns or panics (a failed type assertion, a nil
    dereference, an index out of range). *)
Inductive result (A : Type) : Type :=
| Ret (a : A)
| Panic.
Arguments Ret {A} a.
Arguments Panic {A}.

Definition bind {A B} (r : result A) (f : A -> result B) : result B :=
  match r with
  | Ret a => f a
  | Panic => Panic
  end.

Notation "x <- e ;; k" := (bind e (fun x => k))
  (at level 61, e at next level, right associativity).

Fixpoint streq (a b : gostring) : bool :=
  match a, b with
  | [], [] => true
  | x :: a', y :: b' => Ascii.eqb x y && streq a' b'
  | _, _ => false
  end.

(** [s[i]] *)
Definition index (s : gostring) (i : nat) : result byte :=
  match nth_error s i with
  | Some b => Ret b
  | None => Panic
  end.

(** The rows of the bridge the resolver reads. *)
Record PortalKey := { ChannelID : gostring; Receiver : gostring }.
Record Portal := { Key : PortalKey; GuildID : gostring }.
(** [msg.DiscordProtoChannelID()] is a method of the database package; the
    value it returns for a row is kept with the row. *)
Record Message := { MessageDiscordID : gostring;
                    DiscordProtoChannelID : gostring }.
Record User := { MXID : gostring; DiscordID : gostring }.

(** The values a [format.Context] holds: pointers, possibly nil, or
    anything else. *)
Inductive value :=
| VUser (u : option User)
| VPortal (p : option Portal)
| VOther.

(** [format.Context], a [map[string]interface{}]; a lookup of a missing key
    gives the nil interface. *)
Definition Context := list (string * value).

Fixpoint ctxGet (ctx : Context) (key : string) : option value :=
  match ctx with
  | [] => None
  | (k, v) :: ctx' => if String.eqb k key then Some v else ctxGet ctx' key
  end.

Definition formatterContextUserKey : string := "fi.mau.discord.user".
Definition formatterContextPortalKey : string := "fi.mau.discord.portal".

(** The one-result type assertion of [ctx[key]] to a pointer to [User]: it
    panics on the nil interface and on a value of another type. *)
Definition assertUser (v : option value) : result (option User) :=
  match v with
  | Some (VUser u) => Ret u
  | _ => Panic
  end.

(** [user.bridge]: reading a field through a nil pointer panics. *)
Definition deref {A} (p : option A) : result A :=
  match p with
  | Some a => Ret a
  | None => Panic
  end.

(** The directories behind [user.bridge], which the resolver only reads.
    A lookup that finds nothing gives [None] (a nil pointer, a non-nil
    error, [ok == false]). *)
Record Bridge := {
  ResolveAlias : gostring -> option gostring;
  GetPortalByMXID : gostring -> option Portal;
  MessageGetByMXID : PortalKey -> gostring -> option Message;
  ParsePuppetMXID : gostring -> option gostring;
  GetUserByMXID : gostring -> option User
}.

Section Resolver.

(** Every user of the process holds the same bridge. *)
Variable bridge : Bridge.

Definition isByte (b : byte) (c : ascii) : bool := Ascii.eqb b c.

(** The part of [pillConverter] after the alias has been resolved. *)
Definition pillResolved (displayname mxid eventID : gostring)
           (user : option User) : result gostring :=
  c <- index mxid 0 ;;
  if isByte c "!" then
    _ <- deref user ;;
    match GetPortalByMXID bridge mxid with
    | Some portal =>
      if streq eventID [] then
        Ret (str "<#" ++ ChannelID (Key portal) ++ str ">")
      else
        match MessageGetByMXID bridge (Key portal) eventID with
        | Some msg =>
          let guildID := GuildID portal in
          let guildID := if streq guildID [] then str "@me" else guildID in
          Ret (str "https://discord.com/channels/" ++ guildID ++ str "/"
                   ++ DiscordProtoChannelID msg ++ str "/"
                   ++ MessageDiscordID msg)
        | None => Ret displayname
        end
    | None => Ret displayname
    end
  else if isByte c "@" then
    _ <- deref user ;;
    match ParsePuppetMXID bridge mxid with
    | Some parsedID => Ret (str "<@" ++ parsedID ++ str ">")
    | None =>
      match GetUserByMXID bridge mxid with
      | Some mentionedUser =>
        if negb (streq (DiscordID mentionedUser) []) then
          Ret (str "<@" ++ DiscordID mentionedUser ++ str ">")
        else Ret displayname
      | None => Ret displayname
      end
    end
  else Ret displayname.

Definition pillConverter (displayname mxid eventID : gostring)
           (ctx : Context) : result gostring :=
  if length mxid =? 0 then Ret displayname else
  user <- assertUser (ctxGet ctx formatterContextUserKey) ;;
  c <- index mxid 0 ;;
  if isByte c "#" then
    _ <- deref user ;;
    match ResolveAlias bridge mxid with
    | None => Ret displayname
    | Some roomID => pillResolved displayname roomID eventID user
    end
  else pillResolved displayname mxid eventID user.

(* ------------------------------------------------------------------ *)
(** *** The inbound entry point *)

Record MessageEventContent := {
  Format : gostring;
  FormattedBody : gostring;
  Body : gostring
}.

(** [event.FormatHTML] *)
Definition FormatHTML : gostring := str "org.matrix.custom.html".

(** [matrixHTMLParser.Parse], the tree walker of the format package, which
    this file configures and does not implement. *)
Variable Parse : gostring -> Context -> gostring.

Definition parseMatrixHTML (portal : option Portal) (user : option User)
           (content : MessageEventContent) : gostring :=
  if streq (Format content) FormatHTML && (0 <? length (FormattedBody content))
  then Parse (FormattedBody content)
             [ (formatterContextUserKey, VUser user);
               (formatterContextPortalKey, VPortal portal) ]
  else escapeDiscordMarkdown (Body content).

End Resolver.

(** [renderDiscordMarkdown]: the repaired text goes to
    [format.RenderMarkdownCustom] with the renderer built for the portal;
    goldmark and the format package are libraries, taken as a parameter. *)
Definition renderDiscordMarkdown {Content : Type}
           (RenderMarkdownCustom : option Portal -> gostring -> Content)
           (portal : option Portal) (text : gostring) : Content :=
  RenderMarkdownCustom portal (fixAmbiguousEscape text).

(* ================================================================== *)
(** ** The commands of the bridge bot *)

Module commands.

(** [strings.ToLower]: a text of ASCII bytes is lowered byte by byte, and
    returned as it is when it has no upper-case letter; any other text goes
    through [strings.Map] with [unicode.ToLower], which is taken as a
    parameter. *)
Definition RuneSelf : N := 0x80%N.

Definition isUpper (c : byte) : bool :=
  (b2n "A" <=? b2n c)%N && (b2n c <=? b2n "Z")%N.

Definition lowerByte (c : byte) : byte :=
  if isUpper c then ascii_of_N (b2n c + (b2n "a" - b2n "A")) else c.

Definition ToLower (mapToLower : gostring -> gostring) (s : gostring)
  : gostring :=
  let isASCII := forallb (fun c => (b2n c <? RuneSelf)%N) s in
  let hasUpper := existsb isUpper s in
  if isASCII then
    if negb hasUpper then s else map lowerByte s
  else mapToLower s.

(** An error value that is not nil, by its message. *)
Definition error := gostring.

(** The rows and objects the commands read, with the fields they read; a
    portal is told from another by its key. *)
Module database.
Record UserPortal := { DiscordID : gostring }.
End database.

Module guild.
Record Guild := { Name : gostring; ID : gostring; MXID : gostring }.
End guild.

Module portal.
Record Portal := { Key : PortalKey; MXID : gostring }.
End portal.

(** An intent, by a handle. *)
Definition Intent := nat.

Module puppet.
Record Puppet := { CustomIntent : option Intent }.
End puppet.

(** The operands of a reply, after its format. *)
Inductive operand :=
| OString (s : gostring)
| OInt (n : nat)
| OError (err : error).

(** What a handler does to the world, in the order it does it: the replies
    it sends and the calls that change the bridge, the rooms or the
    database; [Go] is the start of a goroutine, with what the goroutine
    does. *)
#[warnings="-register-all"] Inductive event :=
| Reply (format : gostring) (args : list operand)
| UserLogout
| UserDisconnect
| UserConnect
| UserBridgeGuild (guildID : gostring) (everything : bool)
| UserUnbridgeGuild (guildID : gostring)
| PortalDelete (p : portal.Portal)
| KickUser (p : portal.Portal) (roomID reason userID : gostring)
| LeaveRoom (intent : Intent) (roomID : gostring)
| ForgetRoom (intent : Intent) (roomID : gostring)
| PortalCleanup (p : portal.Portal) (puppetsOnly : bool)
| Go (body : list event).

(** What [ce.User] and [ce.Bridge] answer when a handler asks: the fields
    and the results of the methods the handlers call, a nil error or a nil
    pointer being [None]. *)
Record World := {
  UserMXID : gostring;
  Connected : bool;
  Logout : option error;
  Disconnect : option error;
  Connect : option error;
  bridgeGuild : gostring -> bool -> option error;
  unbridgeGuild : gostring -> option error;
  GetPortals : list database.UserPortal;
  GetGuildByID : gostring -> bool -> option guild.Guild;
  GetAllPortals : list portal.Portal;
  GetPuppetByCustomMXID : gostring -> option puppet.Puppet
}.

Section Handlers.

Variable mapToLower : gostring -> gostring.
Variable ce : World.

(** [func fnLogout] *)
Definition fnLogout : list event :=
  UserLogout ::
  match Logout ce with
  | Some err => [Reply (str "Error logging out: %v") [OError err]]
  | None => [Reply (str "Logged out successfully.") []]
  end.

(** [func fnDisconnect] *)
Definition fnDisconnect : list event :=
  if negb (Connected ce) then [Reply (str "You're already not connected") []]
  else
    UserDisconnect ::
    match Disconnect ce with
    | Some err => [Reply (str "Error while disconnecting: %v") [OError err]]
    | None => [Reply (str "Successfully disconnected") []]
    end.

(** [func fnReconnect] *)
Definition fnReconnect : list event :=
  if Connected ce then [Reply (str "You're already connected") []]
  else
    UserConnect ::
    match Connect ce with
    | Some err => [Reply (str "Error while reconnecting: %v") [OError err]]
    | None => [Reply (str "Successfully reconnected") []]
    end.

(** The loop of [fnListGuilds]; the builder is the state. *)
Fixpoint listGuildsLoop (portals : list database.UserPortal)
         (output : gostring) : gostring :=
  match portals with
  | [] => output
  | userGuild :: rest =>
    match GetGuildByID ce (database.DiscordID userGuild) false with
    | None => listGuildsLoop rest output
    | Some guild =>
      let status := str "not bridged" in
      let status :=
          if negb (streq (guild.MXID guild) []) then str "bridged" else status in
      listGuildsLoop rest
        (output ++ str "* " ++ guild.Name guild ++ str " (`" ++ guild.ID guild
                ++ str "`) - " ++ status ++ ["010"%char])
    end
  end.

(** [func fnListGuilds] *)
Definition fnListGuilds : list event :=
  let output := listGuildsLoop (GetPortals ce) [] in
  if length output =? 0 then [Reply (str "No guilds found") []]
  else [Reply (str "List of guilds:" ++ ["010"; "010"]%char ++ str "%s")
              [OString output]].

(** [ce.Args[i]] *)
Definition arg (Args : list gostring) (i : nat) : result gostring :=
  match nth_error Args i with
  | Some a => Ret a
  | None => Panic
  end.

(** [func fnBridgeGuild] *)
Definition fnBridgeGuild (Args : list gostring) : result (list event) :=
  if (length Args =? 0) || (2 <? length Args) then
    Ret [Reply (str "**Usage**: `$cmdprefix guilds bridge <guild ID> [--entire]") []]
  else
    guildID <- arg Args 0 ;;
    everything <- (if length Args =? 2 then
                     a <- arg Args 1 ;;
                     Ret (streq (ToLower mapToLower a) (str "--entire"))
                   else Ret false) ;;
    Ret (UserBridgeGuild guildID everything ::
         match bridgeGuild ce guildID everything with
         | Some err => [Reply (str "Error bridging guild: %v") [OError err]]
         | None => [Reply (str "Successfully bridged guild") []]
         end).

(** [func fnUnbridgeGuild] *)
Definition fnUnbridgeGuild (Args : list gostring) : result (list event) :=
  if negb (length Args =? 1) then
    Ret [Reply (str "**Usage**: `$cmdprefix guilds unbridge <guild ID>") []]
  else
    guildID <- arg Args 0 ;;
    Ret (UserUnbridgeGuild guildID ::
         match unbridgeGuild ce guildID with
         | Some err => [Reply (str "Error unbridging guild: %v") [OError err]]
         | None => [Reply (str "Successfully unbridged guild") []]
         end).

(** [func fnGuilds]; the arguments after the first are what the handler of
    the subcommand finds in [ce.Args]. *)
Definition fnGuilds (Args : list gostring) : result (list event) :=
  if length Args =? 0 then
    Ret [Reply (str "**Usage**: `$cmdprefix guilds <status/bridge/unbridge> [guild ID] [--entire]`") []]
  else
    a <- arg Args 0 ;;
    let subcommand := ToLower mapToLower a in
    let Args := skipn 1 Args in
    if streq subcommand (str "status") then Ret fnListGuilds
    else if streq subcommand (str "bridge") then fnBridgeGuild Args
    else if streq subcommand (str "unbridge") then fnUnbridgeGuild Args
    else Ret [].

(** The two closures [leave] of [fnDeleteAllPortals]. *)
Definition leaveByKick (p : portal.Portal) : list event :=
  if 0 <? length (portal.MXID p) then
    [KickUser p (portal.MXID p) (str "Deleting portal") (UserMXID ce)]
  else [].

Definition leaveByIntent (intent : Intent) (p : portal.Portal) : list event :=
  if 0 <? length (portal.MXID p) then
    [LeaveRoom intent (portal.MXID p); ForgetRoom intent (portal.MXID p)]
  else [].

(** [func fnDeleteAllPortals] *)
Definition fnDeleteAllPortals : list event :=
  let portals := GetAllPortals ce in
  if length portals =? 0 then [Reply (str "Didn't find any portals") []]
  else
    let leave := leaveByKick in
    let customPuppet := GetPuppetByCustomMXID ce (UserMXID ce) in
    let leave :=
        match customPuppet with
        | Some cp =>
          match puppet.CustomIntent cp with
          | Some intent => leaveByIntent intent
          | None => leave
          end
        | None => leave
        end in
    [Reply (str "Found %d portals, deleting...") [OInt (length portals)]]
    ++ flat_map (fun p => PortalDelete p :: leave p) portals
    ++ [Reply (str "Finished deleting portal info. Now cleaning up rooms in background.") []]
    ++ [Go (map (fun p => PortalCleanup p false) portals
            ++ [Reply (str "Finished background cleanup of deleted portal rooms.") []])].

End Handlers.

End commands.

(* ================================================================== *)
(** * The vocabulary of the properties *)

(** ** The escaping subsystem *)

(** The EscapeToken set. *)
Definition isEscapeToken (b : byte) : bool :=
  existsb (Ascii.eqb b) (str "\_*~`|<").

(** Whether byte offset [i] lies inside one of the spans. *)
Definition inSpans (ms : list (nat * nat)) (i : nat) : bool :=
  existsb (fun sp => (fst sp <=? i) && (i <? snd sp)) ms.

Fixpoint mapi {A B : Type} (f : nat -> A -> B) (i : nat) (l : list A)
  : list B :=
  match l with
  | [] => []
  | a :: l' => f i a :: mapi f (S i) l'
  end.

(** The text with a backslash put before every EscapeToken byte that lies
    outside the spans, and nothing else changed. *)
Definition escapeOutside (ms : list (nat * nat)) (s : gostring) : gostring :=
  concat (mapi (fun i b =>
                  if inSpans ms i then [b]
                  else if isEscapeToken b then [backslash; b] else [b])
               0 s).

(** The spans lie in a text of length [len], each non-empty, one after the
    other, none before [from]. *)
Inductive spansFrom (len : nat) : nat -> list (nat * nat) -> Prop :=
| spans_nil from : spansFrom len from []
| spans_cons from st en rest :
    from <= st -> st < en -> en <= len ->
    spansFrom len en rest -> spansFrom len from ((st, en) :: rest).

(** ** Un-escaping *)

Definition newline : ascii := "010"%char.

(** Un-escaping byte by byte: a backslash and the byte after it become that
    byte, unless that byte is a line feed; a backslash at the very end
    stays. *)
Fixpoint unescapeBytes (s : gostring) : gostring :=
  match s with
  | [] => []
  | b :: t =>
    if Ascii.eqb b backslash then
      match t with
      | [] => [b]
      | c :: t' =>
        if Ascii.eqb c newline then b :: unescapeBytes t
        else c :: unescapeBytes t'
      end
    else b :: unescapeBytes t
  end.

(** Un-escaping as the specification words it: every backslash followed by
    one character becomes that character. *)
Fixpoint unescapeAny (s : gostring) : gostring :=
  match s with
  | [] => []
  | b :: t =>
    if Ascii.eqb b backslash then
      match t with
      | [] => [b]
      | c :: t' => c :: unescapeAny t'
      end
    else b :: unescapeAny t
  end.

(** ** The monospace converter *)

Definition startsWithBacktick (u : gostring) : bool :=
  match u with
  | b :: _ => Ascii.eqb b backtick
  | [] => false
  end.

Definition endsWithBacktick (u : gostring) : bool :=
  match rev u with
  | b :: _ => Ascii.eqb b backtick
  | [] => false
  end.

(** The content between double backticks, with a space on each side where
    the content has a backtick at that end. *)
Definition wrapMonospace (u : gostring) : gostring :=
  str "``" ++ (if startsWithBacktick u then str " " else [])
           ++ u
           ++ (if endsWithBacktick u then str " " else [])
           ++ str "``".

(** ** The mention resolver and the inbound entry point *)

(** The literal forms the resolver produces. *)
Definition channelMention (channelID : gostring) : gostring :=
  str "<#" ++ channelID ++ str ">".

Definition userMention (userID : gostring) : gostring :=
  str "<@" ++ userID ++ str ">".

Definition permalink (server channelID messageID : gostring) : gostring :=
  str "https://discord.com/channels/" ++ server ++ str "/" ++ channelID
      ++ str "/" ++ messageID.

Definition isMentionToken (out : gostring) : Prop :=
  (exists c, out = channelMention c) \/
  (exists u, out = userMention u) \/
  (exists g c m, out = permalink g c m).

(** A bridge whose directories are empty. *)
Definition emptyBridge : Bridge :=
  {| ResolveAlias := fun _ => None;
     GetPortalByMXID := fun _ => None;
     MessageGetByMXID := fun _ _ => None;
     ParsePuppetMXID := fun _ => None;
     GetUserByMXID := fun _ => None |}.

(** A message without a formatted body, a user, and a bridge with one
    portal, one message and one user, to try the resolver on. *)
Definition plainContent : MessageEventContent :=
  {| Format := []; FormattedBody := []; Body := str "a_b" |}.

Definition alice : User :=
  {| MXID := str "@alice:example.org"; DiscordID := str "1001" |}.

Definition aliceContext : Context :=
  [ (formatterContextUserKey, VUser (Some alice)) ].

Definition smallBridge : Bridge :=
  {| ResolveAlias := fun a =>
       if streq a (str "#general:example.org")
       then Some (str "!room:example.org") else None;
     GetPortalByMXID := fun r =>
       if streq r (str "!room:example.org")
       then Some {| Key := {| ChannelID := str "42"; Receiver := [] |};
                    GuildID := [] |}
       else None;
     MessageGetByMXID := fun _ e =>
       if streq e (str "$event")
       then Some {| MessageDiscordID := str "777";
                    DiscordProtoChannelID := str "42" |}
       else None;
     ParsePuppetMXID := fun _ => None;
     GetUserByMXID := fun u =>
       if streq u (str "@alice:example.org") then Some alice else None |}.

(** ** The ambiguity-repair pass *)

(** The text with a backslash put before the byte at each of the offsets,
    and nothing else changed. *)
Definition insertBefore (offsets : list nat) (s : gostring) : gostring :=
  concat (mapi (fun i b =>
                  if existsb (Nat.eqb i) offsets then [backslash; b] else [b])
               0 s).

(** The pattern of the pass at byte offset [i] of the text, [n] bytes long:
    a backslash, the same delimiter twice, one character that is not that
    delimiter. *)
Definition patternAt (s : gostring) (i n : nat) : Prop :=
  exists d r w,
    (d = "_"%char \/ d = "*"%char) /\
    firstn 3 (skipn i s) = [backslash; d; d] /\
    regexp.step (skipn (i + 3) s) = Some (r, w) /\
    r <> b2n d /\ n = 3 + w.

(** The spans the pass rewrites. *)
Definition fixerMatches (s : gostring) : list (nat * nat) :=
  regexploops.FindAllStringIndex escapeFixer s (-1).

(** ** The link pattern *)

(** The runes of a text, in order. *)
Fixpoint decodeAll (fuel : nat) (s : gostring) : list rune :=
  match fuel with
  | 0 => []
  | S f =>
    match regexp.step s with
    | Some (r, w) => r :: decodeAll f (skipn w s)
    | None => []
    end
  end.

Definition runesOf (s : gostring) : list rune := decodeAll (length s) s.

(** The text after [http://] or [https://]. *)
Definition stripScheme (w : gostring) : option gostring :=
  if HasPrefix w (str "https://") then Some (skipn 8 w)
  else if HasPrefix w (str "http://") then Some (skipn 7 w)
  else None.

Definition lessThan : rune := b2n "<".
Definition zeroWidthNoBreak : rune := 0xFEFF%N.

(** The characters a link does not end in. *)
Definition trailing : list ascii :=
  [dquote; "'"; ")"; ","; "."; ":"; ";"; "]"]%char.

Definition isTrailing (r : rune) : bool :=
  existsb (fun c => (r =? b2n c)%N) trailing.

(** The rule as the specification words it: the scheme, at least two
    characters after it, no [<] and no space separator anywhere, and no
    trailing character nor space separator at the end. *)
Definition claimedLink (w : gostring) : bool :=
  match stripScheme w with
  | None => false
  | Some body =>
    let rs := runesOf body in
    (2 <=? length rs)
    && forallb (fun r => negb (r =? lessThan)%N && negb (regexp.Zs r)) rs
    && negb (isTrailing (last rs 0%N))
  end.

(** Enough for a match: the rule of the specification, with U+FEFF kept
    out as well. *)
Definition linkWide (w : gostring) : bool :=
  match stripScheme w with
  | None => false
  | Some body =>
    let rs := runesOf body in
    (2 <=? length rs)
    && forallb (fun r => negb (r =? lessThan)%N && negb (regexp.Zs r)
                         && negb (r =? zeroWidthNoBreak)%N) rs
    && negb (isTrailing (last rs 0%N))
  end.

(** Needed for a match. *)
Definition linkLoose (w : gostring) : bool :=
  match stripScheme w with
  | None => false
  | Some body =>
    let rs := runesOf body in
    (1 <=? length rs)
    && forallb (fun r => negb (regexp.Zs r) && negb (r =? zeroWidthNoBreak)%N) rs
    && forallb (fun r => negb (r =? lessThan)%N) (removelast rs)
    && negb (isTrailing (last rs 0%N))
  end.

(** The spans the escape subsystem takes for links. *)
Definition linkSpans (s : gostring) : list (nat * nat) :=
  regexploops.FindAllStringIndex discordLinkRegex s (-1).

(** The whole of [w] is one link. *)
Definition matchedWhole (w : gostring) : Prop :=
  linkSpans w = [(0, length w)].

Definition isTrailingByte (b : byte) : bool :=
  existsb (Ascii.eqb b) (trailing ++ [" "%char]).

(** U+FEFF, as UTF-8. *)
Definition bom : gostring := ["239"; "187"; "191"]%char.

(** ** Further vocabulary of the formatter *)

(** No backslash lies inside a span the link pattern matches. *)
Definition plainLinks (s : gostring) : bool :=
  forallb (fun x => x)
          (mapi (fun i b => negb (inSpans (linkSpans s) i && Ascii.eqb b backslash))
                0 s).

(** The number of EscapeToken bytes outside the spans the link pattern
    matches. *)
Definition escapedBytes (s : gostring) : nat :=
  length (filter (fun x => x)
                 (mapi (fun i b => negb (inSpans (linkSpans s) i) && isEscapeToken b)
                       0 s)).

(** A backslash with a byte other than a line feed after it. *)
Fixpoint hasEscape (s : gostring) : bool :=
  match s with
  | b :: t =>
    (Ascii.eqb b backslash
     && match t with
        | c :: _ => negb (Ascii.eqb c newline)
        | [] => false
        end)
    || hasEscape t
  | [] => false
  end.

(** The text begins with the scheme of a link. *)
Definition hasScheme (w : gostring) : bool :=
  HasPrefix w (str "https://") || HasPrefix w (str "http://").

(** The calls of [pillConverter] that do not return: a reference that is
    not empty, with no user in the context, or with a nil user and a
    reference the directories are asked about, or with an alias that
    resolves to the empty room id. *)
Definition pillPanics (bridge : Bridge) (mxid : gostring) (ctx : Context)
  : bool :=
  match mxid with
  | [] => false
  | c :: _ =>
    match ctxGet ctx formatterContextUserKey with
    | Some (VUser None) => isByte c "#" || isByte c "!" || isByte c "@"
    | Some (VUser (Some _)) =>
      isByte c "#"
      && match ResolveAlias bridge mxid with
         | Some [] => true
         | _ => false
         end
    | _ => true
    end
  end.

(** ** The commands *)

Module trace.
Import commands.

(** The replies of a trace, the calls that change a guild, the portals
    deleted, the portals cleaned up, the rooms the user is kicked from, the
    rooms left and forgotten through an intent, and what the goroutines
    started in the trace do. *)
Definition replies (tr : list event) : list (gostring * list operand) :=
  flat_map (fun e => match e with Reply f a => [(f, a)] | _ => [] end) tr.

Definition guildCalls (tr : list event) : list event :=
  filter (fun e => match e with
                   | UserBridgeGuild _ _ | UserUnbridgeGuild _ => true
                   | _ => false
                   end) tr.

Definition connectionCalls (tr : list event) : list event :=
  filter (fun e => match e with
                   | UserDisconnect | UserConnect => true
                   | _ => false
                   end) tr.

Definition deleted (tr : list event) : list portal.Portal :=
  flat_map (fun e => match e with PortalDelete p => [p] | _ => [] end) tr.

Definition cleaned (tr : list event) : list portal.Portal :=
  flat_map (fun e => match e with PortalCleanup p _ => [p] | _ => [] end) tr.

Definition kicked (tr : list event) : list gostring :=
  flat_map (fun e => match e with KickUser _ r _ _ => [r] | _ => [] end) tr.

Definition left (tr : list event) : list (Intent * gostring) :=
  flat_map (fun e => match e with LeaveRoom i r => [(i, r)] | _ => [] end) tr.

Definition forgotten (tr : list event) : list (Intent * gostring) :=
  flat_map (fun e => match e with ForgetRoom i r => [(i, r)] | _ => [] end) tr.

Definition started (tr : list event) : list event :=
  flat_map (fun e => match e with Go body => body | _ => [] end) tr.

(** The guilds of the portals of the user that the bridge knows, in the
    order of the portals. *)
Definition knownGuilds (ce : World) : list guild.Guild :=
  flat_map (fun ug => match GetGuildByID ce (database.DiscordID ug) false with
                      | Some g => [g]
                      | None => []
                      end)
           (GetPortals ce).

(** The line of the list for one guild. *)
Definition guildLine (g : guild.Guild) : gostring :=
  str "* " ++ guild.Name g ++ str " (`" ++ guild.ID g ++ str "`) - "
      ++ match guild.MXID g with
         | [] => str "not bridged"
         | _ => str "bridged"
         end
      ++ [newline].

(** The subcommands of the guilds command. *)
Definition isSubcommand (s : gostring) : bool :=
  streq s (str "status") || streq s (str "bridge") || streq s (str "unbridge").

Definition isASCII (s : gostring) : bool :=
  forallb (fun c => (b2n c <? 0x80)%N) s.

(** The intent of the custom puppet of the user, if there is one. *)
Definition customIntent (ce : World) : option Intent :=
  match GetPuppetByCustomMXID ce (UserMXID ce) with
  | Some cp => puppet.CustomIntent cp
  | None => None
  end.

(** The rooms of the portals that have one. *)
Definition rooms (ps : list portal.Portal) : list gostring :=
  filter (fun r => negb (streq r [])) (map portal.MXID ps).

End trace.

(** A user with three portals, two of them in guilds the bridge knows, and
    a bridge with two portals, one of them with a room. *)
Definition portalOne : commands.portal.Portal :=
  {| commands.portal.Key := {| ChannelID := str "1"; Receiver := [] |};
     commands.portal.MXID := str "!one:example.org" |}.

Definition portalTwo : commands.portal.Portal :=
  {| commands.portal.Key := {| ChannelID := str "2"; Receiver := [] |};
     commands.portal.MXID := [] |}.

Definition samplePortals : list commands.portal.Portal :=
  [portalOne; portalTwo].

Definition sampleWorld : commands.World :=
  {| commands.UserMXID := str "@alice:example.org";
     commands.Connected := true;
     commands.Logout := None;
     commands.Disconnect := None;
     commands.Connect := None;
     commands.bridgeGuild := fun _ _ => None;
     commands.unbridgeGuild := fun _ => None;
     commands.GetPortals :=
       [ {| commands.database.DiscordID := str "g1" |};
         {| commands.database.DiscordID := str "g2" |};
         {| commands.database.DiscordID := str "g3" |} ];
     commands.GetGuildByID := fun id _ =>
       if streq id (str "g1")
       then Some {| commands.guild.Name := str "One";
                    commands.guild.ID := str "g1";
                    commands.guild.MXID := str "!one:example.org" |}
       else if streq id (str "g3")
            then Some {| commands.guild.Name := str "Three";
                         commands.guild.ID := str "g3";
                         commands.guild.MXID := [] |}
            else None;
     commands.GetAllPortals := samplePortals;
     commands.GetPuppetByCustomMXID := fun _ => None |}.

(* ================================================================== *)
(** * Properties of the engine *)

Module EngineFacts.
Import regexp regexploops.

Lemma b2n_lt_256 (b : byte) : (b2n b < 256)%N.
Proof. apply N_ascii_bounded. Qed.

Lemma b2n_inj (a b : byte) : b2n a = b2n b -> a = b.
Proof.
  unfold b2n; intro H.
  rewrite <- (ascii_N_embedding a), <- (ascii_N_embedding b), H; reflexivity.
Qed.

Lemma b2n_eqb (a b : byte) : (b2n a =? b2n b)%N = Ascii.eqb a b.
Proof.
  destruct (Ascii.eqb_spec a b) as [->|Hne].
  - apply N.eqb_refl.
  - apply N.eqb_neq; intro H; apply Hne, b2n_inj, H.
Qed.

(** A byte that is no ASCII byte, and a continuation byte. *)
Definition high (b : byte) : Prop := (0x80 <= b2n b)%N.
Definition contb (b : byte) : Prop := (0x80 <= b2n b <= 0xBF)%N.

Definition allBytes : list byte := map ascii_of_nat (List.seq 0 256).

Lemma In_allBytes (b : byte) : In b allBytes.
Proof.
  unfold allBytes. rewrite <- (ascii_nat_embedding b).
  apply in_map, in_seq. pose proof (nat_ascii_bounded b). lia.
Qed.

(** A property of bytes that a computation confirms on each of the 256. *)
Lemma forall_bytes (P : byte -> bool) :
  forallb P allBytes = true -> forall b, P b = true.
Proof.
  intros H b. rewrite forallb_forall in H. apply H, In_allBytes.
Qed.

Lemma Pos_le_lor_l (p q : positive) : (p <= Pos.lor p q)%positive.
Proof.
  revert q; induction p; destruct q; simpl; try lia;
    specialize (IHp q); lia.
Qed.

Lemma N_le_lor_l (a b : N) : (a <= N.lor a b)%N.
Proof.
  destruct a, b; simpl; try lia. apply Pos_le_lor_l.
Qed.

Lemma N_le_lor_r (a b : N) : (b <= N.lor a b)%N.
Proof. rewrite N.lor_comm. apply N_le_lor_l. Qed.

(** The [first] table, read back. *)
Definition firstCheck (b0 : byte) : bool :=
  let s0 := b2n b0 in
  match utf8.first s0 with
  | utf8.AS => (s0 <? 0x80)%N
  | utf8.XX => (0x80 <=? s0)%N
  | utf8.Lead sz lo hi =>
    (0x80 <=? s0)%N && ((0x80 <=? lo)%N && (hi <=? 0xBF)%N)
    && match sz with
       | 2 => (0x80 <=? N.shiftl (N.land s0 utf8.mask2) 6)%N
       | 3 => (0x80 <=? N.shiftl (N.land s0 utf8.mask3) 12)%N
              || (lo =? 0xA0)%N
       | 4 => (0x80 <=? N.shiftl (N.land s0 utf8.mask4) 18)%N
              || (lo =? 0x90)%N
       | _ => false
       end
  end.

Lemma firstCheck_ok (b0 : byte) : firstCheck b0 = true.
Proof. apply forall_bytes. vm_compute. reflexivity. Qed.

Definition secondCheck (b1 : byte) : bool :=
  let s1 := b2n b1 in
  (implb (0xA0 <=? s1)%N
         (0x80 <=? N.shiftl (N.land s1 utf8.maskx) 6)%N
   || (0xBF <? s1)%N)
  && (implb (0x90 <=? s1)%N
            (0x80 <=? N.shiftl (N.land s1 utf8.maskx) 12)%N
      || (0xBF <? s1)%N).

Lemma secondCheck_ok (b1 : byte) : secondCheck b1 = true.
Proof. apply forall_bytes. vm_compute. reflexivity. Qed.

Ltac bool_to_prop :=
  repeat match goal with
         | H : (_ && _) = true |- _ => apply andb_prop in H; destruct H
         | H : (_ || _) = true |- _ => apply orb_prop in H
         | H : (_ || _) = false |- _ => apply orb_false_elim in H; destruct H
         | H : (_ <? _)%N = true |- _ => apply N.ltb_lt in H
         | H : (_ <? _)%N = false |- _ => apply N.ltb_ge in H
         | H : (_ <=? _)%N = true |- _ => apply N.leb_le in H
         | H : (_ <=? _)%N = false |- _ => apply N.leb_gt in H
         | H : (_ =? _)%N = true |- _ => apply N.eqb_eq in H
         | H : (_ =? _)%N = false |- _ => apply N.eqb_neq in H
         | H : (_ <? _) = true |- _ => apply Nat.ltb_lt in H
         | H : (_ <? _) = false |- _ => apply Nat.ltb_ge in H
         | H : (_ <=? _) = true |- _ => apply Nat.leb_le in H
         | H : (_ <=? _) = false |- _ => apply Nat.leb_gt in H
         | H : (_ =? _) = true |- _ => apply Nat.eqb_eq in H
         | H : (_ =? _) = false |- _ => apply Nat.eqb_neq in H
         end.

(** What the decoder says about the bytes it consumes: the width is within
    the text, and a rune that does not begin with an ASCII byte is at
    least 0x80 and continues with continuation bytes only. *)
Lemma DecodeRune_shape (b0 : byte) (t : gostring) (r : rune) (w : nat) :
  utf8.DecodeRuneInString (b0 :: t) = (r, w) ->
  1 <= w <= length (b0 :: t) /\
  ((b2n b0 < 0x80)%N -> r = b2n b0 /\ w = 1) /\
  ((0x80 <= b2n b0)%N -> (0x80 <= r)%N /\ Forall contb (firstn (w - 1) t)).
Proof.
  unfold utf8.DecodeRuneInString.
  pose proof (firstCheck_ok b0) as F. unfold firstCheck in F.
  destruct (utf8.first (b2n b0)) as [| |sz lo hi] eqn:E.
  - intros [= <- <-]. bool_to_prop. simpl.
    split; [lia|]. split; [auto|]. intros; lia.
  - intros [= <- <-]. bool_to_prop. simpl.
    split; [lia|]. split; [intros; lia|]. intros _. split; [discriminate|].
    constructor.
  - apply andb_prop in F. destruct F as [F Fsz].
    apply andb_prop in F. destruct F as [Hb0 Hlo].
    apply andb_prop in Hlo. destruct Hlo as [Hlo Hhi].
    apply N.leb_le in Hb0, Hlo, Hhi. change (high b0) in Hb0.
    assert (Hnlt : (b2n b0 < 0x80)%N -> forall r w, r = b2n b0 /\ w = 1)
      by (intros; unfold high in Hb0; lia).
    assert (Herr : forall r w, (utf8.RuneError, 1) = (r, w) ->
              1 <= w <= length (b0 :: t) /\
              ((b2n b0 < 0x80)%N -> r = b2n b0 /\ w = 1) /\
              ((0x80 <= b2n b0)%N ->
               (0x80 <= r)%N /\ Forall contb (firstn (w - 1) t))).
    { intros r' w' [= <- <-]. simpl.
      split; [lia|]. split; [auto|]. intros _. split; [discriminate|].
      constructor. }
    destruct (length (b0 :: t) <? sz) eqn:Hlen; [apply Herr|].
    destruct t as [|b1 t1]; [apply Herr|].
    destruct (N.ltb_spec (b2n b1) lo) as [L1|L1]; cbn [orb]; [apply Herr|].
    destruct (N.ltb_spec hi (b2n b1)) as [U1|U1]; [apply Herr|].
    assert (Hb1 : contb b1) by (unfold contb; lia).
    pose proof (secondCheck_ok b1) as S1. unfold secondCheck in S1.
    apply andb_prop in S1. destruct S1 as [S1a S1b].
    assert (Hsz : sz = 2 \/ sz = 3 \/ sz = 4)
      by (destruct sz as [|[|[|[|[|?]]]]]; try discriminate; lia).
    destruct Hsz as [ Hs | [ Hs | Hs ] ]; subst sz; cbn [Nat.leb].
    { intros [= <- <-]. bool_to_prop. simpl length.
      split; [lia|]. split; [auto|]. intros _. split.
      - pose proof (N_le_lor_l (N.shiftl (N.land (b2n b0) utf8.mask2) 6)
                               (N.land (b2n b1) utf8.maskx)). lia.
      - simpl. repeat (apply Forall_cons; [assumption|]). apply Forall_nil. }
    { destruct t1 as [|b2 t2]; [apply Herr|].
      destruct (N.ltb_spec (b2n b2) utf8.locb) as [L2|L2]; cbn [orb];
        [apply Herr|].
      destruct (N.ltb_spec utf8.hicb (b2n b2)) as [U2|U2]; [apply Herr|].
      assert (Hb2 : contb b2)
        by (unfold contb, utf8.locb, utf8.hicb in *; lia).
      intros [= <- <-]. simpl length.
      split; [lia|]. split; [auto|]. intros _. split.
      - set (A := N.shiftl (N.land (b2n b0) utf8.mask3) 12) in *.
        set (B := N.shiftl (N.land (b2n b1) utf8.maskx) 6) in *.
        pose proof (N_le_lor_l (N.lor A B) (N.land (b2n b2) utf8.maskx)).
        pose proof (N_le_lor_l A B). pose proof (N_le_lor_r A B).
        apply orb_prop in Fsz.
        destruct Fsz as [Fa|Fb]; bool_to_prop; [clearbody A B; lia|].
        subst lo.
        rewrite (proj2 (N.leb_le _ _) L1) in S1a. simpl in S1a.
        destruct S1a as [Sa|Sa]; bool_to_prop; clearbody A B; lia.
      - simpl. repeat (apply Forall_cons; [assumption|]). apply Forall_nil. }
    destruct t1 as [|b2 t2]; [apply Herr|].
    destruct (N.ltb_spec (b2n b2) utf8.locb) as [L2|L2]; cbn [orb];
      [apply Herr|].
    destruct (N.ltb_spec utf8.hicb (b2n b2)) as [U2|U2]; [apply Herr|].
    assert (Hb2 : contb b2)
        by (unfold contb, utf8.locb, utf8.hicb in *; lia).
    destruct t2 as [|b3 t3]; [apply Herr|].
    destruct (N.ltb_spec (b2n b3) utf8.locb) as [L3|L3]; cbn [orb];
      [apply Herr|].
    destruct (N.ltb_spec utf8.hicb (b2n b3)) as [U3|U3]; [apply Herr|].
    assert (Hb3 : contb b3)
      by (unfold contb, utf8.locb, utf8.hicb in *; lia).
    intros [= <- <-]. simpl length.
    split; [lia|]. split; [auto|]. intros _. split.
    + set (A := N.shiftl (N.land (b2n b0) utf8.mask4) 18) in *.
      set (B := N.shiftl (N.land (b2n b1) utf8.maskx) 12) in *.
      set (C := N.shiftl (N.land (b2n b2) utf8.maskx) 6) in *.
      pose proof (N_le_lor_l (N.lor (N.lor A B) C)
                             (N.land (b2n b3) utf8.maskx)).
      pose proof (N_le_lor_l (N.lor A B) C).
      pose proof (N_le_lor_l A B). pose proof (N_le_lor_r A B).
      apply orb_prop in Fsz.
      destruct Fsz as [Fa|Fb]; bool_to_prop; [clearbody A B C; lia|].
      subst lo.
      rewrite (proj2 (N.leb_le _ _) L1) in S1b. simpl in S1b.
      destruct S1b as [Sa|Sa]; bool_to_prop; clearbody A B C; lia.
    + simpl. repeat (apply Forall_cons; [assumption|]). apply Forall_nil.
Qed.

Lemma step_cons (b : byte) (t : gostring) :
  exists r w,
    step (b :: t) = Some (r, w) /\ 1 <= w <= length (b :: t) /\
    ((b2n b < 0x80)%N -> r = b2n b /\ w = 1) /\
    ((0x80 <= b2n b)%N ->
     (0x80 <= r)%N /\ Forall contb (firstn (w - 1) t)).
Proof.
  unfold step. destruct (N.ltb_spec (b2n b) 0x80) as [L|L].
  - exists (b2n b), 1. simpl. split; [reflexivity|]. split; [lia|].
    split; [auto|]. intros; lia.
  - destruct (utf8.DecodeRuneInString (b :: t)) as [r w] eqn:D.
    exists r, w. split; [reflexivity|]. apply DecodeRune_shape, D.
Qed.

Lemma step_width (s : gostring) (r : rune) (w : nat) :
  step s = Some (r, w) -> 1 <= w <= length s.
Proof.
  destruct s as [|b t]; [discriminate|].
  destruct (step_cons b t) as (r' & w' & E & W & _).
  rewrite E. intros [= <- <-]. exact W.
Qed.

Lemma step_ascii (b : byte) (t : gostring) :
  (b2n b < 0x80)%N -> step (b :: t) = Some (b2n b, 1).
Proof.
  intro L. unfold step. apply N.ltb_lt in L. rewrite L. reflexivity.
Qed.

(** The width [replaceAll] asks the decoder for is the width of [step]. *)
Lemma step_decode (s : gostring) (r : rune) (w : nat) :
  step s = Some (r, w) -> utf8.DecodeRuneInString s = (r, w).
Proof.
  destruct s as [|b t]; [discriminate|]. unfold step.
  destruct (N.ltb_spec (b2n b) 0x80) as [L|L].
  - intros [= <- <-]. unfold utf8.DecodeRuneInString.
    pose proof (firstCheck_ok b) as F. unfold firstCheck in F.
    destruct (utf8.first (b2n b)); [reflexivity| |];
      bool_to_prop; lia.
  - intros [= E]. exact E.
Qed.

(** ** The backtracking search, read backwards: a run that succeeds has
    handed some suffix of its input to its continuation. *)

Definition reaches (s : gostring) (pos : nat) (k : cont)
           (res : nat * caps) (least : nat) : Prop :=
  exists d c', least <= d <= length s /\ k (skipn d s) (pos + d) c' = Some res.

Lemma reaches_here s pos (k : cont) c res :
  k s pos c = Some res -> reaches s pos k res 0.
Proof.
  intro H. exists 0, c. rewrite Nat.add_0_r. simpl. split; [lia|exact H].
Qed.

Lemma reaches_step s pos (k : cont) res w m :
  w <= length s ->
  reaches (skipn w s) (pos + w) k res m -> reaches s pos k res (w + m).
Proof.
  intros Hw (d & c' & Hd & Hk). exists (w + d), c'.
  rewrite length_skipn in Hd. split; [lia|].
  rewrite skipn_skipn in Hk.
  replace (w + d) with (d + w) by lia.
  replace (pos + (d + w)) with (pos + w + d) by lia. exact Hk.
Qed.

Lemma reaches_weaken s pos k res m m' :
  m' <= m -> reaches s pos k res m -> reaches s pos k res m'.
Proof.
  intros Hm (d & c' & Hd & Hk). exists d, c'. split; [lia|exact Hk].
Qed.

Lemma star_inv a n :
  forall s pos c k res,
    star a n s pos c k = Some res -> reaches s pos k res 0.
Proof.
  induction n as [|n IH]; simpl; intros s pos c k res H.
  - eapply reaches_here; eauto.
  - destruct (step s) as [[r w]|] eqn:E; [|eapply reaches_here; eauto].
    destruct (atomMatches a r); [|eapply reaches_here; eauto].
    destruct (star a n (skipn w s) (pos + w) c k) eqn:S1;
      [|eapply reaches_here; eauto].
    injection H as <-. apply IH in S1.
    apply step_width in E.
    eapply reaches_weaken; [|apply reaches_step; [|exact S1]]; lia.
Qed.

Lemma run_inv re :
  forall s pos c k res,
    run re s pos c k = Some res -> reaches s pos k res 0.
Proof.
  induction re as [a|a|x IHx y IHy|x IHx y IHy|x IHx|n x IHx];
    simpl; intros s pos c k res H.
  - destruct (step s) as [[r w]|] eqn:E; [|discriminate].
    destruct (atomMatches a r); [|discriminate].
    apply step_width in E.
    eapply reaches_weaken;
      [|apply reaches_step; [|eapply reaches_here; exact H]]; lia.
  - eapply star_inv; eauto.
  - apply IHx in H. destruct H as (d & c' & Hd & Hk).
    apply IHy in Hk.
    eapply reaches_weaken; [|apply reaches_step; [|exact Hk]]; lia.
  - destruct (run x s pos c k) eqn:R; [injection H as <-|]; eauto.
  - destruct (run x s pos c k) eqn:R; [injection H as <-; eauto|].
    eapply reaches_here; eauto.
  - apply IHx in H. destruct H as (d & c' & Hd & Hk).
    exists d. eexists. split; [exact Hd|exact Hk].
Qed.

(** Patterns that begin with one rune: all three of this file do. *)
Definition headed (re : regex) : Prop := exists a x, re = Cat (One a) x.

Lemma run_headed re s pos c k res :
  headed re -> run re s pos c k = Some res ->
  exists r w, step s = Some (r, w) /\ reaches s pos k res w.
Proof.
  intros (a & x & ->). simpl.
  destruct (step s) as [[r w]|] eqn:E; [|discriminate].
  destruct (atomMatches a r); [|discriminate].
  intro H. exists r, w. split; [reflexivity|].
  apply run_inv in H. pose proof (step_width _ _ _ E).
  eapply reaches_weaken; [|apply reaches_step; [|exact H]]; lia.
Qed.

Lemma reaches_accept s pos e c m :
  reaches s pos accept (e, c) m -> pos + m <= e <= pos + length s.
Proof.
  intros (d & c' & Hd & Hk). unfold accept in Hk.
  injection Hk as <- _. lia.
Qed.

(** ** Positions are relative: shifting the start shifts the result *)

Definition shiftc (p : nat) (c : caps) : caps :=
  map (fun x => (fst x, (p + fst (snd x), p + snd (snd x)))) c.

Definition shiftr (p : nat) (res : nat * caps) : nat * caps :=
  (p + fst res, shiftc p (snd res)).

Definition shiftM (p : nat) (m : Match) : Match :=
  mkMatch (p + m_start m) (p + m_end m) (shiftc p (m_caps m)).

Definition shifted (p : nat) (k k' : cont) : Prop :=
  forall s pos c, k' s (p + pos) (shiftc p c) = option_map (shiftr p) (k s pos c).

Lemma star_shift p a n :
  forall s pos c k k',
    shifted p k k' ->
    star a n s (p + pos) (shiftc p c) k'
    = option_map (shiftr p) (star a n s pos c k).
Proof.
  induction n as [|n IH]; simpl; intros s pos c k k' Hk; [apply Hk|].
  destruct (step s) as [[r w]|]; [|apply Hk].
  destruct (atomMatches a r); [|apply Hk].
  rewrite <- Nat.add_assoc, (IH _ _ _ _ _ Hk).
  destruct (star a n (skipn w s) (pos + w) c k); [reflexivity|apply Hk].
Qed.

Lemma run_shift p re :
  forall s pos c k k',
    shifted p k k' ->
    run re s (p + pos) (shiftc p c) k'
    = option_map (shiftr p) (run re s pos c k).
Proof.
  induction re as [a|a|x IHx y IHy|x IHx y IHy|x IHx|n x IHx];
    simpl; intros s pos c k k' Hk.
  - destruct (step s) as [[r w]|]; [|reflexivity].
    destruct (atomMatches a r); [|reflexivity].
    rewrite <- Nat.add_assoc. apply Hk.
  - apply star_shift, Hk.
  - apply IHx. intros s' pos' c'. apply IHy, Hk.
  - rewrite (IHx _ _ _ _ _ Hk).
    destruct (run x s pos c k); [reflexivity|]. apply IHy, Hk.
  - rewrite (IHx _ _ _ _ _ Hk).
    destruct (run x s pos c k); [reflexivity|]. apply Hk.
  - apply IHx. intros s' pos' c'. apply (Hk s' pos' ((n, (pos, pos')) :: c')).
Qed.

Lemma accept_shifted p : shifted p accept accept.
Proof. intros s pos c. reflexivity. Qed.

Lemma star_nil (a : atom) (n pos : nat) (c : caps) (k : cont) :
  star a n [] pos c k = k [] pos c.
Proof. destruct n; reflexivity. Qed.

(** [length s] iterations are enough for the star: more change nothing. *)
Lemma star_fuel a n1 :
  forall n2 s pos c k,
    length s <= n1 -> length s <= n2 ->
    star a n1 s pos c k = star a n2 s pos c k.
Proof.
  induction n1 as [|n1 IH]; intros n2 s pos c k H1 H2.
  - destruct s; [|simpl in H1; lia]. rewrite (star_nil a n2). reflexivity.
  - destruct n2 as [|n2].
    + destruct s; [|simpl in H2; lia]. reflexivity.
    + cbn [star]. destruct (step s) as [[r w]|] eqn:E; [|reflexivity].
      destruct (atomMatches a r); [|reflexivity].
      apply step_width in E.
      rewrite (IH n2); [reflexivity| |]; rewrite length_skipn; lia.
Qed.

Lemma search_shift p re f :
  forall s pos,
    search f re s (p + pos) = option_map (shiftM p) (search f re s pos).
Proof.
  induction f as [|f IH]; simpl; intros s pos; [reflexivity|].
  pose proof (run_shift p re s pos [] _ _ (accept_shifted p)) as R.
  simpl in R. rewrite R.
  destruct (run re s pos [] accept) as [[e c]|]; [reflexivity|]. simpl.
  destruct (step s) as [[r w]|]; [|reflexivity].
  rewrite <- Nat.add_assoc. apply IH.
Qed.

Lemma search_fuel re f1 :
  forall f2 s pos,
    length s < f1 -> length s < f2 ->
    search f1 re s pos = search f2 re s pos.
Proof.
  induction f1 as [|f1 IH]; intros f2 s pos H1 H2; [lia|].
  destruct f2 as [|f2]; [lia|]. simpl.
  destruct (run re s pos [] accept) as [[e c]|]; [reflexivity|].
  destruct (step s) as [[r w]|] eqn:E; [|reflexivity].
  apply step_width in E.
  apply IH; rewrite length_skipn; lia.
Qed.

Lemma search_bounds re f :
  forall s pos m,
    search f re s pos = Some m ->
    pos <= m_start m /\ m_start m <= m_end m /\ m_end m <= pos + length s.
Proof.
  induction f as [|f IH]; simpl; intros s pos m H; [discriminate|].
  destruct (run re s pos [] accept) as [[e c]|] eqn:R.
  - injection H as <-. simpl. apply run_inv, reaches_accept in R. lia.
  - destruct (step s) as [[r w]|] eqn:E; [|discriminate].
    apply IH in H. apply step_width in E. rewrite length_skipn in H. lia.
Qed.

(** The match [doExecute] finds from [pos] is the match it finds in the
    rest of the text, moved by [pos]. *)
Lemma doExecute_shift re src p :
  p <= length src ->
  doExecute re src p = option_map (shiftM p) (doExecute re (skipn p src) 0).
Proof.
  intro Hp. unfold doExecute. simpl skipn.
  rewrite <- (Nat.add_0_r p) at 3. rewrite search_shift.
  f_equal. apply search_fuel; rewrite length_skipn; lia.
Qed.

Lemma doExecute_bounds re src p m :
  p <= length src -> doExecute re src p = Some m ->
  p <= m_start m /\ m_start m <= m_end m /\ m_end m <= length src.
Proof.
  intros Hp H. apply search_bounds in H. rewrite length_skipn in H. lia.
Qed.

(** ** Patterns that begin with an ASCII character

    The search moves on rune by rune, yet a pattern that begins with an
    ASCII character can only match where that byte stands, and no byte of a
    longer rune is an ASCII byte: the search may as well move byte by
    byte. *)

Definition contCheck (b : byte) : bool :=
  implb ((0x80 <=? b2n b)%N && (b2n b <=? 0xBF)%N)
        match utf8.first (b2n b) with utf8.XX => true | _ => false end.

Lemma contCheck_ok (b : byte) : contCheck b = true.
Proof. apply forall_bytes. vm_compute. reflexivity. Qed.

Lemma step_contb (b : byte) (t : gostring) :
  contb b -> step (b :: t) = Some (utf8.RuneError, 1).
Proof.
  intros [L U]. unfold step.
  destruct (N.ltb_spec (b2n b) 0x80) as [L'|_]; [lia|].
  unfold utf8.DecodeRuneInString.
  pose proof (contCheck_ok b) as C. unfold contCheck in C.
  apply N.leb_le in L, U. rewrite L, U in C. simpl in C.
  destruct (utf8.first (b2n b)); try discriminate. reflexivity.
Qed.

Section Headed.

Variable c0 : ascii.
Variable x : regex.
Hypothesis c0_ascii : (b2n c0 < 0x80)%N.

Let re : regex := Cat (One (Chr c0)) x.

Lemma re_headed : headed re.
Proof. exists (Chr c0), x. reflexivity. Qed.

Lemma run_head_nil pos c k : run re [] pos c k = None.
Proof. reflexivity. Qed.

Lemma run_head_other b t pos c k : b <> c0 -> run re (b :: t) pos c k = None.
Proof.
  intro Hne. unfold re. cbn [run].
  destruct (step_cons b t) as (r & w & E & _ & Hlo & Hhi). rewrite E.
  cbn [atomMatches].
  destruct (N.eqb_spec r (b2n c0)) as [Heq|]; [|reflexivity].
  exfalso. destruct (N.lt_ge_cases (b2n b) 0x80) as [L|L].
  - destruct (Hlo L) as [-> _]. apply Hne, b2n_inj, Heq.
  - destruct (Hhi L) as [Hr _]. lia.
Qed.

Lemma run_head_same t pos c k :
  run re (c0 :: t) pos c k = run x t (pos + 1) c k.
Proof.
  unfold re. cbn [run]. rewrite (step_ascii _ t c0_ascii). cbn [atomMatches].
  rewrite N.eqb_refl. reflexivity.
Qed.

Lemma search_skip_conts n :
  forall t pos f,
    Forall contb (firstn n t) -> n <= length t -> length t < f ->
    search f re t pos = search (f - n) re (skipn n t) (pos + n).
Proof.
  induction n as [|n IH]; intros t pos f Hc Hn Hf.
  - simpl. rewrite Nat.sub_0_r, Nat.add_0_r. reflexivity.
  - destruct t as [|b t]; [simpl in Hn; lia|].
    simpl in Hc, Hn. inversion Hc as [|? ? Hb Hc']; subst.
    destruct f as [|f]; [lia|]. cbn [search].
    rewrite run_head_other.
    2:{ intros ->. destruct Hb. lia. }
    rewrite (step_contb _ t Hb). cbn [skipn].
    rewrite (IH t (pos + 1) f Hc'); [|lia|simpl in Hf; lia].
    f_equal. lia.
Qed.

(** The search, one byte at a time. *)
Lemma search_miss b t pos f :
  run re (b :: t) pos [] accept = None -> length t < f ->
  search (S f) re (b :: t) pos = search f re t (pos + 1).
Proof.
  intros R Hf. cbn [search]. rewrite R.
  destruct (step_cons b t) as (r & w & E & W & Hlo & Hhi). rewrite E.
  destruct (N.lt_ge_cases (b2n b) 0x80) as [L|L].
  - destruct (Hlo L) as [_ ->]. reflexivity.
  - destruct (Hhi L) as [_ Hc]. simpl in W.
    rewrite (search_skip_conts (w - 1) t (pos + 1) f Hc); [|lia|lia].
    destruct w as [|w]; [lia|]. cbn [skipn].
    replace (S w - 1) with w by lia.
    replace (pos + 1 + w) with (pos + S w) by lia.
    apply search_fuel; rewrite length_skipn; lia.
Qed.

Lemma find_nil : doExecute re [] 0 = None.
Proof. reflexivity. Qed.

Lemma find_hit s e c :
  run re s 0 [] accept = Some (e, c) ->
  doExecute re s 0 = Some (mkMatch 0 e c).
Proof.
  intro R. unfold doExecute. cbn [skipn]. cbn [search]. rewrite R. reflexivity.
Qed.

Lemma find_miss b t :
  run re (b :: t) 0 [] accept = None ->
  doExecute re (b :: t) 0 = option_map (shiftM 1) (doExecute re t 0).
Proof.
  intro R. unfold doExecute. cbn [skipn].
  replace (length (b :: t) - 0) with (S (length t)) by (simpl; lia).
  rewrite (search_miss _ _ _ _ R); [|lia].
  change (0 + 1) with (1 + 0). rewrite search_shift.
  f_equal. apply search_fuel; lia.
Qed.

(** A match is never empty, and it ends after the first rune of the text
    searched. *)
Lemma find_width s m :
  doExecute re s 0 = Some m ->
  m_start m < m_end m /\ snd (utf8.DecodeRuneInString s) <= m_end m.
Proof.
  unfold doExecute. cbn [skipn]. rewrite Nat.sub_0_r.
  cbn [search].
  destruct (run re s 0 [] accept) as [[e c]|] eqn:R.
  - intros [= <-]. simpl.
    destruct (run_headed _ _ _ _ _ _ re_headed R) as (r & w & E & Hr).
    apply reaches_accept in Hr. rewrite (step_decode _ _ _ E). simpl.
    apply step_width in E. lia.
  - destruct (step s) as [[r w]|] eqn:E; [|discriminate].
    intro H. rewrite (step_decode _ _ _ E). simpl.
    assert (Hst : m_start m < m_end m).
    { clear E. revert H. generalize (skipn w s), (0 + w), (length s).
      intros s' p f. revert s' p.
      induction f as [|f IH]; cbn [search]; intros s' p H; [discriminate|].
      destruct (run re s' p [] accept) as [[e c]|] eqn:R'.
      - injection H as <-. simpl.
        destruct (run_headed _ _ _ _ _ _ re_headed R') as (r' & w' & E' & Hr).
        apply reaches_accept in Hr. apply step_width in E'. lia.
      - destruct (step s') as [[r' w']|]; [|discriminate]. eauto. }
    apply search_bounds in H. lia.
Qed.

End Headed.

(** ** The loops, one match at a time *)

Definition shiftP (p : nat) (sp : nat * nat) : nat * nat :=
  (p + fst sp, p + snd sp).

(** A replacement that reads the text only through the positions of the
    match gives the same bytes when text and match move together. *)
Definition relocatable (R : gostring -> Match -> gostring) : Prop :=
  forall src p m, R src (shiftM p m) = R (skipn p src) m.

Lemma slice_shift (src : gostring) (p lo hi : nat) :
  slice src (p + lo) (p + hi) = slice (skipn p src) lo hi.
Proof.
  unfold slice. rewrite skipn_skipn.
  replace (p + hi - (p + lo)) with (hi - lo) by lia.
  replace (lo + p) with (p + lo) by lia. reflexivity.
Qed.

Lemma group_shiftc (p n : nat) (c : caps) :
  group n (shiftc p c)
  = option_map (fun q => (p + fst q, p + snd q)) (group n c).
Proof.
  induction c as [|[i [a b]] c IH]; simpl; [reflexivity|].
  destruct (i =? n); [reflexivity|exact IH].
Qed.

Lemma relocatable_func (f : gostring -> gostring) :
  relocatable (fun src m => f (slice src (m_start m) (m_end m))).
Proof. intros src p m. simpl. rewrite slice_shift. reflexivity. Qed.

Lemma relocatable_expand (template : list titem) :
  relocatable (expand template).
Proof.
  intros src p m. unfold expand.
  induction template as [|t ts IH]; cbn [flat_map]; [reflexivity|].
  rewrite IH. f_equal.
  destruct t as [txt|[|n]]; [reflexivity|apply slice_shift|].
  cbn [shiftM m_caps]. rewrite group_shiftc.
  destruct (group (S n) (m_caps m)) as [[lo hi]|]; simpl;
    [apply slice_shift|reflexivity].
Qed.

Section HeadedLoops.

Variable c0 : ascii.
Variable x : regex.
Hypothesis c0_ascii : (b2n c0 < 0x80)%N.

Let re : regex := Cat (One (Chr c0)) x.

Definition findAll (s : gostring) : list (nat * nat) :=
  FindAllStringIndex re s (-1).

Lemma allMatches_suffix (k : nat) :
  forall (src : gostring) (p i f : nat) (prev : option nat),
    length src - p <= k -> p <= length src -> i <= p ->
    length src - p < f ->
    allMatchesLoop f re src (length src + 1) p i prev
    = map (shiftP p) (findAll (skipn p src)).
Proof.
  induction k as [k IH] using lt_wf_ind.
  intros src p i f prev Hk Hp Hi Hf.
  unfold findAll, FindAllStringIndex. cbn [Z.ltb Z.compare].
  set (t := skipn p src).
  assert (Ht : length t = length src - p) by (apply length_skipn).
  destruct f as [|f]; [lia|].
  replace (length t + 2) with (S (length t + 1)) by lia.
  cbn [allMatchesLoop].
  replace (i <? length src + 1) with true by (symmetry; apply Nat.ltb_lt; lia).
  replace (p <=? length src) with true by (symmetry; apply Nat.leb_le; lia).
  replace (0 <? length t + 1) with true by (symmetry; apply Nat.ltb_lt; lia).
  cbn [andb Nat.leb].
  rewrite (doExecute_shift re src p Hp). fold t.
  destruct (doExecute re t 0) as [m|] eqn:D; [|reflexivity].
  cbn [option_map].
  destruct (find_width c0 x c0_ascii t m D) as [Hne _].
  pose proof (doExecute_bounds re t 0 m (Nat.le_0_l _) D) as B.
  cbn [shiftM m_end m_start].
  replace (p + m_end m =? p) with false by (symmetry; apply Nat.eqb_neq; lia).
  replace (m_end m =? 0) with false by (symmetry; apply Nat.eqb_neq; lia).
  cbn [andb negb map]. unfold shiftP at 1. cbn [fst snd]. f_equal.
  rewrite (IH (length src - (p + m_end m))); try lia.
  rewrite (IH (length t - m_end m)); try lia.
  rewrite map_map. unfold t. rewrite skipn_skipn.
  replace (m_end m + p) with (p + m_end m) by lia.
  apply map_ext. intros [a b]. unfold shiftP. simpl. f_equal; lia.
Qed.

(** [FindAllStringIndex], one match at a time. *)
Lemma findAll_unfold (s : gostring) :
  findAll s =
  match doExecute re s 0 with
  | None => []
  | Some m =>
    (m_start m, m_end m) :: map (shiftP (m_end m)) (findAll (skipn (m_end m) s))
  end.
Proof.
  unfold findAll at 1. unfold FindAllStringIndex. cbn [Z.ltb Z.compare].
  replace (length s + 2) with (S (length s + 1)) by lia.
  cbn [allMatchesLoop].
  replace (0 <? length s + 1) with true by (symmetry; apply Nat.ltb_lt; lia).
  cbn [andb Nat.leb].
  destruct (doExecute re s 0) as [m|] eqn:D; [|reflexivity].
  destruct (find_width c0 x c0_ascii s m D) as [Hne _].
  pose proof (doExecute_bounds re s 0 m (Nat.le_0_l _) D) as B.
  replace (m_end m =? 0) with false by (symmetry; apply Nat.eqb_neq; lia).
  cbn [andb negb]. f_equal.
  apply (allMatches_suffix (length s - m_end m)); lia.
Qed.

Lemma findAll_nil : findAll [] = [].
Proof. reflexivity. Qed.

Lemma findAll_hit (s : gostring) (e : nat) (c : caps) :
  run re s 0 [] accept = Some (e, c) ->
  findAll s = (0, e) :: map (shiftP e) (findAll (skipn e s)).
Proof.
  intro R. rewrite findAll_unfold.
  pose proof (find_hit c0 x s e c R) as H. fold re in H. rewrite H.
  reflexivity.
Qed.

Lemma findAll_miss (b : byte) (t : gostring) :
  run re (b :: t) 0 [] accept = None ->
  findAll (b :: t) = map (shiftP 1) (findAll t).
Proof.
  intro R. rewrite findAll_unfold, (findAll_unfold t).
  pose proof (find_miss c0 x c0_ascii b t R) as H. fold re in H. rewrite H.
  destruct (doExecute re t 0) as [m|]; [|reflexivity].
  cbn [option_map shiftM m_start m_end map]. unfold shiftP at 2.
  cbn [fst snd plus skipn]. f_equal.
  rewrite map_map. apply map_ext. intros [a b']. unfold shiftP. simpl.
  f_equal.
Qed.

(** The spans found lie in the text, one after the other. *)
Lemma findAll_bounds (s : gostring) :
  Forall (fun sp => fst sp < snd sp /\ snd sp <= length s) (findAll s).
Proof.
  remember (length s) as n eqn:Hn. revert s Hn.
  induction n as [n IH] using lt_wf_ind. intros s Hn.
  rewrite findAll_unfold.
  destruct (doExecute re s 0) as [m|] eqn:D; [|constructor].
  destruct (find_width c0 x c0_ascii s m D) as [Hne _].
  pose proof (doExecute_bounds re s 0 m (Nat.le_0_l _) D) as B.
  constructor; [simpl; lia|].
  apply Forall_map.
  assert (Hl : length (skipn (m_end m) s) < n) by (rewrite length_skipn; lia).
  eapply Forall_impl; [|apply (IH _ Hl _ eq_refl)].
  intros [a b]. simpl. rewrite length_skipn. lia.
Qed.

Variable R : gostring -> Match -> gostring.
Hypothesis R_reloc : relocatable R.

Definition replAll (s : gostring) : gostring := replaceAll re s (R s).

Lemma replaceAll_next (src : gostring) (p : nat) (m : Match) :
  doExecute re (skipn p src) 0 = Some m ->
  (if p + m_end m <? p + snd (utf8.DecodeRuneInString (sliceFrom src p))
   then p + snd (utf8.DecodeRuneInString (sliceFrom src p))
   else if p + m_end m <? p + 1 then p + 1 else p + m_end m) = p + m_end m.
Proof.
  intro D. destruct (find_width c0 x c0_ascii _ m D) as [Hne Hw].
  unfold sliceFrom.
  destruct (Nat.ltb_spec (p + m_end m)
                         (p + snd (utf8.DecodeRuneInString (skipn p src))));
    [lia|].
  destruct (Nat.ltb_spec (p + m_end m) (p + 1)); lia.
Qed.

Lemma replaceAll_suffix (k : nat) :
  forall (src : gostring) (p f : nat) (buf : gostring),
    length src - p <= k -> p <= length src -> length src - p < f ->
    replaceAllLoop f re src (R src) p p buf = buf ++ replAll (skipn p src).
Proof.
  induction k as [k IH] using lt_wf_ind.
  intros src p f buf Hk Hp Hf.
  unfold replAll, replaceAll.
  set (t := skipn p src).
  assert (Ht : length t = length src - p) by (apply length_skipn).
  destruct f as [|f]; [lia|].
  replace (length t + 2) with (S (length t + 1)) by lia.
  cbn [replaceAllLoop].
  replace (p <=? length src) with true by (symmetry; apply Nat.leb_le; lia).
  cbn [Nat.leb].
  rewrite (doExecute_shift re src p Hp). fold t.
  destruct (doExecute re t 0) as [m|] eqn:D; [|reflexivity].
  cbn [option_map].
  destruct (find_width c0 x c0_ascii t m D) as [Hne _].
  pose proof (doExecute_bounds re t 0 m (Nat.le_0_l _) D) as B.
  cbn [shiftM m_end m_start].
  rewrite (replaceAll_next src p m D).
  pose proof (replaceAll_next t 0 m D) as N0.
  cbn [skipn Nat.add] in N0 |- *. rewrite N0.
  replace (p <? p + m_end m) with true by (symmetry; apply Nat.ltb_lt; lia).
  replace (0 <? m_end m) with true by (symmetry; apply Nat.ltb_lt; lia).
  cbn [orb].
  rewrite (IH (length src - (p + m_end m))); try lia.
  rewrite (IH (length t - m_end m)); try lia.
  change (mkMatch (p + m_start m) (p + m_end m) (shiftc p (m_caps m)))
    with (shiftM p m).
  rewrite R_reloc. fold t.
  rewrite <- (Nat.add_0_r p) at 1. rewrite slice_shift. fold t.
  unfold t at 5. rewrite skipn_skipn.
  replace (m_end m + p) with (p + m_end m) by lia.
  unfold replAll. rewrite <- !app_assoc. reflexivity.
Qed.

(** [replaceAll], one match at a time. *)
Lemma replAll_unfold (s : gostring) :
  replAll s =
  match doExecute re s 0 with
  | None => s
  | Some m => firstn (m_start m) s ++ R s m ++ replAll (skipn (m_end m) s)
  end.
Proof.
  unfold replAll at 1. unfold replaceAll.
  replace (length s + 2) with (S (length s + 1)) by lia.
  cbn [replaceAllLoop Nat.leb].
  destruct (doExecute re s 0) as [m|] eqn:D; [|reflexivity].
  destruct (find_width c0 x c0_ascii s m D) as [Hne _].
  pose proof (doExecute_bounds re s 0 m (Nat.le_0_l _) D) as B.
  pose proof (replaceAll_next s 0 m D) as N0.
  cbn [skipn Nat.add] in N0 |- *. rewrite N0.
  replace (0 <? m_end m) with true by (symmetry; apply Nat.ltb_lt; lia).
  cbn [orb].
  rewrite (replaceAll_suffix (length s - m_end m)); try lia.
  unfold slice. rewrite Nat.sub_0_r. cbn [skipn app].
  rewrite <- app_assoc. reflexivity.
Qed.

Lemma replAll_nil : replAll [] = [].
Proof. reflexivity. Qed.

Lemma replAll_hit (s : gostring) (e : nat) (c : caps) :
  run re s 0 [] accept = Some (e, c) ->
  replAll s = R s (mkMatch 0 e c) ++ replAll (skipn e s).
Proof.
  intro E. rewrite replAll_unfold.
  pose proof (find_hit c0 x s e c E) as H. fold re in H. rewrite H.
  reflexivity.
Qed.

Lemma replAll_miss (b : byte) (t : gostring) :
  run re (b :: t) 0 [] accept = None ->
  replAll (b :: t) = b :: replAll t.
Proof.
  intro E. rewrite replAll_unfold, (replAll_unfold t).
  pose proof (find_miss c0 x c0_ascii b t E) as H. fold re in H. rewrite H.
  destruct (doExecute re t 0) as [m|]; [|reflexivity].
  cbn [option_map]. rewrite (R_reloc (b :: t) 1 m).
  reflexivity.
Qed.

End HeadedLoops.


End EngineFacts.

(* ================================================================== *)
(** * The escaping subsystem *)

Module EscapeFacts.
Import regexp regexploops EngineFacts.

Lemma replaceByte_escaper (b : byte) :
  strings.replaceByte discordMarkdownEscaper b
  = if isEscapeToken b then [backslash; b] else [b].
Proof.
  destruct b as [[] [] [] [] [] [] [] []]; reflexivity.
Qed.

Lemma Replace_app (r : strings.Replacer) (a b : gostring) :
  strings.Replace r (a ++ b) = strings.Replace r a ++ strings.Replace r b.
Proof. apply flat_map_app. Qed.

Lemma mapi_app {A B} (f : nat -> A -> B) (l1 l2 : list A) :
  forall i, mapi f i (l1 ++ l2) = mapi f i l1 ++ mapi f (i + length l1) l2.
Proof.
  induction l1 as [|a l1 IH]; intro i; simpl.
  - rewrite Nat.add_0_r. reflexivity.
  - rewrite IH. do 3 f_equal. lia.
Qed.

Lemma mapi_ext {A B} (f g : nat -> A -> B) (l : list A) :
  forall i,
    (forall j a, i <= j < i + length l -> f j a = g j a) ->
    mapi f i l = mapi g i l.
Proof.
  induction l as [|a l IH]; intros i H; simpl; [reflexivity|].
  rewrite H by (simpl; lia). f_equal. apply IH.
  intros j a' Hj. apply H. simpl. lia.
Qed.

Lemma spansFrom_weaken len from from' ms :
  from' <= from -> spansFrom len from ms -> spansFrom len from' ms.
Proof.
  intros Hle H. destruct H; constructor; auto; lia.
Qed.

Lemma spansFrom_shift len p from ms :
  spansFrom len from ms ->
  spansFrom (p + len) (p + from) (map (shiftP p) ms).
Proof.
  induction 1; simpl; constructor; unfold shiftP; simpl; auto; lia.
Qed.

Lemma inSpans_before len from ms i :
  spansFrom len from ms -> i < from -> inSpans ms i = false.
Proof.
  induction 1 as [|from st en rest H1 H2 H3 H IH]; intro Hi; simpl;
    [reflexivity|].
  replace (st <=? i) with false by (symmetry; apply Nat.leb_gt; lia).
  simpl. apply IH. lia.
Qed.

Definition link_tail : regex :=
  seq (chars "ttp" ++ [Quest (One (Chr "s"))] ++ chars "://"
         ++ [Star linkBody; One linkLast]).

Lemma link_headed : discordLinkRegex = Cat (One (Chr "h")) link_tail.
Proof. reflexivity. Qed.

Lemma h_ascii : (b2n "h" < 0x80)%N.
Proof. reflexivity. Qed.

Definition links (s : gostring) : list (nat * nat) :=
  FindAllStringIndex discordLinkRegex s (-1).

(** The spans of the links lie in the text, in order and apart. *)
Lemma links_spans (s : gostring) : spansFrom (length s) 0 (links s).
Proof.
  remember (length s) as n eqn:Hn. revert s Hn.
  induction n as [n IH] using lt_wf_ind. intros s Hn.
  unfold links. rewrite link_headed.
  change (FindAllStringIndex (Cat (One (Chr "h")) link_tail) s (-1))
    with (findAll "h" link_tail s).
  rewrite (findAll_unfold "h" link_tail h_ascii).
  destruct (doExecute _ s 0) as [m|] eqn:D; [|constructor].
  destruct (find_width "h" link_tail h_ascii s m D) as [Hne _].
  pose proof (doExecute_bounds _ s 0 m (Nat.le_0_l _) D) as B.
  constructor; try lia.
  assert (Hl : length (skipn (m_end m) s) < n) by (rewrite length_skipn; lia).
  pose proof (IH _ Hl _ eq_refl) as S.
  apply (spansFrom_shift _ (m_end m)) in S.
  rewrite length_skipn, Nat.add_0_r in S.
  replace (m_end m + (length s - m_end m)) with n in S by lia.
  exact S.
Qed.

Definition escAt (ms : list (nat * nat)) (i : nat) (b : byte) : gostring :=
  if inSpans ms i then [b]
  else if isEscapeToken b then [backslash; b] else [b].

Lemma Replace_pointwise (s : gostring) (f : nat -> byte -> gostring) :
  forall i,
    (forall j b, i <= j < i + length s ->
                 f j b = strings.replaceByte discordMarkdownEscaper b) ->
    concat (mapi f i s) = strings.Replace discordMarkdownEscaper s.
Proof.
  induction s as [|a s IH]; intros i H; simpl; [reflexivity|].
  rewrite H by (simpl; lia). f_equal. apply IH.
  intros j b Hj. apply H. simpl. lia.
Qed.

Lemma verbatim_pointwise (s : gostring) (f : nat -> byte -> gostring) :
  forall i,
    (forall j b, i <= j < i + length s -> In b s -> f j b = [b]) ->
    concat (mapi f i s) = s.
Proof.
  induction s as [|a s IH]; intros i H; simpl; [reflexivity|].
  rewrite H by (simpl; auto; lia). simpl. f_equal. apply IH.
  intros j b Hj Hin. apply H; simpl; auto; lia.
Qed.

Lemma skipn_split (s : gostring) (lo hi : nat) :
  lo <= hi -> skipn lo s = slice s lo hi ++ skipn hi s.
Proof.
  intro H. unfold slice.
  replace hi with ((hi - lo) + lo) at 2 by lia.
  rewrite <- skipn_skipn. symmetry. apply firstn_skipn.
Qed.

Lemma length_slice (s : gostring) (lo hi : nat) :
  lo <= hi -> hi <= length s -> length (slice s lo hi) = hi - lo.
Proof.
  intros H1 H2. unfold slice. rewrite length_firstn, length_skipn. lia.
Qed.

Lemma escapeLoop_spec (s : gostring) :
  forall ms buf off f,
    spansFrom (length s) off ms ->
    (forall j b, off <= j -> f j b = escAt ms j b) ->
    fst (escapeLoop s ms buf off)
        ++ strings.Replace discordMarkdownEscaper
             (sliceFrom s (snd (escapeLoop s ms buf off)))
    = buf ++ concat (mapi f off (skipn off s)).
Proof.
  induction ms as [|[st en] rest IH]; intros buf off f Hs Hf; simpl.
  - f_equal. symmetry. apply Replace_pointwise.
    intros j b Hj. rewrite Hf by lia. unfold escAt. simpl.
    symmetry. apply replaceByte_escaper.
  - inversion Hs as [|? ? ? ? H1 H2 H3 Hrest]; subst.
    rewrite (IH _ en f Hrest).
    2:{ intros j b Hj. rewrite Hf by lia. unfold escAt. simpl.
        replace (j <? en) with false by (symmetry; apply Nat.ltb_ge; lia).
        rewrite andb_false_r. reflexivity. }
    rewrite (skipn_split s off st) by lia.
    rewrite (skipn_split s st en) by lia.
    rewrite !mapi_app, !concat_app, <- !app_assoc.
    rewrite !length_slice by lia.
    f_equal. f_equal.
    + symmetry. apply Replace_pointwise. intros j b Hj.
      rewrite length_slice in Hj by lia.
      rewrite Hf by lia. unfold escAt.
      rewrite (inSpans_before (length s) st ((st, en) :: rest)); try lia.
      * symmetry. apply replaceByte_escaper.
      * constructor; auto.
    + f_equal.
      * symmetry. apply verbatim_pointwise. intros j b Hj _.
        rewrite length_slice in Hj by lia.
        rewrite Hf by lia. unfold escAt. simpl.
        replace (st <=? j) with true by (symmetry; apply Nat.leb_le; lia).
        replace (j <? en) with true by (symmetry; apply Nat.ltb_lt; lia).
        reflexivity.
      * f_equal. f_equal. lia.
Qed.

(** The loop and the two exits of [escapeDiscordMarkdown] together. *)
Lemma escapeDiscordMarkdown_loop (s : gostring) :
  escapeDiscordMarkdown s
  = fst (escapeLoop s (links s) [] 0)
        ++ strings.Replace discordMarkdownEscaper
             (sliceFrom s (snd (escapeLoop s (links s) [] 0))).
Proof.
  unfold escapeDiscordMarkdown. fold (links s).
  destruct (links s) as [|sp ms]; [reflexivity|].
  destruct (escapeLoop s (sp :: ms) [] 0). reflexivity.
Qed.

Lemma escape_pointwise (s : gostring) :
  escapeDiscordMarkdown s = escapeOutside (links s) s.
Proof.
  rewrite escapeDiscordMarkdown_loop.
  rewrite (escapeLoop_spec s (links s) [] 0 (escAt (links s))).
  - reflexivity.
  - apply links_spans.
  - reflexivity.
Qed.

End EscapeFacts.

(** C3. For every text, [escapeDiscordMarkdown] puts a backslash before
    every EscapeToken byte outside the spans the link pattern matches,
    copies the matched spans byte for byte, and keeps every other byte
    outside the spans as it is. *)
Theorem C3_escape_outside_links (s : gostring) :
  escapeDiscordMarkdown s
  = escapeOutside (FindAllStringIndex discordLinkRegex s (-1)) s.
Proof. apply EscapeFacts.escape_pointwise. Qed.

(** C10. A text without any EscapeToken byte comes back from
    [escapeDiscordMarkdown] byte for byte, with or without links in it. *)
Theorem C10_escape_identity_without_tokens (s : gostring) :
  forallb (fun b => negb (isEscapeToken b)) s = true ->
  escapeDiscordMarkdown s = s.
Proof.
  intro H. rewrite EscapeFacts.escape_pointwise. unfold escapeOutside.
  apply EscapeFacts.verbatim_pointwise. intros j b _ Hin.
  rewrite forallb_forall in H. specialize (H b Hin).
  destruct (inSpans _ j); [reflexivity|].
  destruct (isEscapeToken b); [discriminate|reflexivity].
Qed.

(* ================================================================== *)
(** * Un-escaping *)

Module UnescapeFacts.
Import regexp regexploops EngineFacts.

Definition unTail : regex := Cap 1 (One Dot).

Lemma backslash_ascii : (b2n backslash < 0x80)%N.
Proof. reflexivity. Qed.

Lemma unescape_replAll (s : gostring) :
  unescape s = replAll backslash unTail (expand [TGroup 1]) s.
Proof. reflexivity. Qed.

Lemma unescape_nil : unescape [] = [].
Proof. reflexivity. Qed.

Lemma unescape_other (b : byte) (t : gostring) :
  b <> backslash -> unescape (b :: t) = b :: unescape t.
Proof.
  intro Hne. rewrite !unescape_replAll.
  apply (replAll_miss backslash unTail backslash_ascii _
                      (relocatable_expand [TGroup 1])).
  apply run_head_other; [exact backslash_ascii|exact Hne].
Qed.

Lemma unescape_pair (t : gostring) (r : rune) (w : nat) :
  step t = Some (r, w) -> r <> 10%N ->
  unescape (backslash :: t) = firstn w t ++ unescape (skipn w t).
Proof.
  intros E Hr. rewrite !unescape_replAll.
  rewrite (replAll_hit backslash unTail backslash_ascii _
                       (relocatable_expand [TGroup 1])
                       (backslash :: t) (1 + w) [(1, (1, 1 + w))]).
  - cbn [expand flat_map m_caps group Nat.eqb]. unfold slice.
    replace (1 + w - 1) with w by lia. cbn [skipn Nat.add].
    rewrite app_nil_r. reflexivity.
  - rewrite (run_head_same backslash unTail backslash_ascii).
    unfold unTail. cbn [run]. rewrite E. cbn [atomMatches].
    apply N.eqb_neq in Hr. rewrite Hr. reflexivity.
Qed.

Lemma unescape_lone (t : gostring) :
  match step t with Some (r, _) => r = 10%N | None => True end ->
  unescape (backslash :: t) = backslash :: unescape t.
Proof.
  intro H. rewrite !unescape_replAll.
  apply (replAll_miss backslash unTail backslash_ascii _
                      (relocatable_expand [TGroup 1])).
  rewrite (run_head_same backslash unTail backslash_ascii).
  unfold unTail. cbn [run].
  destruct (step t) as [[r w]|]; [|reflexivity].
  subst r. reflexivity.
Qed.

Lemma unescape_skip_conts (n : nat) :
  forall t,
    Forall contb (firstn n t) -> n <= length t ->
    unescape t = firstn n t ++ unescape (skipn n t).
Proof.
  induction n as [|n IH]; intros t Hc Hn; [reflexivity|].
  destruct t as [|b t]; [simpl in Hn; lia|].
  simpl in Hc, Hn. inversion Hc as [|? ? Hb Hc']; subst.
  rewrite unescape_other.
  - simpl. f_equal. apply IH; [exact Hc'|lia].
  - intros ->. destruct Hb as [Hb _]. vm_compute in Hb. apply Hb. reflexivity.
Qed.

(** [discordMarkdownUnscaper.ReplaceAllString(s, "$1")], byte by byte. *)
Lemma unescape_bytes (s : gostring) : unescape s = unescapeBytes s.
Proof.
  remember (length s) as n eqn:Hn. revert s Hn.
  induction n as [n IH] using lt_wf_ind. intros s Hn.
  destruct s as [|b t]; [reflexivity|].
  cbn [unescapeBytes].
  destruct (Ascii.eqb_spec b backslash) as [->|Hne].
  2:{ rewrite unescape_other by exact Hne. f_equal.
      apply (IH (length t)); [simpl in Hn; lia|reflexivity]. }
  destruct t as [|c t'].
  { rewrite unescape_lone; [reflexivity|exact I]. }
  destruct (step_cons c t') as (r & w & E & W & Hlo & Hhi).
  destruct (Ascii.eqb_spec c newline) as [->|Hnl].
  { rewrite unescape_lone.
    - f_equal. apply (IH (length (newline :: t'))); [simpl in *; lia|].
      reflexivity.
    - rewrite E. rewrite step_ascii in E by reflexivity.
      injection E as <- _. reflexivity. }
  assert (Hr : r <> 10%N).
  { destruct (N.lt_ge_cases (b2n c) 0x80) as [L|L].
    - destruct (Hlo L) as [-> _]. intro H. apply Hnl, b2n_inj.
      rewrite H. reflexivity.
    - destruct (Hhi L) as [Hr _]. lia. }
  rewrite (unescape_pair _ r w E Hr).
  destruct w as [|w]; [lia|]. cbn [firstn skipn app]. f_equal.
  rewrite <- (IH (length t')); [|simpl in Hn; lia|reflexivity].
  destruct (N.lt_ge_cases (b2n c) 0x80) as [L|L].
  - destruct (Hlo L) as [_ Hw]. injection Hw as ->. reflexivity.
  - destruct (Hhi L) as [_ Hc]. replace (S w - 1) with w in Hc by lia.
    symmetry. apply unescape_skip_conts; [exact Hc|simpl in W; lia].
Qed.

(** Un-escaping undoes the replacer. *)
Lemma unescape_Replace (s : gostring) :
  unescape (strings.Replace discordMarkdownEscaper s) = s.
Proof.
  rewrite unescape_bytes.
  induction s as [|b s IH]; [reflexivity|].
  unfold strings.Replace in *. cbn [flat_map].
  rewrite EscapeFacts.replaceByte_escaper.
  destruct (isEscapeToken b) eqn:T.
  - change ([backslash; b] ++ flat_map (strings.replaceByte discordMarkdownEscaper) s)
      with (backslash :: b :: flat_map (strings.replaceByte discordMarkdownEscaper) s).
    cbn [unescapeBytes]. rewrite Ascii.eqb_refl.
    destruct (Ascii.eqb_spec b newline) as [->|_]; [discriminate|].
    rewrite IH. reflexivity.
  - cbn [app unescapeBytes].
    destruct (Ascii.eqb_spec b backslash) as [->|_]; [discriminate|].
    rewrite IH. reflexivity.
Qed.

(** So does un-escaping as the specification words it. *)
Lemma unescapeAny_Replace (s : gostring) :
  unescapeAny (strings.Replace discordMarkdownEscaper s) = s.
Proof.
  induction s as [|b s IH]; [reflexivity|].
  unfold strings.Replace in *. cbn [flat_map].
  rewrite EscapeFacts.replaceByte_escaper.
  destruct (isEscapeToken b) eqn:T.
  - change ([backslash; b] ++ flat_map (strings.replaceByte discordMarkdownEscaper) s)
      with (backslash :: b :: flat_map (strings.replaceByte discordMarkdownEscaper) s).
    cbn [unescapeAny]. rewrite Ascii.eqb_refl, IH. reflexivity.
  - cbn [app unescapeAny].
    destruct (Ascii.eqb_spec b backslash) as [->|_]; [discriminate|].
    rewrite IH. reflexivity.
Qed.

End UnescapeFacts.

(** C1. For every text made of EscapeToken characters only and holding no
    link, un-escaping the escaped text gives the text back: with the
    un-escaping the code does, [discordMarkdownUnscaper.ReplaceAllString],
    and with the un-escaping the specification describes, where every
    backslash followed by one character becomes that character. *)
Theorem C1_unescape_escape (s : gostring) :
  forallb isEscapeToken s = true ->
  FindAllStringIndex discordLinkRegex s (-1) = [] ->
  unescape (escapeDiscordMarkdown s) = s
  /\ unescapeAny (escapeDiscordMarkdown s) = s.
Proof.
  intros _ Hno. unfold escapeDiscordMarkdown. rewrite Hno.
  split; [apply UnescapeFacts.unescape_Replace
         |apply UnescapeFacts.unescapeAny_Replace].
Qed.

(* ================================================================== *)
(** * The monospace converter *)

Module MonospaceFacts.

Lemma HasPrefix_backtick (u : gostring) :
  HasPrefix u [backtick] = startsWithBacktick u.
Proof.
  destruct u as [|b u]; cbn [HasPrefix startsWithBacktick]; [reflexivity|].
  rewrite andb_true_r. apply Ascii.eqb_sym.
Qed.

Lemma HasSuffix_backtick (u : gostring) :
  HasSuffix u [backtick] = endsWithBacktick u.
Proof.
  unfold HasSuffix, endsWithBacktick.
  destruct u as [|a u'] using rev_ind; [reflexivity|].
  rewrite rev_app_distr, length_app. cbn [rev app length].
  replace (length u' + 1 - 1) with (length u' + 0) by lia.
  rewrite skipn_app, skipn_all2 by lia.
  replace (length u' + 0 - length u') with 0 by lia.
  replace (length u' + 1) with (S (length u')) by lia.
  cbn [Nat.leb skipn app HasPrefix andb].
  rewrite andb_true_r.
  apply Ascii.eqb_sym.
Qed.

End MonospaceFacts.

(** C7, as the code has it. The monospace converter un-escapes its content
    -- every backslash followed by a byte other than a line feed gives way
    to that byte -- and puts the result between double backticks, with a
    space on the left when the un-escaped content begins with a backtick,
    a space on the right when it ends with one, and no space otherwise. *)
Theorem C7_monospace (s : gostring) :
  MonospaceConverter s = wrapMonospace (unescapeBytes s).
Proof.
  unfold MonospaceConverter, wrapMonospace.
  rewrite MonospaceFacts.HasPrefix_backtick, MonospaceFacts.HasSuffix_backtick.
  rewrite UnescapeFacts.unescape_bytes. reflexivity.
Qed.

(** C7, as the claim words it, fails: a backslash before a line feed is
    kept, because [.] does not match a line feed. *)
Example C7_backslash_before_line_feed_kept :
  MonospaceConverter [backslash; newline]
  = str "``" ++ [backslash; newline] ++ str "``"
  /\ wrapMonospace (unescapeAny [backslash; newline])
     = str "``" ++ [newline] ++ str "``"
  /\ MonospaceConverter [backslash; newline]
     <> wrapMonospace (unescapeAny [backslash; newline]).
Proof.
  split; [vm_compute; reflexivity|].
  split; [vm_compute; reflexivity|].
  vm_compute. discriminate.
Qed.

(* ================================================================== *)
(** * The inbound entry point and the mention resolver *)

Module ResolverFacts.

Lemma streq_spec (a b : gostring) : streq a b = true <-> a = b.
Proof.
  revert b. induction a as [|x a IH]; destruct b as [|y b]; simpl;
    try (split; [discriminate|discriminate]); [tauto|].
  rewrite andb_true_iff, IH. split.
  - intros [H1 ->]. apply Ascii.eqb_eq in H1. subst. reflexivity.
  - intros [= -> ->]. split; [apply Ascii.eqb_refl|reflexivity].
Qed.

Lemma streq_nil (a : gostring) : streq a [] = match a with [] => true | _ => false end.
Proof. destruct a; reflexivity. Qed.

(** What [pillResolved] returns when the user pointer is not nil: a token or
    the display name, never a panic, provided the reference is not empty. *)
Lemma pillResolved_total bridge displayname mxid eventID u :
  mxid <> [] ->
  exists out,
    pillResolved bridge displayname mxid eventID (Some u) = Ret out /\
    (out = displayname \/ isMentionToken out).
Proof.
  intro Hne. destruct mxid as [|c mxid]; [congruence|].
  unfold pillResolved. cbn [index nth_error bind deref].
  destruct (isByte c "!").
  - destruct (GetPortalByMXID bridge (c :: mxid)) as [portal|];
      [|eauto].
    destruct (streq eventID []).
    + eexists. split; [reflexivity|]. right. left. eexists. reflexivity.
    + destruct (MessageGetByMXID bridge (Key portal) eventID) as [msg|];
        [|eauto].
      eexists. split; [reflexivity|]. right. right. right.
      do 3 eexists. reflexivity.
  - destruct (isByte c "@"); [|eauto].
    destruct (ParsePuppetMXID bridge (c :: mxid)) as [parsedID|].
    + eexists. split; [reflexivity|]. right. right. left.
      eexists. reflexivity.
    + destruct (GetUserByMXID bridge (c :: mxid)) as [mu|]; [|eauto].
      destruct (negb (streq (DiscordID mu) [])); [|eauto].
      eexists. split; [reflexivity|]. right. right. left.
      eexists. reflexivity.
Qed.

End ResolverFacts.

(** C8. A message without an HTML formatted body -- the format is not HTML,
    or the formatted body is empty -- is rendered by handing its plain body
    to [escapeDiscordMarkdown], whatever the HTML parser would do: the
    parser is not consulted. *)
Theorem C8_plain_body_is_escaped
        (Parse : gostring -> Context -> gostring)
        (portal : option Portal) (user : option User)
        (content : MessageEventContent) :
  Format content <> FormatHTML \/ FormattedBody content = [] ->
  parseMatrixHTML Parse portal user content
  = escapeDiscordMarkdown (Body content).
Proof.
  intros H. unfold parseMatrixHTML.
  destruct (streq (Format content) FormatHTML) eqn:E; [|reflexivity].
  apply ResolverFacts.streq_spec in E.
  destruct H as [H|H]; [contradiction|].
  rewrite H. reflexivity.
Qed.

(** The other branch of [parseMatrixHTML]: with an HTML format and a formatted
    body, the formatted body goes to the parser, with the user and the
    portal in the context. *)
Lemma parseMatrixHTML_html
      (Parse : gostring -> Context -> gostring)
      (portal : option Portal) (user : option User)
      (content : MessageEventContent) :
  Format content = FormatHTML -> FormattedBody content <> [] ->
  parseMatrixHTML Parse portal user content
  = Parse (FormattedBody content)
          [ (formatterContextUserKey, VUser user);
            (formatterContextPortalKey, VPortal portal) ].
Proof.
  intros HF HB. unfold parseMatrixHTML.
  rewrite (proj2 (ResolverFacts.streq_spec _ _) HF).
  destruct (FormattedBody content); [congruence|reflexivity].
Qed.

(** With the acting user in the context, where [parseMatrixHTML] puts it,
    and a directory whose aliases resolve to room ids that are not empty,
    [pillConverter] returns: its result is a mention or permalink token, or
    the display name as it was.  An empty reference gives the display name
    whatever the context holds, and so does an alias the directory does not
    resolve. *)
Lemma pill_returns_with_user
        (bridge : Bridge) (displayname mxid eventID : gostring)
        (ctx : Context) (u : User) :
  ctxGet ctx formatterContextUserKey = Some (VUser (Some u)) ->
  (forall alias roomID, ResolveAlias bridge alias = Some roomID -> roomID <> []) ->
  (exists out,
      pillConverter bridge displayname mxid eventID ctx = Ret out /\
      (out = displayname \/ isMentionToken out)) /\
  (forall ctx', pillConverter bridge displayname [] eventID ctx' = Ret displayname) /\
  (HasPrefix mxid (str "#") = true -> ResolveAlias bridge mxid = None ->
   pillConverter bridge displayname mxid eventID ctx = Ret displayname).
Proof.
  intros Hctx Hrooms. split; [|split].
  - unfold pillConverter. destruct mxid as [|c mxid]; [simpl; eauto|].
    cbn [length Nat.eqb]. rewrite Hctx. cbn [assertUser bind index nth_error deref].
    destruct (isByte c "#").
    + destruct (ResolveAlias bridge (c :: mxid)) as [roomID|] eqn:E; [|eauto].
      apply ResolverFacts.pillResolved_total. eapply Hrooms, E.
    + apply ResolverFacts.pillResolved_total. discriminate.
  - reflexivity.
  - intros Hp Hnone. unfold pillConverter.
    destruct mxid as [|c mxid]; [reflexivity|].
    cbn [length Nat.eqb]. rewrite Hctx.
    cbn [assertUser bind index nth_error deref].
    cbn [HasPrefix str list_ascii_of_string] in Hp.
    apply andb_prop in Hp. destruct Hp as [Hp _].
    unfold isByte. rewrite Ascii.eqb_sym, Hp, Hnone. reflexivity.
Qed.

(** C5. The code breaks the claim at one place.  The reference is read at
    its first byte twice: the first statement of [pillConverter] guards
    the read with a test of the length, but after an alias has been
    resolved the room id takes the place of the reference and is read with
    no such test.  With the acting user in the context and an alias the
    directory resolves to the empty room id, [pillConverter] panics with
    an index out of range, where the claim has it return the display
    text; on the same bridge the empty reference, which is guarded,
    returns the display text. *)
Theorem C5_alias_to_empty_room_id_panics :
  pillConverter
    {| ResolveAlias := fun _ => Some [];
       GetPortalByMXID := fun _ => None;
       MessageGetByMXID := fun _ _ => None;
       ParsePuppetMXID := fun _ => None;
       GetUserByMXID := fun _ => None |}
    (str "room") (str "#room:example.org") []
    [ (formatterContextUserKey,
       VUser (Some {| MXID := str "@bob:example.org"; DiscordID := [] |})) ]
  = Panic
  /\ pillConverter
       {| ResolveAlias := fun _ => Some [];
          GetPortalByMXID := fun _ => None;
          MessageGetByMXID := fun _ _ => None;
          ParsePuppetMXID := fun _ => None;
          GetUserByMXID := fun _ => None |}
       (str "room") [] []
       [ (formatterContextUserKey,
          VUser (Some {| MXID := str "@bob:example.org"; DiscordID := [] |})) ]
     = Ret (str "room").
Proof. split; reflexivity. Qed.

(** C6. A room-id reference with a message context, whose room is a known
    portal and whose event is found in the message history, resolves to the
    permalink of server id, channel id and message id; a portal without a
    server has [@me] in the place of the server id. *)
Theorem C6_permalink
        (bridge : Bridge) (displayname mxid eventID : gostring)
        (ctx : Context) (u : User) (portal : Portal) (msg : Message) :
  ctxGet ctx formatterContextUserKey = Some (VUser (Some u)) ->
  HasPrefix mxid (str "!") = true ->
  GetPortalByMXID bridge mxid = Some portal ->
  eventID <> [] ->
  MessageGetByMXID bridge (Key portal) eventID = Some msg ->
  pillConverter bridge displayname mxid eventID ctx
  = Ret (permalink match GuildID portal with
                   | [] => str "@me"
                   | _ => GuildID portal
                   end
                   (DiscordProtoChannelID msg) (MessageDiscordID msg)).
Proof.
  intros Hctx Hp Hportal Hev Hmsg. unfold pillConverter.
  destruct mxid as [|c mxid]; [discriminate|].
  cbn [length Nat.eqb]. rewrite Hctx.
  cbn [assertUser bind index nth_error deref].
  cbn [HasPrefix str list_ascii_of_string] in Hp.
  apply andb_prop in Hp. destruct Hp as [Hp _].
  apply Ascii.eqb_eq in Hp. subst c.
  change (isByte "!" "#") with false. cbn iota.
  unfold pillResolved. cbn [index nth_error bind deref].
  change (isByte "!" "!") with true. cbn iota.
  rewrite Hportal, ResolverFacts.streq_nil.
  destruct eventID as [|e eventID]; [congruence|].
  rewrite Hmsg, ResolverFacts.streq_nil.
  destruct (GuildID portal); reflexivity.
Qed.

(* ================================================================== *)
(** * The ambiguity-repair pass *)

Module FixerFacts.
Import regexp regexploops EngineFacts.

Definition fixTail : regex :=
  Cap 1 (Alt (seq (chars "__" ++ [One (Cls true [CChar "_"])]))
             (seq (chars "**" ++ [One (Cls true [CChar "*"])]))).

(** After the backslash: the delimiter [d] twice, then a rune that is not
    [d]; the width of that rune. *)
Definition delimHit (d : ascii) (t : gostring) : option nat :=
  match t with
  | a :: b :: rest =>
    if Ascii.eqb a d && Ascii.eqb b d then
      match step rest with
      | Some (r, w) => if negb (r =? b2n d)%N then Some w else None
      | None => None
      end
    else None
  | _ => None
  end.

Definition fixHit (t : gostring) : option nat :=
  match delimHit "_" t with
  | Some w => Some w
  | None => delimHit "*" t
  end.

Lemma run_delim (d : ascii) (t : gostring) (pos : nat) (c : caps) (k : cont) :
  (b2n d < 0x80)%N ->
  run (seq (chars (String d (String d EmptyString))
                  ++ [One (Cls true [CChar d])])) t pos c k
  = match delimHit d t with
    | Some w => k (skipn (2 + w) t) (pos + 2 + w) c
    | None => None
    end.
Proof.
  intro Hd. cbn [seq chars map list_ascii_of_string app run].
  unfold delimHit.
  destruct t as [|a t]; [reflexivity|].
  destruct (step_cons a t) as (r & w & E & _ & Hlo & Hhi). rewrite E.
  cbn [atomMatches].
  destruct (Ascii.eqb_spec a d) as [->|Hne].
  2:{ destruct (N.eqb_spec r (b2n d)) as [Heq|]; [|destruct t; reflexivity].
      exfalso. destruct (N.lt_ge_cases (b2n a) 0x80) as [L|L].
      - destruct (Hlo L) as [-> _]. apply Hne, b2n_inj, Heq.
      - destruct (Hhi L) as [Hr _]. lia. }
  rewrite step_ascii in E by exact Hd. injection E as <- <-.
  rewrite N.eqb_refl. cbn [skipn]. clear Hlo Hhi.
  destruct t as [|b t]; [reflexivity|].
  destruct (step_cons b t) as (r & w & E & _ & Hlo & Hhi). rewrite E.
  destruct (Ascii.eqb_spec b d) as [->|Hne].
  2:{ cbn [andb]. destruct (N.eqb_spec r (b2n d)) as [Heq|]; [|reflexivity].
      exfalso. destruct (N.lt_ge_cases (b2n b) 0x80) as [L|L].
      - destruct (Hlo L) as [-> _]. apply Hne, b2n_inj, Heq.
      - destruct (Hhi L) as [Hr _]. lia. }
  rewrite step_ascii in E by exact Hd. injection E as <- <-.
  rewrite N.eqb_refl. cbn [skipn andb].
  destruct (step t) as [[r w]|]; [|reflexivity].
  cbn [existsb citemMatches orb xorb].
  rewrite orb_false_r.
  destruct (r =? b2n d)%N; cbn [negb]; [reflexivity|].
  f_equal. lia.
Qed.

(** The pattern at the head of the text. *)
Definition headHit (s : gostring) : option nat :=
  match s with
  | b :: t => if Ascii.eqb b backslash then fixHit t else None
  | [] => None
  end.

Lemma run_fixer (s : gostring) :
  run escapeFixer s 0 [] accept
  = option_map (fun w => (3 + w, [(1, (1, 3 + w))])) (headHit s).
Proof.
  destruct s as [|b t]; [reflexivity|].
  unfold headHit.
  destruct (Ascii.eqb_spec b backslash) as [->|Hne].
  2:{ apply (run_head_other backslash fixTail (eq_refl : (b2n backslash < 0x80)%N)); exact Hne. }
  change escapeFixer with (Cat (One (Chr backslash)) fixTail).
  rewrite (run_head_same backslash fixTail).
  2:{ reflexivity. }
  unfold fixTail, fixHit. cbn [run].
  rewrite (run_delim "_") by reflexivity.
  rewrite (run_delim "*") by reflexivity.
  destruct (delimHit "_" t) as [w|]; cbn [accept option_map].
  - replace (0 + 1 + 2 + w) with (3 + w) by lia. reflexivity.
  - destruct (delimHit "*" t) as [w|]; cbn [accept option_map];
      [|reflexivity].
    replace (0 + 1 + 2 + w) with (3 + w) by lia. reflexivity.
Qed.

Definition Rfix (src : gostring) (m : Match) : gostring :=
  escapeFixerRepl (slice src (m_start m) (m_end m)).

Lemma Rfix_relocatable : relocatable Rfix.
Proof. apply (relocatable_func escapeFixerRepl). Qed.

Lemma bs_ascii : (b2n backslash < 0x80)%N.
Proof. reflexivity. Qed.

Lemma fix_replAll (s : gostring) :
  fixAmbiguousEscape s = replAll backslash fixTail Rfix s.
Proof. reflexivity. Qed.

Lemma fm_findAll (s : gostring) :
  fixerMatches s = findAll backslash fixTail s.
Proof. reflexivity. Qed.

Lemma run_fixer' (s : gostring) :
  run (Cat (One (Chr backslash)) fixTail) s 0 [] accept
  = option_map (fun w => (3 + w, [(1, (1, 3 + w))])) (headHit s).
Proof. apply run_fixer. Qed.

Lemma fix_nil : fixAmbiguousEscape [] = [].
Proof. reflexivity. Qed.

Lemma fix_miss (b : byte) (t : gostring) :
  headHit (b :: t) = None ->
  fixAmbiguousEscape (b :: t) = b :: fixAmbiguousEscape t.
Proof.
  intro H. rewrite !fix_replAll.
  apply (replAll_miss backslash fixTail bs_ascii Rfix Rfix_relocatable).
  rewrite run_fixer', H. reflexivity.
Qed.

Lemma fix_hit (s : gostring) (w : nat) :
  headHit s = Some w ->
  fixAmbiguousEscape s
  = escapeFixerRepl (firstn (3 + w) s) ++ fixAmbiguousEscape (skipn (3 + w) s).
Proof.
  intro H. rewrite !fix_replAll.
  rewrite (replAll_hit backslash fixTail bs_ascii Rfix Rfix_relocatable
                       s (3 + w) [(1, (1, 3 + w))]).
  - unfold Rfix, slice. cbn [m_start m_end skipn].
    rewrite Nat.sub_0_r. reflexivity.
  - rewrite run_fixer', H. reflexivity.
Qed.

Lemma fm_nil : fixerMatches [] = [].
Proof. reflexivity. Qed.

Lemma fm_miss (b : byte) (t : gostring) :
  headHit (b :: t) = None ->
  fixerMatches (b :: t) = map (shiftP 1) (fixerMatches t).
Proof.
  intro H. rewrite !fm_findAll.
  apply (findAll_miss backslash fixTail bs_ascii).
  rewrite run_fixer', H. reflexivity.
Qed.

Lemma fm_hit (s : gostring) (w : nat) :
  headHit s = Some w ->
  fixerMatches s
  = (0, 3 + w) :: map (shiftP (3 + w)) (fixerMatches (skipn (3 + w) s)).
Proof.
  intro H. rewrite !fm_findAll.
  apply (findAll_hit backslash fixTail bs_ascii s (3 + w) [(1, (1, 3 + w))]).
  rewrite run_fixer', H. reflexivity.
Qed.

Lemma delimHit_inv (d : ascii) (t : gostring) (w : nat) :
  delimHit d t = Some w ->
  exists rest r,
    t = d :: d :: rest /\ step rest = Some (r, w) /\ r <> b2n d.
Proof.
  unfold delimHit. destruct t as [|a [|b rest]]; try discriminate.
  destruct (Ascii.eqb_spec a d) as [->|]; [|discriminate].
  destruct (Ascii.eqb_spec b d) as [->|]; [|discriminate].
  cbn [andb]. destruct (step rest) as [[r w']|] eqn:E; [|discriminate].
  destruct (N.eqb_spec r (b2n d)); cbn [negb]; [discriminate|].
  intros [= <-]. exists rest, r. repeat split; auto.
Qed.

Lemma headHit_inv (s : gostring) (w : nat) :
  headHit s = Some w ->
  exists d rest r,
    (d = "_"%char \/ d = "*"%char) /\
    s = backslash :: d :: d :: rest /\
    step rest = Some (r, w) /\ r <> b2n d.
Proof.
  unfold headHit. destruct s as [|b t]; [discriminate|].
  destruct (Ascii.eqb_spec b backslash) as [->|]; [|discriminate].
  unfold fixHit. destruct (delimHit "_" t) as [w'|] eqn:D.
  - intros [= ->]. apply delimHit_inv in D.
    destruct D as (rest & r & -> & E & Hr). exists "_"%char, rest, r.
    repeat split; auto.
  - intro D'. apply delimHit_inv in D'.
    destruct D' as (rest & r & -> & E & Hr). exists "*"%char, rest, r.
    repeat split; auto.
Qed.

Lemma headHit_intro (d : ascii) (rest : gostring) (r : rune) (w : nat) :
  d = "_"%char \/ d = "*"%char ->
  step rest = Some (r, w) -> r <> b2n d ->
  headHit (backslash :: d :: d :: rest) = Some w.
Proof.
  intros Hd E Hr. unfold headHit, fixHit, delimHit.
  rewrite Ascii.eqb_refl, E.
  apply N.eqb_neq in Hr.
  destruct Hd as [->| ->]; cbn [Ascii.eqb Bool.eqb andb]; rewrite Hr;
    reflexivity.
Qed.

(** ** The pass, offset by offset *)

Definition offs (ms : list (nat * nat)) : list nat :=
  map (fun sp => fst sp + 2) ms.

Definition ins (p : nat -> bool) (i : nat) (s : gostring) : gostring :=
  concat (mapi (fun j b => if p j then [backslash; b] else [b]) i s).

Lemma ins_ext (p q : nat -> bool) (s : gostring) (i : nat) :
  (forall j, i <= j < i + length s -> p j = q j) -> ins p i s = ins q i s.
Proof.
  intro H. unfold ins. f_equal. apply EscapeFacts.mapi_ext.
  intros j a Hj. rewrite H by exact Hj. reflexivity.
Qed.

Lemma ins_shift (p : nat -> bool) (k : nat) (s : gostring) :
  forall i, ins p (k + i) s = ins (fun j => p (k + j)) i s.
Proof.
  unfold ins. induction s as [|a s IH]; intro i; [reflexivity|].
  cbn [mapi concat]. f_equal. rewrite <- IH. do 2 f_equal. lia.
Qed.

Lemma ins_app (p : nat -> bool) (a b : gostring) (i : nat) :
  ins p i (a ++ b) = ins p i a ++ ins p (i + length a) b.
Proof. unfold ins. rewrite EscapeFacts.mapi_app, concat_app. reflexivity. Qed.

Lemma ins_none (p : nat -> bool) (s : gostring) (i : nat) :
  (forall j, i <= j < i + length s -> p j = false) -> ins p i s = s.
Proof.
  intro H. apply EscapeFacts.verbatim_pointwise.
  intros j b Hj _. rewrite H by exact Hj. reflexivity.
Qed.

Lemma offs_shift_hit (k j : nat) (ms : list (nat * nat)) :
  existsb (Nat.eqb (k + j)) (offs (map (shiftP k) ms))
  = existsb (Nat.eqb j) (offs ms).
Proof.
  unfold offs. induction ms as [|[a b] ms IH]; [reflexivity|].
  cbn [map existsb shiftP fst snd]. rewrite IH. f_equal.
  destruct (Nat.eqb_spec (k + j) (k + a + 2)), (Nat.eqb_spec j (a + 2));
    try reflexivity; lia.
Qed.

Lemma offs_shift_low (k j : nat) (ms : list (nat * nat)) :
  j < k -> existsb (Nat.eqb j) (offs (map (shiftP k) ms)) = false.
Proof.
  intro H. unfold offs. induction ms as [|[a b] ms IH]; [reflexivity|].
  cbn [map existsb shiftP fst snd]. rewrite IH.
  destruct (Nat.eqb_spec j (k + a + 2)); [lia|reflexivity].
Qed.

Lemma insertBefore_ins (l : list nat) (s : gostring) :
  insertBefore l s = ins (fun j => existsb (Nat.eqb j) l) 0 s.
Proof. reflexivity. Qed.

(** The pass puts one backslash before the second delimiter of every span
    it matches. *)
Lemma fix_pointwise (s : gostring) :
  fixAmbiguousEscape s = insertBefore (offs (fixerMatches s)) s.
Proof.
  remember (length s) as n eqn:Hn. revert s Hn.
  induction n as [n IH] using lt_wf_ind. intros s Hn.
  destruct (headHit s) as [w|] eqn:H.
  - rewrite (fix_hit s w H), (fm_hit s w H).
    destruct (headHit_inv s w H) as (d & rest & r & Hd & -> & E & Hr).
    pose proof (step_width _ _ _ E) as W.
    cbn [Nat.add firstn skipn].
    rewrite (IH (length (skipn w rest))); [|rewrite length_skipn; simpl in Hn; lia|reflexivity].
    rewrite !insertBefore_ins.
    set (ms := fixerMatches (skipn w rest)).
    replace (backslash :: d :: d :: rest)
      with ([backslash; d; d] ++ firstn w rest ++ skipn w rest)
      by (rewrite firstn_skipn; reflexivity).
    rewrite !ins_app.
    assert (Hlow : forall j, j < 3 + w ->
              existsb (Nat.eqb j) (offs ((0, S (S (S w))) :: map (shiftP (S (S (S w)))) ms))
              = (j =? 2)).
    { intros j Hj. cbn [offs map existsb fst Nat.add].
      fold (offs (map (shiftP (S (S (S w)))) ms)).
      rewrite offs_shift_low by lia. apply orb_false_r. }
    assert (H3 : ins (fun j => existsb (Nat.eqb j)
                        (offs ((0, S (S (S w))) :: map (shiftP (S (S (S w)))) ms)))
                     0 [backslash; d; d] = [backslash; d; backslash; d]).
    { unfold ins. cbn [mapi concat app].
      rewrite !Hlow by lia. reflexivity. }
    rewrite H3. cbn [length Nat.add].
    rewrite (ins_none _ (firstn w rest)).
    2:{ intros j Hj. rewrite length_firstn in Hj. rewrite Hlow by lia.
        apply Nat.eqb_neq. lia. }
    rewrite length_firstn. replace (Nat.min w (length rest)) with w by lia.
    match goal with
    | |- context [ins ?P (S (S (S w))) ?X] =>
      pose proof (ins_shift P (S (S (S w))) X 0) as Hs
    end.
    rewrite Nat.add_0_r in Hs. rewrite Hs. clear Hs.
    unfold escapeFixerRepl, slice, sliceFrom. cbn [Nat.sub firstn skipn app].
    do 5 f_equal. apply ins_ext. intros j Hj.
    cbn [offs map existsb fst].
    fold (offs (map (shiftP (S (S (S w)))) ms)).
    rewrite offs_shift_hit.
    destruct (Nat.eqb_spec (S (S (S w)) + j) (0 + 2)); [lia|reflexivity].
  - destruct s as [|b t]; [reflexivity|].
    rewrite (fix_miss b t H), (fm_miss b t H).
    rewrite (IH (length t)); [|simpl in Hn; lia|reflexivity].
    rewrite !insertBefore_ins.
    change (b :: t) with ([b] ++ t). rewrite ins_app.
    rewrite (ins_none _ [b]).
    2:{ intros j Hj. simpl in Hj. apply offs_shift_low. lia. }
    cbn [app length]. f_equal.
    change (0 + 1) with (1 + 0). rewrite ins_shift.
    apply ins_ext. intros j Hj. symmetry. apply offs_shift_hit.
Qed.

Lemma patternAt_shift (s : gostring) (k i n : nat) :
  patternAt (skipn k s) i n <-> patternAt s (k + i) n.
Proof.
  unfold patternAt. rewrite !skipn_skipn.
  replace (i + k) with (k + i) by lia.
  replace (i + 3 + k) with (k + i + 3) by lia. tauto.
Qed.

Lemma patternAt_head (s : gostring) (n : nat) :
  patternAt s 0 n <-> exists w, headHit s = Some w /\ n = 3 + w.
Proof.
  split.
  - intros (d & r & w & Hd & Hs & E & Hr & ->). cbn [skipn Nat.add] in *.
    destruct s as [|a [|b [|c rest]]]; try discriminate.
    injection Hs as -> -> ->. cbn [skipn] in E.
    exists w. split; [|reflexivity]. eapply headHit_intro; eauto.
  - intros (w & H & ->).
    destruct (headHit_inv s w H) as (d & rest & r & Hd & -> & E & Hr).
    exists d, r, w. cbn [skipn Nat.add firstn]. auto.
Qed.

(** Every span the pass matches is an occurrence of the pattern. *)
Lemma fm_patterns (s : gostring) :
  Forall (fun sp => patternAt s (fst sp) (snd sp - fst sp)) (fixerMatches s).
Proof.
  remember (length s) as n eqn:Hn. revert s Hn.
  induction n as [n IH] using lt_wf_ind. intros s Hn.
  destruct (headHit s) as [w|] eqn:H.
  - rewrite (fm_hit s w H). constructor.
    + cbn [fst snd]. rewrite Nat.sub_0_r. apply patternAt_head. eauto.
    + destruct (headHit_inv s w H) as (d & rest & r & Hd & Hs & E & Hr).
      apply Forall_map.
      eapply Forall_impl;
        [|apply (IH (length (skipn (3 + w) s))); [|reflexivity]].
      * intros [a b] Hp. cbn [shiftP fst snd] in *.
        apply patternAt_shift in Hp.
        replace (3 + w + b - (3 + w + a)) with (b - a) by lia. exact Hp.
      * subst s. rewrite length_skipn. simpl in Hn |- *. lia.
  - destruct s as [|b t]; [constructor|].
    rewrite (fm_miss b t H). apply Forall_map.
    eapply Forall_impl; [|apply (IH (length t)); [simpl in Hn; lia|reflexivity]].
    intros [a c] Hp. cbn [shiftP fst snd] in *.
    apply (patternAt_shift (b :: t) 1) in Hp.
    replace (1 + c - (1 + a)) with (c - a) by lia. exact Hp.
Qed.

Lemma inSpans_shift (k j : nat) (ms : list (nat * nat)) :
  inSpans (map (shiftP k) ms) (k + j) = inSpans ms j.
Proof.
  unfold inSpans. induction ms as [|[a b] ms IH]; [reflexivity|].
  cbn [map existsb shiftP fst snd]. rewrite IH. f_equal.
  assert (E1 : (k + a <=? k + j) = (a <=? j))
    by (destruct (Nat.leb_spec (k + a) (k + j)), (Nat.leb_spec a j);
        reflexivity || lia).
  assert (E2 : (k + j <? k + b) = (j <? b))
    by (destruct (Nat.ltb_spec (k + j) (k + b)), (Nat.ltb_spec j b);
        reflexivity || lia).
  rewrite E1, E2. reflexivity.
Qed.

(** Every occurrence of the pattern begins inside a span the pass matches:
    it is matched itself, or a match to its left has taken its backslash. *)
Lemma fm_complete (s : gostring) :
  forall i n, patternAt s i n -> inSpans (fixerMatches s) i = true.
Proof.
  remember (length s) as len eqn:Hn. revert s Hn.
  induction len as [len IH] using lt_wf_ind. intros s Hn i n Hp.
  destruct (headHit s) as [w|] eqn:H.
  - rewrite (fm_hit s w H).
    destruct (headHit_inv s w H) as (d & rest & r & Hd & Hs & E & Hr).
    destruct (Nat.lt_ge_cases i (3 + w)) as [L|L].
    + unfold inSpans. cbn [existsb fst snd].
      replace (i <? 3 + w) with true by (symmetry; apply Nat.ltb_lt; lia).
      reflexivity.
    + replace i with ((3 + w) + (i - (3 + w))) in Hp |- * by lia.
      apply patternAt_shift in Hp.
      unfold inSpans. cbn [existsb]. fold (inSpans (map (shiftP (3 + w))
        (fixerMatches (skipn (3 + w) s))) (3 + w + (i - (3 + w)))).
      rewrite inSpans_shift.
      rewrite (IH (length (skipn (3 + w) s))) with (n := n);
        [apply orb_true_r| |reflexivity|exact Hp].
      subst s. rewrite length_skipn. simpl in Hn |- *. lia.
  - destruct s as [|b t].
    { destruct Hp as (d & r & w & _ & Hs & _). rewrite skipn_nil in Hs.
      discriminate. }
    rewrite (fm_miss b t H).
    destruct i as [|i].
    + apply patternAt_head in Hp. destruct Hp as (w & Hw & _). congruence.
    + apply (patternAt_shift (b :: t) 1 i n) in Hp. cbn [skipn] in Hp.
      change (S i) with (1 + i). rewrite inSpans_shift.
      apply (IH (length t)) with (n := n); [simpl in Hn; lia|reflexivity|exact Hp].
Qed.

(** ** Running the pass on its own output *)

Definition contbb (b : byte) : bool :=
  ((0x80 <=? b2n b) && (b2n b <=? 0xBF))%N.

Fixpoint takeConts (u : gostring) : gostring :=
  match u with
  | b :: u' => if contbb b then b :: takeConts u' else []
  | [] => []
  end.

(** The decoder reads continuation bytes only: what follows the first byte
    that is none does not matter. *)
Lemma DecodeRune_takeConts (c : byte) (u : gostring) :
  utf8.DecodeRuneInString (c :: u)
  = utf8.DecodeRuneInString (c :: takeConts u).
Proof.
  unfold utf8.DecodeRuneInString.
  pose proof (firstCheck_ok c) as F. unfold firstCheck in F.
  destruct (utf8.first (b2n c)) as [| |sz lo hi]; try reflexivity.
  apply andb_prop in F. destruct F as [F Fsz].
  apply andb_prop in F. destruct F as [_ F].
  apply andb_prop in F. destruct F as [Hlo Hhi].
  apply N.leb_le in Hlo, Hhi.
  assert (Hsz : sz = 2 \/ sz = 3 \/ sz = 4)
    by (destruct sz as [|[|[|[|[|?]]]]]; try discriminate; lia).
  clear Fsz.
  assert (Hout : forall b, contbb b = false ->
                           ((b2n b <? lo) || (hi <? b2n b))%N = true).
  { intros b Hb. unfold contbb in Hb.
    destruct (N.ltb_spec (b2n b) lo); [reflexivity|].
    destruct (N.ltb_spec hi (b2n b)); [reflexivity|].
    apply andb_false_iff in Hb. destruct Hb as [Hb|Hb];
      [apply N.leb_gt in Hb|apply N.leb_gt in Hb]; lia. }
  assert (Hout' : forall b, contbb b = false ->
                  ((b2n b <? utf8.locb) || (utf8.hicb <? b2n b))%N = true).
  { intros b Hb. unfold contbb in Hb. unfold utf8.locb, utf8.hicb.
    destruct (N.ltb_spec (b2n b) 0x80); [reflexivity|].
    destruct (N.ltb_spec 0xBF (b2n b)); [reflexivity|].
    apply andb_false_iff in Hb. destruct Hb as [Hb|Hb];
      [apply N.leb_gt in Hb|apply N.leb_gt in Hb]; lia. }
  assert (Hsz' : sz = 2 \/ sz = 3 \/ sz = 4) by exact Hsz.
  destruct u as [|b1 u1]; [reflexivity|]. cbn [takeConts].
  destruct (contbb b1) eqn:C1.
  2:{ rewrite (Hout b1 C1).
      destruct Hsz as [->|[->| ->]]; cbn [length Nat.ltb Nat.leb];
        repeat match goal with
               | |- context [if ?X then _ else _] => destruct X
               end; reflexivity. }
  destruct Hsz as [->|Hsz].
  { cbn [length Nat.ltb Nat.leb]. reflexivity. }
  destruct u1 as [|b2 u2].
  { destruct Hsz as [->| ->]; cbn [length Nat.ltb Nat.leb takeConts];
      reflexivity. }
  cbn [takeConts]. destruct (contbb b2) eqn:C2.
  2:{ rewrite (Hout' b2 C2).
      destruct Hsz as [->| ->]; cbn [length Nat.ltb Nat.leb];
        repeat match goal with
               | |- context [if ?X then _ else _] => destruct X
               end; reflexivity. }
  destruct Hsz as [->| ->].
  { cbn [length Nat.ltb Nat.leb]. reflexivity. }
  destruct u2 as [|b3 u3].
  { cbn [length Nat.ltb Nat.leb takeConts]. reflexivity. }
  cbn [takeConts]. destruct (contbb b3) eqn:C3.
  2:{ rewrite (Hout' b3 C3). cbn [length Nat.ltb Nat.leb].
      repeat match goal with
             | |- context [if ?X then _ else _] => destruct X
             end; reflexivity. }
  cbn [length Nat.ltb Nat.leb]. reflexivity.
Qed.

Lemma step_takeConts (c : byte) (u : gostring) :
  step (c :: u) = step (c :: takeConts u).
Proof.
  unfold step. destruct (b2n c <? 0x80)%N; [reflexivity|].
  f_equal. apply DecodeRune_takeConts.
Qed.

(** How the output of the pass begins. *)
Lemma fix_head (t : gostring) :
  (exists w u, headHit t = Some w /\ exists t', t = backslash :: t' /\
               fixAmbiguousEscape t = backslash :: u) \/
  (t = [] /\ fixAmbiguousEscape t = []) \/
  (headHit t = None /\ exists c t', t = c :: t' /\
                       fixAmbiguousEscape t = c :: fixAmbiguousEscape t').
Proof.
  destruct (headHit t) as [w|] eqn:H.
  - left. destruct (headHit_inv t w H) as (d & rest & r & Hd & -> & E & Hr).
    rewrite (fix_hit _ w H). cbn [Nat.add firstn skipn].
    unfold escapeFixerRepl, slice, sliceFrom. cbn [Nat.sub firstn skipn app].
    eauto 8.
  - right. destruct t as [|c t']; [left; auto|].
    right. split; [reflexivity|]. exists c, t'. split; [reflexivity|].
    apply fix_miss, H.
Qed.

Lemma takeConts_fix (t : gostring) :
  takeConts (fixAmbiguousEscape t) = takeConts t.
Proof.
  induction t as [|c t IH].
  - reflexivity.
  - destruct (fix_head (c :: t)) as
        [(w & u & _ & t' & Ht & ->)|[[Ht _]|(_ & c' & t' & Ht & ->)]].
    + injection Ht as -> _. reflexivity.
    + discriminate.
    + injection Ht as <- <-. cbn [takeConts]. rewrite IH. reflexivity.
Qed.

(** The output of the pass begins with the rune its input begins with. *)
Lemma step_fix_rune (t : gostring) (r : rune) (w : nat) :
  step (fixAmbiguousEscape t) = Some (r, w) ->
  exists w', step t = Some (r, w').
Proof.
  destruct (fix_head t) as
      [(w0 & u & _ & t' & -> & ->)|[[-> ->]|(_ & c & t' & -> & ->)]].
  - rewrite !step_ascii by reflexivity. intros [= <- <-]. eauto.
  - discriminate.
  - rewrite step_takeConts, takeConts_fix, <- step_takeConts. eauto.
Qed.

Lemma delim_not_backslash (d : ascii) :
  d = "_"%char \/ d = "*"%char -> d <> backslash.
Proof. intros [->| ->]; discriminate. Qed.

(** No occurrence appears at a place where the input had none. *)
Lemma headHit_fix_tail (b : byte) (t : gostring) :
  headHit (b :: t) = None -> headHit (b :: fixAmbiguousEscape t) = None.
Proof.
  intro Hnone.
  destruct (headHit (b :: fixAmbiguousEscape t)) as [w|] eqn:H;
    [|reflexivity].
  exfalso.
  destruct (headHit_inv _ w H) as (d & rest & r & Hd & Hs & E & Hr).
  injection Hs as -> Hfix.
  pose proof (delim_not_backslash d Hd) as Hdb.
  destruct (fix_head t) as
      [(w0 & u & _ & t' & _ & Hu)|[[_ Hu]|(_ & c & t1 & -> & Hu)]];
    rewrite Hu in Hfix; try discriminate.
  { injection Hfix as Hd' _. congruence. }
  injection Hfix as -> Hfix.
  destruct (fix_head t1) as
      [(w1 & u & _ & t' & _ & Hu1)|[[_ Hu1]|(_ & c & t2 & -> & Hu1)]];
    rewrite Hu1 in Hfix; try discriminate.
  { injection Hfix as Hd' _. congruence. }
  injection Hfix as -> Hfix. subst rest.
  destruct (step_fix_rune t2 r w E) as (w' & E').
  rewrite (headHit_intro d t2 r w' Hd E' Hr) in Hnone. discriminate.
Qed.

Lemma fm_skip_plain (x F : gostring) :
  Forall (fun b => b <> backslash) x ->
  fixerMatches (x ++ F) = map (shiftP (length x)) (fixerMatches F).
Proof.
  induction 1 as [|b x Hb Hx IH]; cbn [app length].
  - rewrite <- (map_id (fixerMatches F)) at 1.
    apply map_ext. intros [a c]. reflexivity.
  - rewrite fm_miss.
    + rewrite IH, map_map. apply map_ext. intros [a c]. reflexivity.
    + unfold headHit. apply Ascii.eqb_neq in Hb. rewrite Hb. reflexivity.
Qed.

Lemma fm_nil_fixpoint (u : gostring) :
  fixerMatches u = [] -> fixAmbiguousEscape u = u.
Proof.
  rewrite fm_findAll, fix_replAll.
  rewrite (findAll_unfold backslash fixTail bs_ascii).
  rewrite (replAll_unfold backslash fixTail bs_ascii Rfix Rfix_relocatable).
  destruct (doExecute _ u 0); [discriminate|reflexivity].
Qed.

(** The output of the pass begins as its input does. *)
Lemma step_fix (t : gostring) : step (fixAmbiguousEscape t) = step t.
Proof.
  destruct (fix_head t) as
      [(w0 & u & _ & t' & -> & ->)|[[-> ->]|(_ & c & t' & -> & ->)]].
  - rewrite !step_ascii by reflexivity. reflexivity.
  - reflexivity.
  - rewrite step_takeConts, takeConts_fix, <- step_takeConts. reflexivity.
Qed.

(** No occurrence of the pattern begins at the last byte of a span the
    pass matches: no two occurrences share a backslash. *)
Definition apart (s : gostring) : Prop :=
  Forall (fun sp => forall n, ~ patternAt s (snd sp - 1) n) (fixerMatches s).

Lemma span_long (s : gostring) (sp : nat * nat) :
  In sp (fixerMatches s) -> 3 <= snd sp.
Proof.
  intro Hin. pose proof (fm_patterns s) as P.
  rewrite Forall_forall in P. specialize (P sp Hin).
  destruct P as (d & r & w & _ & _ & _ & _ & Hn). lia.
Qed.

Lemma apart_skip (s : gostring) (k : nat) :
  Forall (fun sp => forall n, ~ patternAt s (snd sp - 1) n)
         (map (shiftP k) (fixerMatches (skipn k s))) ->
  apart (skipn k s).
Proof.
  unfold apart. rewrite !Forall_forall. intros H sp Hin n P.
  pose proof (span_long _ _ Hin) as L.
  apply (H (shiftP k sp) (in_map _ _ _ Hin) n).
  destruct sp as [a b]. cbn [shiftP fst snd] in *.
  apply (proj1 (patternAt_shift _ _ _ _)) in P.
  replace (k + b - 1) with (k + (b - 1)) by lia. exact P.
Qed.

Lemma Forall_firstn_at {A} (Q : A -> Prop) (n : nat) :
  forall (l : list A) i b,
    Forall Q (firstn n l) -> i < n -> nth_error l i = Some b -> Q b.
Proof.
  induction n as [|n IH]; intros l i b F Hi Hb; [lia|].
  destruct l as [|x l]; [destruct i; discriminate|].
  cbn [firstn] in F. apply Forall_cons_iff in F. destruct F as [Fx F].
  destruct i as [|i].
  - injection Hb as <-. exact Fx.
  - apply (IH l i b F); [lia|exact Hb].
Qed.

(** The rune at the front of a text ends in a backslash only when it is
    the backslash. *)
Lemma rune_ends_in_backslash (rest : gostring) (r : rune) (w : nat) :
  step rest = Some (r, w) -> nth_error rest (w - 1) = Some backslash ->
  exists rest', rest = backslash :: rest' /\ w = 1.
Proof.
  intros E Hb. destruct rest as [|c0 rest']; [discriminate|].
  destruct (step_cons c0 rest') as (r' & w' & E' & W & Hlo & Hhi).
  rewrite E in E'. injection E' as <- <-.
  destruct (N.lt_ge_cases (b2n c0) 0x80) as [L|L].
  - destruct (Hlo L) as [_ ->]. cbn [Nat.sub nth_error] in Hb.
    injection Hb as ->. eauto.
  - exfalso. destruct (Hhi L) as [_ Hc].
    destruct w as [|[|w]]; [lia| |].
    + cbn [Nat.sub nth_error] in Hb. injection Hb as ->.
      vm_compute in L. apply L. reflexivity.
    + replace (S (S w) - 1) with (S w) in * by lia. cbn [nth_error] in Hb.
      assert (Hw : w < S w) by lia.
      destruct (Forall_firstn_at _ _ _ _ _ Hc Hw Hb) as [Hb' _].
      vm_compute in Hb'. apply Hb'. reflexivity.
Qed.

Lemma clean_rewritten (d : ascii) (rest : gostring) (r : rune) (w : nat) :
  d = "_"%char \/ d = "*"%char ->
  step rest = Some (r, w) -> r <> b2n d ->
  headHit (skipn (w - 1) rest) = None ->
  fixerMatches (fixAmbiguousEscape (skipn w rest)) = [] ->
  fixerMatches (backslash :: d :: backslash :: d
                  :: firstn w rest ++ fixAmbiguousEscape (skipn w rest)) = [].
Proof.
  intros Hd E Hr Hlast HF.
  pose proof (delim_not_backslash d Hd) as Hdb.
  destruct rest as [|c0 rest']; [discriminate|].
  destruct (step_cons c0 rest') as (r' & w' & E' & W & Hlo & Hhi).
  rewrite E in E'. injection E' as <- <-.
  assert (Hc0d : c0 <> d).
  { intros ->. rewrite step_ascii in E by (destruct Hd as [->| ->]; reflexivity).
    injection E as <- _. congruence. }
  assert (Htail : fixerMatches
                    (firstn w (c0 :: rest')
                       ++ fixAmbiguousEscape (skipn w (c0 :: rest'))) = []).
  { destruct (Ascii.eqb_spec c0 backslash) as [Hc0|Hc0].
    - subst c0. rewrite step_ascii in E by reflexivity.
      injection E as _ Hw. subst w.
      cbn [Nat.sub skipn firstn app] in *.
      rewrite fm_miss by (apply headHit_fix_tail, Hlast).
      rewrite HF. reflexivity.
    - assert (Hplain : Forall (fun b => b <> backslash) (firstn w (c0 :: rest'))).
      { destruct (N.lt_ge_cases (b2n c0) 0x80) as [L|L].
        - destruct (Hlo L) as [_ ->]. cbn [firstn]. constructor; [|constructor].
          exact Hc0.
        - destruct (Hhi L) as [_ Hc]. destruct w as [|w]; [lia|].
          cbn [firstn]. replace (S w - 1) with w in Hc by lia. constructor.
          + exact Hc0.
          + eapply Forall_impl; [|exact Hc].
            intros b [Hb _] ->. vm_compute in Hb. apply Hb. reflexivity. }
      rewrite (fm_skip_plain _ _ Hplain), HF. reflexivity. }
  rewrite fm_miss.
  2:{ unfold headHit, fixHit, delimHit. rewrite Ascii.eqb_refl.
      cbn [Ascii.eqb Bool.eqb backslash andb].
      rewrite !andb_false_r. reflexivity. }
  rewrite fm_miss.
  2:{ unfold headHit. apply Ascii.eqb_neq in Hdb. rewrite Hdb. reflexivity. }
  rewrite fm_miss.
  2:{ unfold headHit, fixHit, delimHit. rewrite Ascii.eqb_refl.
      destruct w as [|w]; [lia|]. cbn [firstn app].
      apply Ascii.eqb_neq in Hc0d.
      destruct Hd as [->| ->]; cbn [Ascii.eqb Bool.eqb andb];
        rewrite Hc0d; rewrite ?andb_false_r; reflexivity. }
  rewrite fm_miss.
  2:{ unfold headHit. apply Ascii.eqb_neq in Hdb. rewrite Hdb. reflexivity. }
  rewrite Htail. reflexivity.
Qed.

(** Where no two occurrences share a backslash, the output of the pass
    holds no occurrence. *)
Lemma fix_output_clean (s : gostring) :
  apart s -> fixerMatches (fixAmbiguousEscape s) = [].
Proof.
  remember (length s) as n eqn:Hn. revert s Hn.
  induction n as [n IH] using lt_wf_ind. intros s Hn Hap.
  destruct (headHit s) as [w|] eqn:H.
  - destruct (headHit_inv s w H) as (d & rest & r & Hd & -> & E & Hr).
    pose proof (step_width _ _ _ E) as W.
    unfold apart in Hap. rewrite (fm_hit _ w H) in Hap.
    apply Forall_cons_iff in Hap. destruct Hap as [Hlast Hrest].
    apply (apart_skip (backslash :: d :: d :: rest) (S (S (S w)))) in Hrest.
    cbn [snd Nat.add skipn] in Hlast, Hrest.
    rewrite (fix_hit _ w H). cbn [Nat.add firstn skipn].
    unfold escapeFixerRepl, slice, sliceFrom. cbn [Nat.sub firstn skipn app].
    apply (clean_rewritten d rest r w Hd E Hr).
    + destruct (headHit (skipn (w - 1) rest)) as [w2|] eqn:H2; [|reflexivity].
      exfalso. apply (Hlast (3 + w2)).
      replace (S (S (S w)) - 1) with (3 + (w - 1) + 0) by lia.
      apply (proj1 (patternAt_shift _ _ _ _)). cbn [Nat.add skipn].
      apply patternAt_head. exists w2. split; [exact H2|reflexivity].
    + apply (IH (length (skipn w rest))); [|reflexivity|exact Hrest].
      rewrite length_skipn. simpl in Hn. lia.
  - destruct s as [|b t]; [reflexivity|].
    rewrite (fix_miss b t H).
    rewrite fm_miss by (apply headHit_fix_tail, H).
    rewrite (IH (length t)); [reflexivity|simpl in Hn; lia|reflexivity|].
    unfold apart in Hap. rewrite (fm_miss b t H) in Hap.
    apply (apart_skip (b :: t) 1) in Hap. exact Hap.
Qed.

(** An occurrence in the part after a prefix is an occurrence of the
    whole. *)
Lemma fm_suffix (p F : gostring) :
  fixerMatches F <> [] -> fixerMatches (p ++ F) <> [].
Proof.
  intros HF Hnil. destruct (fixerMatches F) as [|sp l] eqn:EF; [congruence|].
  pose proof (fm_patterns F) as P. rewrite EF in P.
  apply Forall_cons_iff in P. destruct P as [P _].
  assert (Q : patternAt (p ++ F) (length p + fst sp) (snd sp - fst sp)).
  { apply (proj1 (patternAt_shift _ _ _ _)).
    rewrite skipn_app, skipn_all, Nat.sub_diag. exact P. }
  apply fm_complete in Q. rewrite Hnil in Q. discriminate.
Qed.

(** An occurrence that begins at the last byte of a matched span is
    still there after the pass. *)
Lemma overlap_survives (s : gostring) :
  forall sp n,
    In sp (fixerMatches s) -> patternAt s (snd sp - 1) n ->
    fixerMatches (fixAmbiguousEscape s) <> [].
Proof.
  remember (length s) as m eqn:Hm. revert s Hm.
  induction m as [m IH] using lt_wf_ind. intros s Hm sp n Hin P.
  destruct (headHit s) as [w|] eqn:H.
  - destruct (headHit_inv s w H) as (d & rest & r & Hd & -> & E & Hr).
    pose proof (step_width _ _ _ E) as W.
    rewrite (fm_hit _ w H) in Hin.
    rewrite (fix_hit _ w H). cbn [Nat.add firstn skipn].
    unfold escapeFixerRepl, slice, sliceFrom. cbn [Nat.sub firstn skipn app].
    destruct Hin as [<-|Hin].
    + cbn [snd] in P.
      replace (3 + w - 1) with (3 + (w - 1) + 0) in P by lia.
      apply (proj2 (patternAt_shift _ _ _ _)) in P. cbn [Nat.add skipn] in P.
      apply patternAt_head in P. destruct P as (w2 & H2 & _).
      assert (Hb : nth_error rest (w - 1) = Some backslash).
      { destruct (skipn (w - 1) rest) as [|b0 t0] eqn:Es; [discriminate|].
        cbn [headHit] in H2.
        destruct (Ascii.eqb_spec b0 backslash) as [->|]; [|discriminate].
        rewrite <- (Nat.add_0_r (w - 1)), <- nth_error_skipn, Es. reflexivity. }
      destruct (rune_ends_in_backslash rest r w E Hb) as (rest' & -> & ->).
      cbn [Nat.sub skipn firstn app] in *.
      destruct (headHit_inv _ _ H2) as (d' & rest2 & r' & Hd' & Hs & E' & Hr').
      injection Hs as ->.
      pose proof (delim_not_backslash d' Hd') as Hdb'.
      assert (Hmiss : forall t, headHit (d' :: t) = None).
      { intro t. cbn [headHit].
        destruct (Ascii.eqb_spec d' backslash); [contradiction|reflexivity]. }
      rewrite (fix_miss d' _ (Hmiss _)), (fix_miss d' _ (Hmiss _)).
      intro Hnil.
      assert (Q : patternAt (backslash :: d :: backslash :: d :: backslash
                               :: d' :: d' :: fixAmbiguousEscape rest2)
                            4 (3 + w2)).
      { exists d', r', w2. split; [exact Hd'|]. split; [reflexivity|].
        split; [|split; [exact Hr'|reflexivity]].
        cbn [Nat.add skipn]. rewrite step_fix. exact E'. }
      apply fm_complete in Q. rewrite Hnil in Q. discriminate.
    + apply in_map_iff in Hin. destruct Hin as ([a b] & <- & Hin).
      cbn [shiftP fst snd] in P.
      pose proof (span_long _ _ Hin) as L. cbn [snd] in L.
      replace (3 + w + b - 1) with (3 + w + (b - 1)) in P by lia.
      apply (proj2 (patternAt_shift _ _ _ _)) in P.
      cbn [Nat.add skipn] in P, Hin.
      assert (Hl : length (skipn w rest) < m).
      { rewrite length_skipn, Hm. cbn [length]. lia. }
      pose proof (IH _ Hl (skipn w rest) eq_refl (a, b) n Hin P) as IHr.
      change (backslash :: d :: backslash :: d
                :: firstn w rest ++ fixAmbiguousEscape (skipn w rest))
        with ((backslash :: d :: backslash :: d :: firstn w rest)
                ++ fixAmbiguousEscape (skipn w rest)).
      apply fm_suffix, IHr.
  - destruct s as [|b t]; [rewrite fm_nil in Hin; contradiction|].
    rewrite (fm_miss b t H) in Hin.
    apply in_map_iff in Hin. destruct Hin as ([a c] & <- & Hin).
    cbn [shiftP fst snd] in P.
    pose proof (span_long _ _ Hin) as L. cbn [snd] in L.
    replace (1 + c - 1) with (1 + (c - 1)) in P by lia.
    apply (proj2 (patternAt_shift _ _ _ _)) in P. cbn [skipn] in P.
    assert (Hl : length t < m) by (rewrite Hm; cbn [length]; lia).
    pose proof (IH _ Hl t eq_refl (a, c) n Hin P) as IHr.
    rewrite (fix_miss b t H).
    apply (fm_suffix [b]), IHr.
Qed.

(** A text the pass leaves as it is holds no occurrence. *)
Lemma fix_fixpoint_nil (u : gostring) :
  fixAmbiguousEscape u = u -> fixerMatches u = [].
Proof.
  induction u as [|b t IH]; intro E; [reflexivity|].
  destruct (headHit (b :: t)) as [w|] eqn:H.
  - exfalso.
    destruct (headHit_inv _ w H) as (d & rest & r & Hd & Hs & _ & _).
    rewrite (fix_hit _ w H), Hs in E. cbn [Nat.add firstn skipn] in E.
    unfold escapeFixerRepl, slice, sliceFrom in E.
    cbn [Nat.sub firstn skipn app] in E.
    injection E as E _. symmetry in E.
    apply (delim_not_backslash d Hd E).
  - rewrite (fix_miss b t H) in E. injection E as E.
    rewrite (fm_miss b t H), (IH E). reflexivity.
Qed.

End FixerFacts.
(** C4, as the code has it. The pass puts a backslash before the second of
    the two delimiters of each span it matches, and changes nothing else;
    each span it matches is a backslash, two underscores or two asterisks,
    and one character other than that delimiter; and every such occurrence
    in the text begins inside a matched span (the spans are found from the
    left and do not overlap). *)
Theorem C4_fixer_rewrites_matches (s : gostring) :
  fixAmbiguousEscape s
  = insertBefore (map (fun sp => fst sp + 2) (fixerMatches s)) s
  /\ Forall (fun sp => patternAt s (fst sp) (snd sp - fst sp)) (fixerMatches s)
  /\ (forall i n, patternAt s i n -> inSpans (fixerMatches s) i = true).
Proof.
  split; [apply FixerFacts.fix_pointwise|].
  split; [apply FixerFacts.fm_patterns|apply FixerFacts.fm_complete].
Qed.

(** C4, as the claim words it, fails: the backslash goes between the two
    delimiters, not after the pair. *)
Example C4_backslash_goes_between_the_pair :
  fixAmbiguousEscape (str "\__a") = str "\_\_a"
  /\ insertBefore (map (fun sp => fst sp + 3) (fixerMatches (str "\__a")))
                  (str "\__a")
     = str "\__\a"
  /\ fixAmbiguousEscape (str "\__a")
     <> insertBefore (map (fun sp => fst sp + 3) (fixerMatches (str "\__a")))
                     (str "\__a").
Proof.
  split; [vm_compute; reflexivity|].
  split; [vm_compute; reflexivity|].
  vm_compute. discriminate.
Qed.

(** C9, as the claim words it, fails: where two occurrences share a
    backslash the first pass rewrites the left one only, and the second
    pass finds the right one. *)
Example C9_second_pass_rewrites_again :
  fixAmbiguousEscape (str "\__\__a") = str "\_\_\__a"
  /\ fixAmbiguousEscape (fixAmbiguousEscape (str "\__\__a")) = str "\_\_\_\_a"
  /\ fixAmbiguousEscape (fixAmbiguousEscape (str "\__\__a"))
     <> fixAmbiguousEscape (str "\__\__a").
Proof.
  split; [vm_compute; reflexivity|].
  split; [vm_compute; reflexivity|].
  vm_compute. discriminate.
Qed.

(** C9, as the code has it. The pass is idempotent on a text exactly when
    no occurrence of the pattern begins at the last byte of a span the
    pass matches, that is, when the final backslash of a match does not
    begin another occurrence: then, and only then, the output of the pass
    holds no occurrence of the pattern, and a second pass changes
    nothing. *)
Theorem C9_fixer_idempotent_without_overlap (s : gostring) :
  (Forall (fun sp => forall n, ~ patternAt s (snd sp - 1) n) (fixerMatches s)
   <-> fixAmbiguousEscape (fixAmbiguousEscape s) = fixAmbiguousEscape s)
  /\ (fixAmbiguousEscape (fixAmbiguousEscape s) = fixAmbiguousEscape s
      <-> fixerMatches (fixAmbiguousEscape s) = []).
Proof.
  split; split.
  - intro H. apply FixerFacts.fm_nil_fixpoint, FixerFacts.fix_output_clean, H.
  - intro E. apply FixerFacts.fix_fixpoint_nil in E.
    apply Forall_forall. intros sp Hin n P.
    apply (FixerFacts.overlap_survives s sp n Hin P E).
  - apply FixerFacts.fix_fixpoint_nil.
  - apply FixerFacts.fm_nil_fixpoint.
Qed.

(* ================================================================== *)
(** * The link pattern *)

(** C2, as the claim words it, fails in both directions: one character
    after the scheme is enough for a match, the last character of a match
    may be [<], and a text with U+FEFF in it, which the claim admits, is
    not matched as a whole. *)
Example C2_rule_differs_from_the_claim :
  (matchedWhole (str "http://a") /\ claimedLink (str "http://a") = false)
  /\ (matchedWhole (str "http://a<") /\ claimedLink (str "http://a<") = false)
  /\ (claimedLink (str "http://ab" ++ bom ++ str "cd") = true
      /\ ~ matchedWhole (str "http://ab" ++ bom ++ str "cd")).
Proof.
  unfold matchedWhole.
  repeat split; try (vm_compute; reflexivity).
  vm_compute. discriminate.
Qed.

Module LinkFacts.
Import regexp regexploops EngineFacts.

Lemma run_Cat (x y : regex) (s : gostring) (pos : nat) (c : caps) (k : cont) :
  run (Cat x y) s pos c k = run x s pos c (fun s' pos' c' => run y s' pos' c' k).
Proof. reflexivity. Qed.

Lemma run_one_chr (c0 : ascii) (s : gostring) (pos : nat) (c : caps) (k : cont) :
  (b2n c0 < 0x80)%N ->
  run (One (Chr c0)) s pos c k
  = match s with
    | b :: t => if Ascii.eqb b c0 then k t (pos + 1) c else None
    | [] => None
    end.
Proof.
  intro Hc. destruct s as [|b t]; [reflexivity|]. cbn [run].
  destruct (Ascii.eqb_spec b c0) as [->|Hne].
  - rewrite (step_ascii _ t Hc). cbn [atomMatches]. rewrite N.eqb_refl.
    reflexivity.
  - destruct (step_cons b t) as (r & w & E & _ & Hlo & Hhi). rewrite E.
    cbn [atomMatches].
    destruct (N.eqb_spec r (b2n c0)) as [Heq|]; [|reflexivity].
    exfalso. destruct (N.lt_ge_cases (b2n b) 0x80) as [L|L].
    + destruct (Hlo L) as [-> _]. apply Hne, b2n_inj, Heq.
    + destruct (Hhi L) as [Hr _]. lia.
Qed.

Lemma run_Quest (x : regex) (s : gostring) (pos : nat) (c : caps) (k : cont) :
  run (Quest x) s pos c k
  = match run x s pos c k with Some r => Some r | None => k s pos c end.
Proof. reflexivity. Qed.

Lemma run_Star (a : atom) (s : gostring) (pos : nat) (c : caps) (k : cont) :
  run (Star a) s pos c k = star a (length s) s pos c k.
Proof. reflexivity. Qed.

(** The continuation after the body: one last character. *)
Definition kLast : cont :=
  fun s' pos' c' => run (One linkLast) s' pos' c' accept.

(** The pattern after the scheme, [[^...]*[^...]]. *)
Definition bodyRun (t : gostring) (pos : nat) : option (nat * caps) :=
  star linkBody (length t) t pos [] kLast.

Ltac chr :=
  rewrite run_Cat, run_one_chr by reflexivity; cbv beta.

Lemma link_run_http (body : gostring) (pos : nat) :
  run discordLinkRegex (str "http://" ++ body) pos [] accept
  = bodyRun body (pos + 1 + 1 + 1 + 1 + 1 + 1 + 1).
Proof.
  unfold discordLinkRegex.
  cbn [seq chars map list_ascii_of_string app str].
  do 4 (chr; cbn [Ascii.eqb Bool.eqb]).
  rewrite run_Cat, run_Quest, run_one_chr by reflexivity.
  cbn [Ascii.eqb Bool.eqb]. cbv beta.
  do 3 (chr; cbn [Ascii.eqb Bool.eqb]).
  rewrite run_Cat, run_Star. reflexivity.
Qed.

Lemma link_run_https (body : gostring) (pos : nat) :
  run discordLinkRegex (str "https://" ++ body) pos [] accept
  = bodyRun body (pos + 1 + 1 + 1 + 1 + 1 + 1 + 1 + 1).
Proof.
  unfold discordLinkRegex.
  cbn [seq chars map list_ascii_of_string app str].
  do 4 (chr; cbn [Ascii.eqb Bool.eqb]).
  rewrite run_Cat, run_Quest, run_one_chr by reflexivity.
  cbn [Ascii.eqb Bool.eqb]. cbv beta.
  do 3 (chr; cbn [Ascii.eqb Bool.eqb]).
  rewrite run_Cat, run_Star. fold kLast. fold (bodyRun body (pos + 1 + 1 + 1 + 1 + 1 + 1 + 1 + 1)).
  destruct (bodyRun body _); [reflexivity|].
  chr. cbn [Ascii.eqb Bool.eqb]. reflexivity.
Qed.

Lemma linkBody_spec (r : rune) :
  atomMatches linkBody r
  = negb (r =? lessThan)%N && negb (Zs r) && negb (r =? zeroWidthNoBreak)%N.
Proof.
  unfold linkBody, lessThan, zeroWidthNoBreak.
  cbn [atomMatches existsb citemMatches xorb].
  destruct (r =? b2n "<")%N, (Zs r), (r =? 65279)%N; reflexivity.
Qed.

Lemma linkLast_spec (r : rune) :
  atomMatches linkLast r
  = negb (isTrailing r) && negb (Zs r) && negb (r =? zeroWidthNoBreak)%N.
Proof.
  unfold linkLast, isTrailing, trailing, zeroWidthNoBreak.
  cbn [atomMatches existsb citemMatches xorb].
  repeat match goal with
         | |- context [(r =? ?x)%N] => destruct (r =? x)%N
         end;
    destruct (Zs r); reflexivity.
Qed.

Lemma decodeAll_nil (n : nat) : decodeAll n [] = [].
Proof. destruct n; reflexivity. Qed.

Lemma decodeAll_cons (n : nat) (t : gostring) (r : rune) (w : nat) :
  step t = Some (r, w) ->
  decodeAll (S n) t = r :: decodeAll n (skipn w t).
Proof. intro E. cbn [decodeAll]. rewrite E. reflexivity. Qed.

Lemma kLast_spec (t : gostring) (pos : nat) (c : caps) :
  kLast t pos c
  = match step t with
    | Some (r, w) => if atomMatches linkLast r then Some (pos + w, c) else None
    | None => None
    end.
Proof. reflexivity. Qed.

(** Enough: all characters pass the body class, the last one passes the
    last class, and the whole text is taken. *)
Lemma star_full (n : nat) :
  forall (t : gostring) (pos : nat),
    length t <= n -> t <> [] ->
    forallb (atomMatches linkBody) (decodeAll n t) = true ->
    atomMatches linkLast (last (decodeAll n t) 0%N) = true ->
    star linkBody n t pos [] kLast = Some (pos + length t, []).
Proof.
  induction n as [|n IH]; intros t pos Hlen Hne Hall Hlast.
  - destruct t; [congruence|simpl in Hlen; lia].
  - destruct t as [|b t']; [congruence|].
    destruct (step_cons b t') as (r & w & E & W & _).
    rewrite (decodeAll_cons n _ r w E) in Hall, Hlast.
    cbn [forallb] in Hall. apply andb_prop in Hall. destruct Hall as [Hr Hall].
    cbn [star]. rewrite E, Hr.
    destruct (skipn w (b :: t')) as [|b2 t2] eqn:Hrest.
    + rewrite star_nil, kLast_spec. cbn [step].
      rewrite kLast_spec, E. rewrite decodeAll_nil in Hlast.
      cbn [last] in Hlast. rewrite Hlast.
      assert (Hw : length (skipn w (b :: t')) = 0) by (rewrite Hrest; reflexivity).
      rewrite length_skipn in Hw. do 2 f_equal. lia.
    + assert (Hl2 : length (b2 :: t2) = length (b :: t') - w)
        by (rewrite <- Hrest; apply length_skipn).
      rewrite IH.
      * do 2 f_equal. lia.
      * lia.
      * discriminate.
      * exact Hall.
      * destruct (decodeAll n (b2 :: t2)) eqn:Hd; [|exact Hlast].
        destruct n; [cbn [length] in Hlen, Hl2; lia|].
        destruct (step_cons b2 t2) as (r2 & w2 & E2 & _).
        rewrite (decodeAll_cons n _ r2 w2 E2) in Hd. discriminate.
Qed.

(** Needed: a run of the body that takes the whole text went through
    characters of the body class and ended on one of the last class. *)
Lemma star_whole (n : nat) :
  forall (t : gostring) (pos : nat) (c : caps),
    length t <= n ->
    star linkBody n t pos [] kLast = Some (pos + length t, c) ->
    decodeAll n t <> [] /\
    forallb (fun r => atomMatches linkBody r || atomMatches linkLast r)
            (decodeAll n t) = true /\
    forallb (atomMatches linkBody) (removelast (decodeAll n t)) = true /\
    atomMatches linkLast (last (decodeAll n t) 0%N) = true.
Proof.
  induction n as [|n IH]; intros t pos c Hlen H.
  - cbn [star] in H. rewrite kLast_spec in H.
    destruct t; [discriminate|simpl in Hlen; lia].
  - cbn [star] in H.
    assert (Hk : kLast t pos [] = Some (pos + length t, c) ->
                 decodeAll (S n) t <> [] /\
                 forallb (fun r => atomMatches linkBody r || atomMatches linkLast r)
                         (decodeAll (S n) t) = true /\
                 forallb (atomMatches linkBody)
                         (removelast (decodeAll (S n) t)) = true /\
                 atomMatches linkLast (last (decodeAll (S n) t) 0%N) = true).
    { rewrite kLast_spec. intro Hk.
      destruct (step t) as [[r w]|] eqn:E; [|discriminate].
      destruct (atomMatches linkLast r) eqn:Hr; [|discriminate].
      injection Hk as Hw _.
      assert (Hrest : skipn w t = []).
      { apply length_zero_iff_nil. rewrite length_skipn. lia. }
      rewrite (decodeAll_cons n _ r w E), Hrest, decodeAll_nil.
      cbn [forallb removelast last]. rewrite Hr, orb_true_r.
      repeat split; auto. discriminate. }
    destruct (step t) as [[r w]|] eqn:E; [|exact (Hk H)].
    destruct (atomMatches linkBody r) eqn:Hr; [|exact (Hk H)].
    destruct (star linkBody n (skipn w t) (pos + w) [] kLast) as [x|] eqn:S1;
      [|exact (Hk H)].
    injection H as ->. clear Hk.
    pose proof (step_width _ _ _ E) as W.
    replace (pos + length t) with (pos + w + length (skipn w t)) in S1
      by (rewrite length_skipn; lia).
    apply IH in S1; [|rewrite length_skipn; lia].
    destruct S1 as (Hne & Hall & Hinit & Hlast).
    rewrite (decodeAll_cons n _ r w E).
    destruct (decodeAll n (skipn w t)) as [|r2 l] eqn:Hd; [congruence|].
    split; [discriminate|].
    split; [cbn [forallb]; rewrite Hr; exact Hall|].
    split; [|exact Hlast].
    change (removelast (r :: r2 :: l)) with (r :: removelast (r2 :: l)).
    cbn [forallb]. rewrite Hr. exact Hinit.
Qed.

Lemma HasPrefix_split (w p : gostring) :
  HasPrefix w p = true -> w = p ++ skipn (length p) w.
Proof.
  revert w. induction p as [|c p IH]; intros w H; [reflexivity|].
  destruct w as [|d w]; [discriminate|]. cbn [HasPrefix] in H.
  apply andb_prop in H. destruct H as [Hc Hp]. apply Ascii.eqb_eq in Hc.
  subst d. cbn [app length skipn]. f_equal. apply IH, Hp.
Qed.

Lemma stripScheme_spec (w body : gostring) :
  stripScheme w = Some body ->
  w = str "https://" ++ body \/ w = str "http://" ++ body.
Proof.
  unfold stripScheme.
  destruct (HasPrefix w (str "https://")) eqn:H1.
  - intros [= <-]. left. apply (HasPrefix_split _ _ H1).
  - destruct (HasPrefix w (str "http://")) eqn:H2; [|discriminate].
    intros [= <-]. right. apply (HasPrefix_split _ _ H2).
Qed.

(** Without the scheme there is no match at the head. *)
Lemma link_run_other (w : gostring) (pos : nat) :
  stripScheme w = None -> run discordLinkRegex w pos [] accept = None.
Proof.
  unfold stripScheme. intro H. unfold discordLinkRegex.
  cbn [seq chars map list_ascii_of_string app str].
  do 4 (chr; destruct w as [|b w]; [reflexivity|];
        destruct (Ascii.eqb_spec b "h") as [->|];
        try destruct (Ascii.eqb_spec b "t") as [->|];
        try destruct (Ascii.eqb_spec b "p") as [->|];
        try reflexivity; try discriminate).
  rewrite run_Cat, run_Quest, run_one_chr by reflexivity. cbv beta.
  assert (Hrest : forall (w' : gostring) (p : nat),
             HasPrefix w' (str "://") = false ->
             run (Cat (One (Chr ":")) (Cat (One (Chr "/")) (Cat (One (Chr "/"))
                   (Cat (Star linkBody) (One linkLast))))) w' p [] accept = None).
  { intros w' p Hp. cbn [str list_ascii_of_string] in Hp.
    chr. destruct w' as [|b1 w']; [reflexivity|].
    cbn [HasPrefix] in Hp. rewrite (Ascii.eqb_sym ":" b1) in Hp.
    destruct (Ascii.eqb b1 ":"); [|reflexivity].
    chr. destruct w' as [|b2 w']; [reflexivity|].
    cbn [HasPrefix andb] in Hp. rewrite (Ascii.eqb_sym "/" b2) in Hp.
    destruct (Ascii.eqb b2 "/"); [|reflexivity].
    chr. destruct w' as [|b3 w']; [reflexivity|].
    cbn [HasPrefix andb] in Hp. rewrite (Ascii.eqb_sym "/" b3) in Hp.
    destruct (Ascii.eqb b3 "/"); [|reflexivity].
    destruct w'; discriminate. }
  change (HasPrefix ("h" :: "t" :: "t" :: "p" :: w)%char (str "https://"))
    with (HasPrefix w (str "s://")) in H.
  change (HasPrefix ("h" :: "t" :: "t" :: "p" :: w)%char (str "http://"))
    with (HasPrefix w (str "://")) in H.
  destruct (HasPrefix w (str "s://")) eqn:H1; [discriminate|].
  destruct (HasPrefix w (str "://")) eqn:H2; [discriminate|].
  rewrite (Hrest w _ H2).
  destruct w as [|b w]; [reflexivity|].
  destruct (Ascii.eqb_spec b "s") as [->|Hs]; [|reflexivity].
  rewrite Hrest; [reflexivity|exact H1].
Qed.

Lemma link_run_body (w body : gostring) :
  stripScheme w = Some body ->
  exists p, length w = p + length body /\
            run discordLinkRegex w 0 [] accept = bodyRun body p.
Proof.
  intro S. destruct (stripScheme_spec _ _ S) as [->| ->].
  - rewrite link_run_https. eexists. split; [|reflexivity].
    rewrite length_app. reflexivity.
  - rewrite link_run_http. eexists. split; [|reflexivity].
    rewrite length_app. reflexivity.
Qed.

Lemma linkSpans_findAll (s : gostring) :
  linkSpans s = findAll "h" EscapeFacts.link_tail s.
Proof. reflexivity. Qed.

Lemma run_link' (s : gostring) :
  run (Cat (One (Chr "h")) EscapeFacts.link_tail) s 0 [] accept
  = run discordLinkRegex s 0 [] accept.
Proof. reflexivity. Qed.

(** Enough for a match of the whole text. *)
Lemma wide_matches (w : gostring) : linkWide w = true -> matchedWhole w.
Proof.
  unfold linkWide, matchedWhole. intro H.
  destruct (stripScheme w) as [body|] eqn:S; [|discriminate].
  apply andb_prop in H. destruct H as [H Hlast].
  apply andb_prop in H. destruct H as [Hlen Hall].
  apply Nat.leb_le in Hlen.
  destruct (link_run_body w body S) as (p & Hp & R).
  assert (Hbody : bodyRun body p = Some (p + length body, [])).
  { apply star_full.
    - reflexivity.
    - intros ->. cbn in Hlen. lia.
    - rewrite forallb_forall in Hall |- *. intros r Hr.
      rewrite linkBody_spec. apply (Hall r Hr).
    - rewrite linkLast_spec.
      assert (Hin : In (last (runesOf body) 0%N) (runesOf body)).
      { destruct (runesOf body) as [|r0 l] eqn:Hd; [cbn in Hlen; lia|].
        rewrite <- Hd.
        destruct (exists_last (l := runesOf body)) as (l' & a & Ha);
          [rewrite Hd; discriminate|].
        rewrite Ha, last_last. apply in_or_app. right. left. reflexivity. }
      rewrite forallb_forall in Hall. specialize (Hall _ Hin).
      apply andb_prop in Hall. destruct Hall as [Hall H3].
      apply andb_prop in Hall. destruct Hall as [H1 H2].
      fold (runesOf body). rewrite Hlast, H2, H3. reflexivity. }
  rewrite linkSpans_findAll.
  rewrite (findAll_hit "h" EscapeFacts.link_tail EscapeFacts.h_ascii
                       w (length w) []).
  - rewrite skipn_all. reflexivity.
  - rewrite run_link', R, Hbody, Hp. reflexivity.
Qed.

Lemma find_at_head (re : regex) (s : gostring) (m : Match) :
  doExecute re s 0 = Some m -> m_start m = 0 ->
  run re s 0 [] accept = Some (m_end m, m_caps m).
Proof.
  unfold doExecute. rewrite Nat.sub_0_r. cbn [skipn search].
  destruct (run re s 0 [] accept) as [[e c]|].
  - intros [= <-] _. reflexivity.
  - destruct (step s) as [[r w]|] eqn:E; [|discriminate].
    intros H H0. apply search_bounds in H. apply step_width in E. lia.
Qed.

(** Needed for a match of the whole text. *)
Lemma matches_loose (w : gostring) : matchedWhole w -> linkLoose w = true.
Proof.
  unfold matchedWhole, linkLoose. rewrite linkSpans_findAll.
  rewrite (findAll_unfold "h" EscapeFacts.link_tail EscapeFacts.h_ascii).
  destruct (doExecute _ w 0) as [m|] eqn:D; [|discriminate].
  intros [= H0 He _].
  apply find_at_head in D; [|exact H0]. rewrite run_link', He in D.
  destruct (stripScheme w) as [body|] eqn:S.
  2:{ rewrite (link_run_other w 0 S) in D. discriminate. }
  destruct (link_run_body w body S) as (p & Hp & R).
  rewrite R, Hp in D. apply star_whole in D; [|reflexivity].
  fold (runesOf body) in D. destruct D as (Hne & Hall & Hinit & Hlast).
  rewrite linkLast_spec in Hlast.
  apply andb_prop in Hlast. destruct Hlast as [Hlast _].
  apply andb_prop in Hlast. destruct Hlast as [Hlast _].
  rewrite Hlast, andb_true_r.
  apply andb_true_intro. split; [apply andb_true_intro; split|].
  - destruct (runesOf body); [congruence|reflexivity].
  - rewrite forallb_forall in Hall |- *. intros r Hr.
    specialize (Hall r Hr). rewrite linkBody_spec, linkLast_spec in Hall.
    destruct (Zs r), (r =? zeroWidthNoBreak)%N; try reflexivity;
      rewrite ?andb_false_r in Hall; discriminate.
  - rewrite forallb_forall in Hinit |- *. intros r Hr.
    specialize (Hinit r Hr). rewrite linkBody_spec in Hinit.
    destruct (r =? lessThan)%N; [discriminate|reflexivity].
Qed.

(** ** The last byte of a match *)

Lemma rune_last_byte (u : gostring) (r : rune) (w : nat) (b : byte) :
  step u = Some (r, w) -> nth_error u (w - 1) = Some b ->
  (b2n b < 0x80)%N -> r = b2n b.
Proof.
  intros E Hb Hlow. destruct u as [|c u']; [discriminate|].
  destruct (step_cons c u') as (r' & w' & E' & W & Hlo & Hhi).
  rewrite E in E'. injection E' as <- <-.
  destruct (N.lt_ge_cases (b2n c) 0x80) as [L|L].
  - destruct (Hlo L) as [-> ->]. cbn in Hb. injection Hb as ->. reflexivity.
  - exfalso. destruct (Hhi L) as [_ Hc].
    destruct w as [|[|w]]; [lia| |].
    + cbn in Hb. injection Hb as ->. lia.
    + cbn [Nat.sub nth_error] in Hb, Hc.
      assert (Hin : In b (firstn (S w) u')).
      { apply (nth_error_In _ w). rewrite nth_error_firstn.
        replace (w <? S w) with true by (symmetry; apply Nat.ltb_lt; lia).
        exact Hb. }
      rewrite Forall_forall in Hc. destruct (Hc b Hin) as [Hb' _]. lia.
Qed.

Definition trailingCheck (b : byte) : bool :=
  implb (isTrailingByte b)
        ((b2n b <? 0x80)%N && negb (atomMatches linkLast (b2n b))).

Lemma trailingCheck_ok (b : byte) : trailingCheck b = true.
Proof. apply forall_bytes. vm_compute. reflexivity. Qed.

Lemma link_run_skip (w body : gostring) :
  stripScheme w = Some body ->
  exists p, skipn p w = body /\
            run discordLinkRegex w 0 [] accept = bodyRun body p.
Proof.
  intro S. destruct (stripScheme_spec _ _ S) as [->| ->].
  - rewrite link_run_https. exists 8. split; reflexivity.
  - rewrite link_run_http. exists 7. split; reflexivity.
Qed.

Lemma run_last_byte (s : gostring) (e : nat) (c : caps) (b : byte) :
  run discordLinkRegex s 0 [] accept = Some (e, c) ->
  nth_error s (e - 1) = Some b -> isTrailingByte b = false.
Proof.
  intros R Hb.
  destruct (stripScheme s) as [body|] eqn:S.
  2:{ rewrite (link_run_other s 0 S) in R. discriminate. }
  destruct (link_run_skip s body S) as (p & Hp & R').
  rewrite R' in R. apply star_inv in R.
  destruct R as (d & c' & Hd & Hk). rewrite kLast_spec in Hk.
  destruct (step (skipn d body)) as [[r w]|] eqn:E; [|discriminate].
  destruct (atomMatches linkLast r) eqn:Hr; [|discriminate].
  injection Hk as <- _.
  pose proof (step_width _ _ _ E) as W.
  assert (Hb' : nth_error (skipn d body) (w - 1) = Some b).
  { rewrite <- Hp, skipn_skipn, nth_error_skipn.
    replace (d + p + (w - 1)) with (p + d + w - 1) by lia. exact Hb. }
  destruct (isTrailingByte b) eqn:T; [|reflexivity].
  pose proof (trailingCheck_ok b) as C. unfold trailingCheck in C.
  rewrite T in C. cbn [implb] in C.
  apply andb_prop in C. destruct C as [Clow Cno].
  apply N.ltb_lt in Clow.
  rewrite (rune_last_byte _ r w b E Hb' Clow) in Hr.
  rewrite Hr in Cno. discriminate.
Qed.

(** In any text, no span taken for a link ends in a trailing character or
    a space. *)
Lemma span_last_byte (s : gostring) :
  forall st en b,
    In (st, en) (linkSpans s) -> nth_error s (en - 1) = Some b ->
    isTrailingByte b = false.
Proof.
  remember (length s) as n eqn:Hn. revert s Hn.
  induction n as [n IH] using lt_wf_ind. intros s Hn st en b Hin Hb.
  rewrite linkSpans_findAll in Hin.
  pose proof (findAll_bounds "h" EscapeFacts.link_tail EscapeFacts.h_ascii) as Bd.
  destruct (run discordLinkRegex s 0 [] accept) as [[e c]|] eqn:R.
  - rewrite <- run_link' in R.
    pose proof (find_hit "h" EscapeFacts.link_tail s e c R) as D.
    destruct (find_width "h" EscapeFacts.link_tail EscapeFacts.h_ascii s _ D)
      as [He _]. cbn [m_start m_end] in He.
    pose proof (doExecute_bounds _ s 0 _ (Nat.le_0_l _) D) as B.
    cbn [m_start m_end] in B.
    rewrite (findAll_hit "h" EscapeFacts.link_tail EscapeFacts.h_ascii s e c R)
      in Hin.
    destruct Hin as [[= <- <-]|Hin].
    + rewrite run_link' in R. apply (run_last_byte s e c b R Hb).
    + apply in_map_iff in Hin. destruct Hin as ([a b'] & Heq & Hin).
      cbn [shiftP fst snd] in Heq. injection Heq as <- <-.
      specialize (Bd (skipn e s)). rewrite Forall_forall in Bd.
      specialize (Bd _ Hin). cbn [fst snd] in Bd.
      apply (IH (length (skipn e s))) with (s := skipn e s) (st := a) (en := b').
      * rewrite length_skipn. lia.
      * reflexivity.
      * exact Hin.
      * rewrite nth_error_skipn.
        replace (e + (b' - 1)) with (e + b' - 1) by lia. exact Hb.
  - destruct s as [|b0 t]; [contradiction|].
    rewrite <- run_link' in R.
    rewrite (findAll_miss "h" EscapeFacts.link_tail EscapeFacts.h_ascii b0 t R)
      in Hin.
    apply in_map_iff in Hin. destruct Hin as ([a b'] & Heq & Hin).
    cbn [shiftP fst snd] in Heq. injection Heq as <- <-.
    specialize (Bd t). rewrite Forall_forall in Bd.
    specialize (Bd _ Hin). cbn [fst snd] in Bd.
    apply (IH (length t)) with (s := t) (st := a) (en := b').
    + simpl in Hn. lia.
    + reflexivity.
    + exact Hin.
    + rewrite <- Hb. destruct b' as [|b']; [lia|].
      cbn [Nat.add Nat.sub nth_error]. rewrite !Nat.sub_0_r. reflexivity.
Qed.

End LinkFacts.

(** C2, as the code has it. A text that begins with [http://] or
    [https://], goes on with at least two characters, holds no [<], no
    space separator and no U+FEFF, and does not end in one of the trailing
    characters, is matched as a whole.  A text matched as a whole begins
    with [http://] or [https://], holds no space separator and no U+FEFF,
    has no [<] before its last character, and does not end in a trailing
    character.  In any text, no matched span ends in a trailing character
    or a space: in [see http://example.com/a.] the span is
    [http://example.com/a], and what follows a span is escaped as the
    text around it. *)
Theorem C2_link_rule :
  (forall w, linkWide w = true -> matchedWhole w)
  /\ (forall w, matchedWhole w -> linkLoose w = true)
  /\ (forall s st en b,
         In (st, en) (linkSpans s) -> nth_error s (en - 1) = Some b ->
         isTrailingByte b = false)
  /\ linkSpans (str "see http://example.com/a.") = [(4, 24)]
  /\ escapeDiscordMarkdown (str "see http://example.com/a_b. *x*")
     = str "see http://example.com/a_b. \*x\*".
Proof.
  split; [exact LinkFacts.wide_matches|].
  split; [exact LinkFacts.matches_loose|].
  split; [exact LinkFacts.span_last_byte|].
  split; vm_compute; reflexivity.
Qed.

(* ================================================================== *)
(** * The theorems at concrete inputs *)

Lemma C1_on_all_tokens :
  forallb isEscapeToken (str "\_*~`|<") = true
  /\ regexploops.FindAllStringIndex discordLinkRegex (str "\_*~`|<") (-1) = []
  /\ unescape (escapeDiscordMarkdown (str "\_*~`|<")) = str "\_*~`|<".
Proof.
  split; [vm_compute; reflexivity|].
  split; [vm_compute; reflexivity|].
  apply (proj1 (C1_unescape_escape (str "\_*~`|<") eq_refl eq_refl)).
Defined.

Lemma C10_on_a_sentence_with_a_link :
  forallb (fun b => negb (isEscapeToken b)) (str "see http://example.com/a.") = true
  /\ escapeDiscordMarkdown (str "see http://example.com/a.")
     = str "see http://example.com/a.".
Proof.
  split; [vm_compute; reflexivity|].
  apply (C10_escape_identity_without_tokens (str "see http://example.com/a.")).
  vm_compute. reflexivity.
Defined.

Lemma C8_on_a_plain_message :
  (Format plainContent <> FormatHTML \/ FormattedBody plainContent = [])
  /\ parseMatrixHTML (fun _ _ => str "unused") None None plainContent
     = escapeDiscordMarkdown (str "a_b").
Proof.
  split; [right; reflexivity|].
  apply (C8_plain_body_is_escaped (fun _ _ => str "unused") None None
                                  plainContent).
  right. reflexivity.
Defined.

Lemma smallBridge_rooms (alias roomID : gostring) :
  ResolveAlias smallBridge alias = Some roomID -> roomID <> [].
Proof.
  cbn [ResolveAlias smallBridge].
  destruct (streq alias (str "#general:example.org")); [|discriminate].
  intros [= <-]. discriminate.
Defined.

Lemma pill_returns_on_a_user_reference :
  exists out,
    pillConverter smallBridge (str "Alice") (str "@alice:example.org") []
                  aliceContext = Ret out
    /\ (out = str "Alice" \/ isMentionToken out).
Proof.
  exact (proj1 (pill_returns_with_user smallBridge (str "Alice")
                                (str "@alice:example.org") [] aliceContext
                                alice eq_refl smallBridge_rooms)).
Defined.

Lemma C6_on_a_direct_message_channel :
  pillConverter smallBridge (str "a message") (str "!room:example.org")
                (str "$event") aliceContext
  = Ret (str "https://discord.com/channels/@me/42/777").
Proof.
  apply (C6_permalink smallBridge (str "a message") (str "!room:example.org")
                      (str "$event") aliceContext alice
                      {| Key := {| ChannelID := str "42"; Receiver := [] |};
                         GuildID := [] |}
                      {| MessageDiscordID := str "777";
                         DiscordProtoChannelID := str "42" |}).
  - reflexivity.
  - reflexivity.
  - reflexivity.
  - discriminate.
  - reflexivity.
Defined.

Lemma C9_on_a_match_that_ends_in_a_backslash :
  Forall (fun sp => forall n, ~ patternAt (str "\__\x \**b") (snd sp - 1) n)
         (fixerMatches (str "\__\x \**b"))
  /\ fixAmbiguousEscape (fixAmbiguousEscape (str "\__\x \**b"))
     = fixAmbiguousEscape (str "\__\x \**b").
Proof.
  assert (H : Forall (fun sp => forall n,
                          ~ patternAt (str "\__\x \**b") (snd sp - 1) n)
                     (fixerMatches (str "\__\x \**b"))).
  { change (fixerMatches (str "\__\x \**b")) with [(0, 4); (6, 10)].
    apply Forall_cons; [|apply Forall_cons; [|apply Forall_nil]];
      intros n P; cbn [snd] in P;
      [ apply (proj2 (FixerFacts.patternAt_shift (str "\__\x \**b") 3 0 n)) in P
      | apply (proj2 (FixerFacts.patternAt_shift (str "\__\x \**b") 9 0 n)) in P ];
      apply FixerFacts.patternAt_head in P;
      destruct P as (w & Hw & _); vm_compute in Hw; discriminate. }
  split; [exact H|].
  exact (proj1 (proj1 (C9_fixer_idempotent_without_overlap (str "\__\x \**b"))) H).
Defined.

(* ================================================================== *)
(** * The code at work *)

Example escape_around_a_link :
  escapeDiscordMarkdown (str "a_b http://example.com/x_y, *c* <d>")
  = str "a\_b http://example.com/x_y, \*c\* \<d>".
Proof. vm_compute. reflexivity. Qed.

Example link_spans_of_a_text :
  linkSpans (str "see http://example.com/a. and https://b<c http:// x")
  = [(4, 24); (30, 40)].
Proof. vm_compute. reflexivity. Qed.

Example unescape_pairs :
  unescape (str "\_\\a\b\") = str "_\ab\".
Proof. vm_compute. reflexivity. Qed.

Example monospace_with_backticks :
  MonospaceConverter (str "\`x\`") = str "`` `x` ``"
  /\ MonospaceConverter (str "x") = str "``x``".
Proof. split; vm_compute; reflexivity. Qed.

Example spoiler_with_reason :
  SpoilerConverter (str "surprise") (str "nsfw") = str "(nsfw) ||surprise||".
Proof. reflexivity. Qed.

Example fixer_on_both_delimiters :
  fixAmbiguousEscape (str "\__a \**b \___c \_d") = str "\_\_a \*\*b \___c \_d".
Proof. vm_compute. reflexivity. Qed.

Example pill_for_a_channel :
  pillConverter smallBridge (str "general") (str "#general:example.org") []
                aliceContext
  = Ret (str "<#42>").
Proof. reflexivity. Qed.

Example pill_for_an_unknown_alias :
  pillConverter smallBridge (str "elsewhere") (str "#elsewhere:example.org") []
                aliceContext
  = Ret (str "elsewhere").
Proof. reflexivity. Qed.

Example pill_for_a_user :
  pillConverter smallBridge (str "Alice") (str "@alice:example.org") []
                aliceContext
  = Ret (str "<@1001>").
Proof. reflexivity. Qed.

(* ================================================================== *)
(** * Further properties of the formatter *)

Module RoundTripFacts.
Import regexp regexploops EngineFacts.

Lemma forallb_mapi {A} (f : nat -> A -> bool) (l : list A) :
  forall i, forallb (fun x => x) (mapi f i l) = true ->
            forall j a, nth_error l j = Some a -> f (i + j) a = true.
Proof.
  induction l as [|x l IH]; intros i H j a Hj.
  - destruct j; discriminate.
  - cbn [mapi forallb] in H. apply andb_prop in H as [H0 H1].
    destruct j as [|j].
    + injection Hj as <-. rewrite Nat.add_0_r. exact H0.
    + replace (i + S j) with (S i + j) by lia. apply (IH (S i) H1 j a Hj).
Qed.

(** Un-escaping a text made of single bytes other than the backslash and of
    pairs of a backslash and a byte other than the line feed. *)
Lemma unescapeBytes_units (s : gostring) :
  forall i (f : nat -> byte -> gostring),
    (forall j b, nth_error s j = Some b ->
       (f (i + j) b = [b] /\ b <> backslash) \/
       (f (i + j) b = [backslash; b] /\ b <> newline)) ->
    unescapeBytes (concat (mapi f i s)) = s.
Proof.
  induction s as [|a s IH]; intros i f H; [reflexivity|].
  cbn [mapi concat].
  assert (IH' : unescapeBytes (concat (mapi f (S i) s)) = s).
  { apply IH. intros j b Hj. replace (S i + j) with (i + S j) by lia.
    apply H. exact Hj. }
  destruct (H 0 a eq_refl) as [[E N]|[E N]]; rewrite Nat.add_0_r in E;
    rewrite E.
  - cbn [app unescapeBytes].
    destruct (Ascii.eqb_spec a backslash); [contradiction|].
    rewrite IH'. reflexivity.
  - cbn [app unescapeBytes]. rewrite Ascii.eqb_refl.
    destruct (Ascii.eqb_spec a newline); [contradiction|].
    rewrite IH'. reflexivity.
Qed.

Lemma escape_units (s : gostring) :
  plainLinks s = true -> unescapeBytes (escapeDiscordMarkdown s) = s.
Proof.
  intro H. rewrite EscapeFacts.escape_pointwise.
  unfold escapeOutside. apply unescapeBytes_units.
  intros j b Hj. cbn [Nat.add].
  pose proof (forallb_mapi _ _ 0 H j b Hj) as P. cbn [Nat.add] in P.
  change (EscapeFacts.links s) with (linkSpans s).
  destruct (inSpans (linkSpans s) j).
  - left. split; [reflexivity|]. intros ->.
    rewrite Ascii.eqb_refl in P. discriminate.
  - destruct (isEscapeToken b) eqn:T.
    + right. split; [reflexivity|]. intros ->. discriminate.
    + left. split; [reflexivity|]. intros ->. discriminate.
Qed.

Lemma monospace_wrap (s : gostring) :
  MonospaceConverter s = wrapMonospace (unescape s).
Proof.
  unfold MonospaceConverter, wrapMonospace.
  rewrite MonospaceFacts.HasPrefix_backtick, MonospaceFacts.HasSuffix_backtick.
  reflexivity.
Qed.

Lemma unescapeBytes_length (s : gostring) :
  length (unescapeBytes s) <= length s.
Proof.
  remember (length s) as n eqn:Hn. revert s Hn.
  induction n as [n IH] using lt_wf_ind. intros s ->.
  destruct s as [|b t]; [apply Nat.le_refl|].
  cbn [unescapeBytes].
  destruct (Ascii.eqb b backslash).
  - destruct t as [|c t']; [apply Nat.le_refl|].
    destruct (Ascii.eqb c newline).
    + cbn [length]. apply le_n_S.
      apply (IH (length (c :: t'))); [cbn [length]; lia|reflexivity].
    + cbn [length]. apply le_n_S.
      specialize (IH (length t') ltac:(cbn [length]; lia) t' eq_refl). lia.
  - cbn [length]. apply le_n_S.
    apply (IH (length t)); [cbn [length]; lia|reflexivity].
Qed.

Lemma unescapeBytes_same (s : gostring) :
  hasEscape s = false -> unescapeBytes s = s.
Proof.
  induction s as [|b t IH]; [reflexivity|].
  cbn [hasEscape unescapeBytes]. intro H.
  apply orb_false_elim in H as [H0 H1].
  destruct (Ascii.eqb b backslash).
  - destruct t as [|c t']; [reflexivity|].
    cbn [andb] in H0. apply negb_false_iff in H0. rewrite H0.
    rewrite IH by exact H1. reflexivity.
  - rewrite IH by exact H1. reflexivity.
Qed.

Lemma unescapeBytes_shorter (s : gostring) :
  hasEscape s = true -> length (unescapeBytes s) < length s.
Proof.
  induction s as [|b t IH]; [discriminate|].
  cbn [hasEscape unescapeBytes]. intro H.
  destruct (Ascii.eqb b backslash).
  - destruct t as [|c t']; [discriminate|].
    cbn [andb] in H.
    destruct (Ascii.eqb c newline).
    + cbn [negb orb] in H. cbn [length]. apply -> Nat.succ_lt_mono.
      apply IH. exact H.
    + cbn [length]. pose proof (unescapeBytes_length t'). lia.
  - cbn [andb orb] in H. cbn [length]. apply -> Nat.succ_lt_mono.
    apply IH. exact H.
Qed.

End RoundTripFacts.

(** X1. Un-escaping what [escapeDiscordMarkdown] returns gives the text
    back, for every text that has no backslash inside a span the link
    pattern matches: any bytes, with or without links. *)
Theorem escape_then_unescape (s : gostring) :
  plainLinks s = true -> unescape (escapeDiscordMarkdown s) = s.
Proof.
  intro H. rewrite UnescapeFacts.unescape_bytes.
  apply RoundTripFacts.escape_units. exact H.
Qed.

(** X2. The text of a code span, which the parser hands to [TextConverter]
    and then to [MonospaceConverter], comes out literally between the
    double backticks, under the same condition on the links. *)
Theorem code_span_is_literal (s : gostring) :
  plainLinks s = true -> MonospaceConverter (TextConverter s) = wrapMonospace s.
Proof.
  intro H. rewrite RoundTripFacts.monospace_wrap. unfold TextConverter.
  rewrite UnescapeFacts.unescape_bytes, RoundTripFacts.escape_units by exact H.
  reflexivity.
Qed.

(** X3. Un-escaping never makes a text longer, and it changes the text
    exactly when the text has a backslash followed by a byte other than a
    line feed. *)
Theorem unescape_changes_only_escapes (s : gostring) :
  length (unescape s) <= length s
  /\ (unescape s = s <-> hasEscape s = false).
Proof.
  rewrite UnescapeFacts.unescape_bytes. split.
  - apply RoundTripFacts.unescapeBytes_length.
  - split.
    + intro E. destruct (hasEscape s) eqn:Hs; [|reflexivity].
      apply RoundTripFacts.unescapeBytes_shorter in Hs.
      rewrite E in Hs. lia.
    + apply RoundTripFacts.unescapeBytes_same.
Qed.

Module LengthFacts.
Import regexp regexploops EngineFacts.

Lemma escapeOutside_length (ms : list (nat * nat)) (s : gostring) :
  forall i,
    length (concat (mapi (fun i b =>
                            if inSpans ms i then [b]
                            else if isEscapeToken b then [backslash; b] else [b])
                         i s))
    = length s
      + length (filter (fun x => x)
                       (mapi (fun i b => negb (inSpans ms i) && isEscapeToken b)
                             i s)).
Proof.
  induction s as [|a s IH]; intro i; [reflexivity|].
  cbn [mapi concat filter]. rewrite length_app, IH.
  destruct (inSpans ms i); destruct (isEscapeToken a); cbn [negb andb length];
    lia.
Qed.

(** A property of the first match that moves with the text holds of every
    span of the links. *)
Lemma links_forall (P : gostring -> nat -> nat -> Prop) :
  (forall s e c, run discordLinkRegex s 0 [] accept = Some (e, c) -> P s 0 e) ->
  (forall s k st en, k <= length s -> P (skipn k s) st en -> P s (k + st) (k + en)) ->
  forall s, Forall (fun sp => P s (fst sp) (snd sp)) (linkSpans s).
Proof.
  intros Hhead Hshift s.
  remember (length s) as n eqn:Hn. revert s Hn.
  induction n as [n IH] using lt_wf_ind. intros s Hn.
  rewrite LinkFacts.linkSpans_findAll.
  destruct (run discordLinkRegex s 0 [] accept) as [[e c]|] eqn:R.
  - pose proof (Hhead s e c R) as H0.
    rewrite <- LinkFacts.run_link' in R.
    pose proof (find_hit "h" EscapeFacts.link_tail s e c R) as D.
    destruct (find_width "h" EscapeFacts.link_tail EscapeFacts.h_ascii s _ D)
      as [He _]. cbn [m_start m_end] in He.
    pose proof (doExecute_bounds _ s 0 _ (Nat.le_0_l _) D) as B.
    cbn [m_start m_end] in B.
    rewrite (findAll_hit "h" EscapeFacts.link_tail EscapeFacts.h_ascii s e c R).
    apply Forall_cons; [exact H0|].
    apply Forall_map.
    assert (Hl : length (skipn e s) < n) by (rewrite length_skipn; lia).
    pose proof (IH _ Hl _ eq_refl) as F.
    rewrite LinkFacts.linkSpans_findAll in F.
    eapply Forall_impl; [|exact F].
    intros [a b] Pa. cbn [shiftP fst snd] in *.
    apply Hshift; [lia|exact Pa].
  - destruct s as [|b0 t]; [apply Forall_nil|].
    rewrite <- LinkFacts.run_link' in R.
    rewrite (findAll_miss "h" EscapeFacts.link_tail EscapeFacts.h_ascii b0 t R).
    apply Forall_map.
    assert (Hl : length t < n) by (cbn [length] in Hn; lia).
    pose proof (IH _ Hl _ eq_refl) as F.
    rewrite LinkFacts.linkSpans_findAll in F.
    eapply Forall_impl; [|exact F].
    intros [a b] Pa. cbn [shiftP fst snd] in *.
    apply (Hshift (b0 :: t) 1); [cbn [length]; lia|exact Pa].
Qed.

Lemma link_run_shape (s : gostring) (e : nat) (c : caps) :
  run discordLinkRegex s 0 [] accept = Some (e, c) ->
  hasScheme s = true /\ 8 <= e.
Proof.
  intro R.
  destruct (stripScheme s) as [body|] eqn:S.
  2:{ rewrite (LinkFacts.link_run_other s 0 S) in R. discriminate. }
  split.
  { unfold stripScheme in S. unfold hasScheme.
    destruct (HasPrefix s (str "https://")); [reflexivity|].
    destruct (HasPrefix s (str "http://")); [reflexivity|discriminate]. }
  assert (K : forall p, LinkFacts.bodyRun body p = Some (e, c) -> p + 1 <= e).
  { intros p Hp. apply star_inv in Hp.
    destruct Hp as (d & c' & Hd & Hk). rewrite LinkFacts.kLast_spec in Hk.
    destruct (step (skipn d body)) as [[r w]|] eqn:E; [|discriminate].
    destruct (atomMatches linkLast r); [|discriminate].
    injection Hk as <- _.
    pose proof (step_width _ _ _ E). lia. }
  destruct (LinkFacts.stripScheme_spec _ _ S) as [->| ->].
  - rewrite LinkFacts.link_run_https in R. apply K in R. lia.
  - rewrite LinkFacts.link_run_http in R. apply K in R. lia.
Qed.

(** Every span begins at a scheme and is at least eight bytes long. *)
Lemma spans_start_scheme (s : gostring) :
  Forall (fun sp => hasScheme (skipn (fst sp) s) = true /\ fst sp + 8 <= snd sp)
         (linkSpans s).
Proof.
  apply (links_forall
           (fun s st en => hasScheme (skipn st s) = true /\ st + 8 <= en)).
  - intros s0 e c R. cbn [skipn Nat.add].
    apply (link_run_shape s0 e c R).
  - intros s0 k st en Hk [H1 H2]. rewrite skipn_skipn in H1.
    replace (k + st) with (st + k) at 1 by lia. split; [exact H1|lia].
Qed.

End LengthFacts.

(** X4. [escapeDiscordMarkdown] adds one byte for each EscapeToken byte
    outside the spans the link pattern matches, and nothing else changes
    the length. *)
Theorem escape_length (s : gostring) :
  length (escapeDiscordMarkdown s) = length s + escapedBytes s.
Proof.
  rewrite EscapeFacts.escape_pointwise. unfold escapeOutside, escapedBytes.
  apply LengthFacts.escapeOutside_length.
Qed.

(** X5. The spans [escapeDiscordMarkdown] gets from the link pattern lie
    in the text, one after the other without overlap, so that every slice
    the function takes is in range; each span begins at a scheme and is at
    least eight bytes long. *)
Theorem link_spans_shape (s : gostring) :
  spansFrom (length s) 0 (linkSpans s)
  /\ Forall (fun sp => hasScheme (skipn (fst sp) s) = true
                       /\ fst sp + 8 <= snd sp)
            (linkSpans s).
Proof.
  split; [apply EscapeFacts.links_spans|apply LengthFacts.spans_start_scheme].
Qed.

Module LinkByteFacts.
Import regexp regexploops EngineFacts.
Import LinkFacts.

Lemma firstn_plus {A} (a b : nat) (l : list A) :
  firstn (a + b) l = firstn a l ++ firstn b (skipn a l).
Proof.
  revert l. induction a as [|a IH]; intro l; [reflexivity|].
  destruct l as [|x l]; [destruct b; reflexivity|].
  cbn [Nat.add firstn skipn app]. rewrite IH. reflexivity.
Qed.

Lemma Forall_firstn_nth {A} (Q : A -> Prop) (n : nat) :
  forall (l : list A) i b,
    Forall Q (firstn n l) -> i < n -> nth_error l i = Some b -> Q b.
Proof.
  induction n as [|n IH]; intros l i b F Hi Hb; [lia|].
  destruct l as [|x l]; [destruct i; discriminate|].
  cbn [firstn] in F. apply Forall_cons_iff in F. destruct F as [Fx F].
  destruct i as [|i].
  - injection Hb as <-. exact Fx.
  - apply (IH l i b F); [lia|exact Hb].
Qed.

(** What the star has taken, byte by byte. *)
Lemma star_bytes (P : byte -> Prop) (a : atom) (n : nat) :
  (forall s r w, step s = Some (r, w) -> atomMatches a r = true ->
                 Forall P (firstn w s)) ->
  forall s pos c k res,
    star a n s pos c k = Some res ->
    exists d, d <= length s /\ Forall P (firstn d s)
              /\ k (skipn d s) (pos + d) c = Some res.
Proof.
  intro HP.
  assert (Here : forall s pos c (k : cont) res,
             k s pos c = Some res ->
             exists d, d <= length s /\ Forall P (firstn d s)
                       /\ k (skipn d s) (pos + d) c = Some res).
  { intros s pos c k res H. exists 0. rewrite Nat.add_0_r.
    split; [lia|]. split; [apply Forall_nil|exact H]. }
  induction n as [|n IH]; cbn [star]; intros s pos c k res H.
  - apply Here. exact H.
  - destruct (step s) as [[r w]|] eqn:E; [|apply Here; exact H].
    destruct (atomMatches a r) eqn:M; [|apply Here; exact H].
    destruct (star a n (skipn w s) (pos + w) c k) eqn:S1;
      [|apply Here; exact H].
    injection H as <-. apply IH in S1. destruct S1 as (d & Hd & F & K).
    pose proof (step_width _ _ _ E) as W. rewrite length_skipn in Hd.
    exists (w + d). split; [lia|]. split.
    + rewrite firstn_plus. apply Forall_app. split; [|exact F].
      apply (HP s r w E M).
    + rewrite skipn_skipn in K. replace (w + d) with (d + w) by lia.
      replace (pos + (d + w)) with (pos + w + d) by lia. exact K.
Qed.

Definition noSpace (b : byte) : Prop := b <> " "%char.
Definition noLess (b : byte) : Prop := b <> "<"%char.

Lemma high_noSpace (b : byte) : (0x80 <= b2n b)%N -> noSpace b /\ noLess b.
Proof. intro H. split; intros ->; vm_compute in H; apply H; reflexivity. Qed.

Lemma rune_bytes_high (c : byte) (t : gostring) (r : rune) (w : nat) :
  step (c :: t) = Some (r, w) -> (0x80 <= b2n c)%N ->
  Forall (fun b => noSpace b /\ noLess b) (firstn w (c :: t)).
Proof.
  intros E L.
  destruct (step_cons c t) as (r' & w' & E' & W & _ & Hhi).
  rewrite E in E'. injection E' as <- <-.
  destruct (Hhi L) as [_ Hf].
  destruct w as [|w]; [lia|]. cbn [firstn].
  apply Forall_cons; [apply high_noSpace; exact L|].
  replace (S w - 1) with w in Hf by lia.
  eapply Forall_impl; [|exact Hf]. intros b [Hb _]. apply high_noSpace. exact Hb.
Qed.

Lemma body_bytes (s : gostring) (r : rune) (w : nat) :
  step s = Some (r, w) -> atomMatches linkBody r = true ->
  Forall (fun b => noSpace b /\ noLess b) (firstn w s).
Proof.
  intros E M. destruct s as [|c t]; [discriminate|].
  destruct (N.lt_ge_cases (b2n c) 0x80) as [L|L].
  - rewrite step_ascii in E by exact L. injection E as <- <-.
    cbn [firstn]. apply Forall_cons; [|apply Forall_nil].
    rewrite linkBody_spec in M.
    split; intros ->; vm_compute in M; discriminate.
  - apply (rune_bytes_high c t r w E L).
Qed.

Lemma last_bytes (s : gostring) (r : rune) (w : nat) :
  step s = Some (r, w) -> atomMatches linkLast r = true ->
  Forall noSpace (firstn w s) /\ Forall noLess (firstn (w - 1) s).
Proof.
  intros E M. destruct s as [|c t]; [discriminate|].
  destruct (N.lt_ge_cases (b2n c) 0x80) as [L|L].
  - rewrite step_ascii in E by exact L. injection E as <- <-.
    cbn [firstn Nat.sub]. split; [|apply Forall_nil].
    apply Forall_cons; [|apply Forall_nil].
    rewrite linkLast_spec in M. intros ->. vm_compute in M. discriminate.
  - pose proof (rune_bytes_high c t r w E L) as F. split.
    + eapply Forall_impl; [|exact F]. intros b [H _]. exact H.
    + pose proof (step_width _ _ _ E) as W.
      replace w with ((w - 1) + 1) in F by lia.
      rewrite firstn_plus in F. apply Forall_app in F. destruct F as [F _].
      eapply Forall_impl; [|exact F]. intros b [_ H]. exact H.
Qed.

Lemma bodyRun_bytes (body : gostring) (p e : nat) (c : caps) :
  bodyRun body p = Some (e, c) ->
  exists n, e = p + n /\ 1 <= n
            /\ Forall noSpace (firstn n body)
            /\ Forall noLess (firstn (n - 1) body).
Proof.
  intro R. unfold bodyRun in R.
  apply (star_bytes (fun b => noSpace b /\ noLess b)) in R; [|exact body_bytes].
  destruct R as (d & Hd & F & K). rewrite kLast_spec in K.
  destruct (step (skipn d body)) as [[r w]|] eqn:E; [|discriminate].
  destruct (atomMatches linkLast r) eqn:M; [|discriminate].
  injection K as <- _.
  destruct (last_bytes _ r w E M) as [L1 L2].
  pose proof (step_width _ _ _ E) as W.
  exists (d + w). split; [lia|]. split; [lia|]. split.
  - rewrite firstn_plus. apply Forall_app. split; [|exact L1].
    eapply Forall_impl; [|exact F]. intros b [H _]. exact H.
  - replace (d + w - 1) with (d + (w - 1)) by lia.
    rewrite firstn_plus. apply Forall_app. split; [|exact L2].
    eapply Forall_impl; [|exact F]. intros b [_ H]. exact H.
Qed.

Lemma link_run_bytes (s : gostring) (e : nat) (c : caps) :
  run discordLinkRegex s 0 [] accept = Some (e, c) ->
  Forall noSpace (firstn e s) /\ Forall noLess (firstn (e - 1) s).
Proof.
  intro R.
  destruct (stripScheme s) as [body|] eqn:S.
  2:{ rewrite (link_run_other s 0 S) in R. discriminate. }
  destruct (stripScheme_spec _ _ S) as [->| ->].
  - rewrite link_run_https in R.
    destruct (bodyRun_bytes _ _ _ _ R) as (n & -> & Hn & F1 & F2).
    change (0 + 1 + 1 + 1 + 1 + 1 + 1 + 1 + 1 + n)
      with (length (str "https://") + n).
    replace (length (str "https://") + n - 1)
      with (length (str "https://") + (n - 1)) by lia.
    rewrite !firstn_app_2. split; apply Forall_app; split; try assumption.
    + repeat (apply Forall_cons; [discriminate|]). apply Forall_nil.
    + repeat (apply Forall_cons; [discriminate|]). apply Forall_nil.
  - rewrite link_run_http in R.
    destruct (bodyRun_bytes _ _ _ _ R) as (n & -> & Hn & F1 & F2).
    change (0 + 1 + 1 + 1 + 1 + 1 + 1 + 1 + n)
      with (length (str "http://") + n).
    replace (length (str "http://") + n - 1)
      with (length (str "http://") + (n - 1)) by lia.
    rewrite !firstn_app_2. split; apply Forall_app; split; try assumption.
    + repeat (apply Forall_cons; [discriminate|]). apply Forall_nil.
    + repeat (apply Forall_cons; [discriminate|]). apply Forall_nil.
Qed.

End LinkByteFacts.

(** X6. No span the link pattern matches holds a space, and none holds
    the character [<] before its last byte. *)
Theorem links_hold_no_space (s : gostring) :
  Forall (fun sp =>
            forall i b,
              fst sp <= i < snd sp -> nth_error s i = Some b ->
              b <> " "%char /\ (i + 1 < snd sp -> b <> "<"%char))
         (linkSpans s).
Proof.
  apply (LengthFacts.links_forall
           (fun s st en =>
              forall i b, st <= i < en -> nth_error s i = Some b ->
                          b <> " "%char /\ (i + 1 < en -> b <> "<"%char))).
  - intros s0 e c R i b Hi Hb.
    destruct (LinkByteFacts.link_run_bytes s0 e c R) as [F1 F2]. split.
    + apply (LinkByteFacts.Forall_firstn_nth _ _ _ _ _ F1 (proj2 Hi) Hb).
    + intro Hl.
      assert (Hi' : i < e - 1) by lia.
      apply (LinkByteFacts.Forall_firstn_nth _ _ _ _ _ F2 Hi' Hb).
  - intros s0 k st en Hk H i b Hi Hb.
    assert (Hi' : st <= i - k < en) by lia.
    destruct (H (i - k) b Hi') as [H1 H2].
    + rewrite nth_error_skipn. replace (k + (i - k)) with i by lia. exact Hb.
    + split; [exact H1|]. intro Hl. apply H2. lia.
Qed.

Module RepairFacts.
Import regexp regexploops EngineFacts.
Import FixerFacts.

Lemma unescapeBytes_pair (c : byte) (t : gostring) :
  c <> newline -> unescapeBytes (backslash :: c :: t) = c :: unescapeBytes t.
Proof.
  intro H. cbn [unescapeBytes]. rewrite Ascii.eqb_refl.
  destruct (Ascii.eqb_spec c newline); [contradiction|reflexivity].
Qed.

Lemma unescapeBytes_other (b : byte) (t : gostring) :
  b <> backslash -> unescapeBytes (b :: t) = b :: unescapeBytes t.
Proof.
  intro H. cbn [unescapeBytes].
  destruct (Ascii.eqb_spec b backslash); [contradiction|reflexivity].
Qed.

Lemma unescapeBytes_plain_app (x y : gostring) :
  Forall (fun b => b <> backslash) x ->
  unescapeBytes (x ++ y) = x ++ unescapeBytes y.
Proof.
  induction 1 as [|b x Hb _ IH]; [reflexivity|].
  cbn [app]. rewrite unescapeBytes_other by exact Hb. rewrite IH. reflexivity.
Qed.

Lemma escapeFixerRepl_cons (a b : byte) (t : gostring) :
  escapeFixerRepl (a :: b :: t) = a :: b :: backslash :: t.
Proof. reflexivity. Qed.

Lemma contb_not_backslash (b : byte) : contb b -> b <> backslash.
Proof. intros [H _] ->. vm_compute in H. apply H. reflexivity. Qed.

(** The bytes of the rune at the front of a text that does not begin with
    a backslash. *)
Lemma rune_bytes_plain (c : byte) (t : gostring) (r : rune) (w : nat) :
  c <> backslash -> step (c :: t) = Some (r, w) ->
  Forall (fun b => b <> backslash) (firstn w (c :: t)).
Proof.
  intros Hc E.
  destruct (step_cons c t) as (r' & w' & E' & W & Hlo & Hhi).
  rewrite E in E'. injection E' as <- <-.
  destruct w as [|w]; [lia|]. cbn [firstn]. apply Forall_cons; [exact Hc|].
  destruct (N.lt_ge_cases (b2n c) 0x80) as [L|L].
  - destruct (Hlo L) as [_ Hw]. injection Hw as ->. apply Forall_nil.
  - destruct (Hhi L) as [_ Hf]. replace (S w - 1) with w in Hf by lia.
    eapply Forall_impl; [|exact Hf]. intros b. apply contb_not_backslash.
Qed.

Lemma delim_not_newline (d : ascii) :
  d = "_"%char \/ d = "*"%char -> d <> newline.
Proof. intros [->| ->]; discriminate. Qed.

(** The pass keeps what the text un-escapes to, at the start of a text and
    after a backslash. *)
Lemma fix_unescapeBytes (n : nat) :
  forall s, length s = n ->
    unescapeBytes (fixAmbiguousEscape s) = unescapeBytes s
    /\ unescapeBytes (backslash :: fixAmbiguousEscape s)
       = unescapeBytes (backslash :: s).
Proof.
  induction n as [n IH] using lt_wf_ind. intros s Hn.
  assert (Q : forall rest r w,
             length rest < n -> step rest = Some (r, w) ->
             unescapeBytes (firstn w rest ++ fixAmbiguousEscape (skipn w rest))
             = unescapeBytes rest).
  { intros rest r w Hl E. destruct rest as [|c t']; [discriminate|].
    destruct (Ascii.eqb_spec c backslash) as [->|Hc].
    - rewrite step_ascii in E by reflexivity. injection E as _ <-.
      cbn [firstn skipn app].
      apply (IH (length t')); [cbn [length] in Hl; lia|reflexivity].
    - pose proof (rune_bytes_plain c t' r w Hc E) as F.
      pose proof (step_width _ _ _ E) as W.
      rewrite (unescapeBytes_plain_app _ _ F).
      destruct (IH (length (skipn w (c :: t')))
                   ltac:(rewrite length_skipn; lia) _ eq_refl) as [-> _].
      rewrite <- (unescapeBytes_plain_app _ _ F), firstn_skipn. reflexivity. }
  destruct s as [|b t].
  { rewrite fix_nil. split; reflexivity. }
  destruct (headHit (b :: t)) as [w|] eqn:H.
  - destruct (headHit_inv _ _ H) as (d & rest & r & Hd & Hs & E & Hr).
    rewrite (fix_hit _ _ H), Hs.
    cbn [Nat.add firstn skipn]. rewrite escapeFixerRepl_cons. cbn [app].
    pose proof (delim_not_newline d Hd) as Dn.
    pose proof (delim_not_backslash d Hd) as Db.
    assert (Bn : backslash <> newline) by discriminate.
    assert (Hl : length rest < n).
    { rewrite <- Hn, Hs. cbn [length]. lia. }
    split.
    + rewrite (unescapeBytes_pair d) by exact Dn.
      rewrite (unescapeBytes_pair d) by exact Dn.
      rewrite (unescapeBytes_pair d) by exact Dn.
      rewrite (unescapeBytes_other d) by exact Db.
      rewrite (Q rest r w Hl E). reflexivity.
    + rewrite (unescapeBytes_pair backslash) by exact Bn.
      rewrite (unescapeBytes_other d) by exact Db.
      rewrite (unescapeBytes_pair d) by exact Dn.
      rewrite (unescapeBytes_pair backslash) by exact Bn.
      rewrite (unescapeBytes_other d) by exact Db.
      rewrite (unescapeBytes_other d) by exact Db.
      rewrite (Q rest r w Hl E). reflexivity.
  - rewrite (fix_miss _ _ H).
    destruct (IH (length t) ltac:(cbn [length] in Hn; lia) t eq_refl)
      as [I1 I2].
    split.
    + destruct (Ascii.eqb_spec b backslash) as [->|Hb].
      * exact I2.
      * rewrite !(unescapeBytes_other b) by exact Hb. rewrite I1. reflexivity.
    + destruct (Ascii.eqb_spec b newline) as [->|Hb].
      * cbn [unescapeBytes]. rewrite Ascii.eqb_refl.
        change (Ascii.eqb newline newline) with true. cbv iota.
        change (Ascii.eqb newline backslash) with false. cbv iota.
        rewrite I1. reflexivity.
      * rewrite !(unescapeBytes_pair b) by exact Hb. rewrite I1. reflexivity.
Qed.

Lemma fix_length (s : gostring) :
  length (fixAmbiguousEscape s) = length s + length (fixerMatches s).
Proof.
  remember (length s) as n eqn:Hn. revert s Hn.
  induction n as [n IH] using lt_wf_ind. intros s Hn.
  destruct s as [|b t]; [subst; reflexivity|].
  destruct (headHit (b :: t)) as [w|] eqn:H.
  - destruct (headHit_inv _ _ H) as (d & rest & r & Hd & Hs & E & Hr).
    pose proof (step_width _ _ _ E) as W.
    rewrite (fix_hit _ _ H), (fm_hit _ _ H), Hs.
    cbn [Nat.add firstn skipn]. rewrite escapeFixerRepl_cons.
    cbn [app length]. rewrite length_app, length_map, length_firstn.
    rewrite (IH (length (skipn w rest))) with (s := skipn w rest);
      [|rewrite length_skipn, Hn, Hs; cbn [length]; lia|reflexivity].
    rewrite length_skipn. rewrite Hn, Hs. cbn [length]. lia.
  - rewrite (fix_miss _ _ H), (fm_miss _ _ H). cbn [length].
    rewrite length_map.
    rewrite (IH (length t)) with (s := t);
      [|cbn [length] in Hn; lia|reflexivity].
    rewrite Hn. cbn [length]. lia.
Qed.

Lemma fixHit_none (b : byte) (t : gostring) :
  match t with
  | c :: _ => c <> "_"%char /\ c <> "*"%char
  | [] => True
  end ->
  fixHit (b :: t) = None.
Proof.
  intro H. unfold fixHit, delimHit.
  destruct t as [|c t']; [reflexivity|]. destruct H as [H1 H2].
  destruct (Ascii.eqb_spec c "_") as [->|_]; [contradiction|].
  destruct (Ascii.eqb_spec c "*") as [->|_]; [contradiction|].
  rewrite !andb_false_r. reflexivity.
Qed.

Lemma fixHit_first (t : gostring) :
  match t with
  | c :: _ => c <> "_"%char /\ c <> "*"%char
  | [] => True
  end ->
  fixHit t = None.
Proof.
  intro H. unfold fixHit, delimHit.
  destruct t as [|c [|c' t']]; try reflexivity. destruct H as [H1 H2].
  destruct (Ascii.eqb_spec c "_") as [->|_]; [contradiction|].
  destruct (Ascii.eqb_spec c "*") as [->|_]; [contradiction|].
  reflexivity.
Qed.

End RepairFacts.

(** X7. The ambiguity-repair pass keeps what a text un-escapes to: the
    backslash it inserts is read as the escape of the delimiter after it. *)
Theorem fixer_keeps_unescaped_text (s : gostring) :
  unescape (fixAmbiguousEscape s) = unescape s.
Proof.
  rewrite !UnescapeFacts.unescape_bytes.
  apply (RepairFacts.fix_unescapeBytes (length s) s eq_refl).
Qed.

(** X8. The ambiguity-repair pass adds one byte for each match of its
    pattern, and it returns the text unchanged exactly when the pattern
    matches nowhere. *)
Theorem fixer_changes_only_matches (s : gostring) :
  length (fixAmbiguousEscape s) = length s + length (fixerMatches s)
  /\ (fixAmbiguousEscape s = s <-> fixerMatches s = []).
Proof.
  pose proof (RepairFacts.fix_length s) as L.
  split; [exact L|]. split.
  - intro E. rewrite E in L.
    destruct (fixerMatches s); [reflexivity|cbn [length] in L; lia].
  - apply FixerFacts.fm_nil_fixpoint.
Qed.

Module RepairLinkFacts.
Import regexp regexploops EngineFacts.
Import FixerFacts RepairFacts.

Definition unit (ms : list (nat * nat)) (i : nat) (b : byte) : gostring :=
  if inSpans ms i then [b]
  else if isEscapeToken b then [backslash; b] else [b].

Definition noDelim (t : gostring) : Prop :=
  match t with
  | c :: _ => c <> "_"%char /\ c <> "*"%char
  | [] => True
  end.

Lemma units_head (ms : list (nat * nat)) (l : gostring) (i : nat) :
  (forall b, nth_error l 0 = Some b -> inSpans ms i = true ->
             b <> "_"%char /\ b <> "*"%char) ->
  noDelim (concat (mapi (unit ms) i l)).
Proof.
  intro H. destruct l as [|b l]; [exact I|].
  cbn [mapi concat]. unfold unit at 1.
  destruct (inSpans ms i).
  - cbn [app noDelim]. apply (H b eq_refl eq_refl).
  - destruct (isEscapeToken b) eqn:T; cbn [app noDelim].
    + split; discriminate.
    + split; intros ->; discriminate.
Qed.

Lemma fm_units (ms : list (nat * nat)) (l : gostring) :
  forall i,
    (forall j b, nth_error l j = Some b -> inSpans ms (i + j) = true ->
                 b <> backslash) ->
    (forall j b, nth_error l (S j) = Some b ->
                 inSpans ms (i + j) = false -> inSpans ms (i + S j) = true ->
                 b <> "_"%char /\ b <> "*"%char) ->
    fixerMatches (concat (mapi (unit ms) i l)) = [].
Proof.
  induction l as [|b l IH]; intros i H1 H2; [reflexivity|].
  cbn [mapi concat].
  assert (IH' : fixerMatches (concat (mapi (unit ms) (S i) l)) = []).
  { apply IH.
    - intros j c Hj. replace (S i + j) with (i + S j) by lia. apply H1. exact Hj.
    - intros j c Hj. replace (S i + j) with (i + S j) by lia.
      replace (S i + S j) with (i + S (S j)) by lia. apply H2. exact Hj. }
  set (G := concat (mapi (unit ms) (S i) l)) in *.
  assert (Plain : b <> backslash -> fixerMatches (b :: G) = []).
  { intro Hb. rewrite fm_miss; [rewrite IH'; reflexivity|].
    cbn [headHit]. destruct (Ascii.eqb_spec b backslash); [contradiction|].
    reflexivity. }
  unfold unit at 1. destruct (inSpans ms i) eqn:In.
  - cbn [app]. apply Plain. apply (H1 0 b eq_refl).
    rewrite Nat.add_0_r. exact In.
  - destruct (isEscapeToken b) eqn:T.
    + assert (Hd : noDelim G).
      { apply units_head. intros c Hc Hin. apply (H2 0 c Hc).
        - rewrite Nat.add_0_r. exact In.
        - replace (i + 1) with (S i) by lia. exact Hin. }
      cbn [app]. rewrite fm_miss.
      2:{ cbn [headHit]. rewrite Ascii.eqb_refl. apply fixHit_none. exact Hd. }
      rewrite fm_miss; [rewrite IH'; reflexivity|].
      cbn [headHit]. destruct (Ascii.eqb b backslash); [|reflexivity].
      apply fixHit_first. exact Hd.
    + cbn [app]. apply Plain. intros ->. discriminate.
Qed.

Lemma scheme_head (w : gostring) :
  hasScheme w = true -> nth_error w 0 = Some "h"%char.
Proof.
  destruct w as [|c w]; [discriminate|].
  unfold hasScheme. cbn [HasPrefix str list_ascii_of_string nth_error].
  destruct (Ascii.eqb_spec "h" c) as [<-|]; [reflexivity|discriminate].
Qed.

(** The byte at which a span begins, after a byte outside the spans. *)
Lemma span_entry (s : gostring) (j : nat) (b : byte) :
  nth_error s (S j) = Some b ->
  inSpans (linkSpans s) j = false -> inSpans (linkSpans s) (S j) = true ->
  b = "h"%char.
Proof.
  intros Hb Hout Hin. unfold inSpans in *.
  apply existsb_exists in Hin. destruct Hin as ([st en] & Hsp & Hin).
  cbn [fst snd] in Hin. apply andb_prop in Hin. destruct Hin as [Hlo Hhi].
  apply Nat.leb_le in Hlo. apply Nat.ltb_lt in Hhi.
  assert (Hst : st = S j).
  { destruct (Nat.eq_dec st (S j)) as [e|ne]; [exact e|exfalso].
    assert (Hj : existsb (fun sp => (fst sp <=? j) && (j <? snd sp)) (linkSpans s) = true).
    { apply existsb_exists. exists (st, en). split; [exact Hsp|]. cbn [fst snd].
      apply andb_true_intro. split; [apply Nat.leb_le|apply Nat.ltb_lt]; lia. }
    rewrite Hj in Hout. discriminate. }
  subst st.
  pose proof (LengthFacts.spans_start_scheme s) as F. rewrite Forall_forall in F.
  destruct (F _ Hsp) as [Hs _]. cbn [fst] in Hs.
  apply scheme_head in Hs. rewrite nth_error_skipn, Nat.add_0_r in Hs.
  congruence.
Qed.

Lemma fm_escaped (s : gostring) :
  plainLinks s = true -> fixerMatches (escapeDiscordMarkdown s) = [].
Proof.
  intro H. rewrite EscapeFacts.escape_pointwise. unfold escapeOutside.
  change (EscapeFacts.links s) with (linkSpans s).
  apply (fm_units (linkSpans s) s 0).
  - intros j b Hj Hin. cbn [Nat.add] in Hin.
    pose proof (RoundTripFacts.forallb_mapi _ _ 0 H j b Hj) as P.
    cbn [Nat.add] in P. rewrite Hin in P. intros ->.
    rewrite Ascii.eqb_refl in P. discriminate.
  - intros j b Hj Hout Hin. cbn [Nat.add] in Hout, Hin.
    rewrite (span_entry s j b Hj Hout Hin). split; discriminate.
Qed.

End RepairLinkFacts.

(** X9. A text that [escapeDiscordMarkdown] has escaped has nothing for
    the ambiguity-repair pass to rewrite, when no backslash lies inside a
    span the link pattern matches. *)
Theorem escaped_text_needs_no_repair (s : gostring) :
  plainLinks s = true ->
  fixAmbiguousEscape (escapeDiscordMarkdown s) = escapeDiscordMarkdown s.
Proof.
  intro H. apply FixerFacts.fm_nil_fixpoint.
  apply RepairLinkFacts.fm_escaped. exact H.
Qed.

(* ================================================================== *)
(** * Further properties of the mention resolver *)

Module PillFacts.
Import regexp regexploops EngineFacts.

Lemma pillResolved_returns bridge d mxid e u :
  mxid <> [] -> pillResolved bridge d mxid e (Some u) <> Panic.
Proof.
  intro H.
  destruct (ResolverFacts.pillResolved_total bridge d mxid e u H)
    as (out & -> & _).
  discriminate.
Qed.

Lemma pill_panic_iff bridge d mxid e ctx :
  pillConverter bridge d mxid e ctx = Panic <-> pillPanics bridge mxid ctx = true.
Proof.
  unfold pillConverter, pillPanics.
  destruct mxid as [|c t]; [split; discriminate|].
  cbn [length Nat.eqb].
  destruct (ctxGet ctx formatterContextUserKey) as [[[u|]| |]|];
    cbn [assertUser bind index nth_error deref];
    try (split; [reflexivity|reflexivity]).
  - destruct (isByte c "#"); cbn [andb].
    + destruct (ResolveAlias bridge (c :: t)) as [[|r room]|];
        [split; reflexivity| |split; discriminate].
      split; [|discriminate]. intro P. exfalso.
      revert P. apply pillResolved_returns. discriminate.
    + split; [|discriminate]. intro P. exfalso.
      revert P. apply pillResolved_returns. discriminate.
  - destruct (isByte c "#"); cbn [orb]; [split; reflexivity|].
    unfold pillResolved. cbn [index nth_error bind deref].
    destruct (isByte c "!"); cbn [orb]; [split; reflexivity|].
    destruct (isByte c "@"); [split; reflexivity|split; discriminate].
Qed.

Lemma first_byte (s : gostring) (c : ascii) :
  HasPrefix s [c] = true -> exists t, s = c :: t.
Proof.
  destruct s as [|b t]; [discriminate|]. cbn [HasPrefix].
  rewrite andb_true_r. intro H. apply Ascii.eqb_eq in H. subst b.
  exists t. reflexivity.
Qed.

End PillFacts.

(** X10. A reference that begins with none of the three sigils comes back
    as the display name: no directory is asked, and a nil user in the
    context does no harm. *)
Theorem pill_other_reference
        (bridge : Bridge) (displayname : gostring) (c : byte) (t eventID : gostring)
        (ctx : Context) (user : option User) :
  ctxGet ctx formatterContextUserKey = Some (VUser user) ->
  c <> "#"%char -> c <> "!"%char -> c <> "@"%char ->
  pillConverter bridge displayname (c :: t) eventID ctx = Ret displayname.
Proof.
  intros Hctx H1 H2 H3. unfold pillConverter. cbn [length Nat.eqb].
  rewrite Hctx. cbn [assertUser bind index nth_error].
  unfold isByte.
  destruct (Ascii.eqb_spec c "#"); [contradiction|].
  unfold pillResolved, isByte. cbn [index nth_error bind].
  destruct (Ascii.eqb_spec c "!"); [contradiction|].
  destruct (Ascii.eqb_spec c "@"); [contradiction|]. reflexivity.
Qed.

(** X11. [pillConverter] panics in these cases and no other: the
    reference is not empty, and the context holds no user, or a nil user
    while the reference begins with a sigil, or the reference is an alias
    that resolves to the empty room id. *)
Theorem pill_panics_exactly
        (bridge : Bridge) (displayname mxid eventID : gostring) (ctx : Context) :
  pillConverter bridge displayname mxid eventID ctx = Panic
  <-> pillPanics bridge mxid ctx = true.
Proof. apply PillFacts.pill_panic_iff. Qed.

(** X12. An alias that resolves to a room id or a user id is converted as
    that id is. *)
Theorem pill_alias_as_target
        (bridge : Bridge) (displayname alias target eventID : gostring)
        (ctx : Context) (u : User) :
  ctxGet ctx formatterContextUserKey = Some (VUser (Some u)) ->
  HasPrefix alias (str "#") = true ->
  ResolveAlias bridge alias = Some target ->
  target <> [] -> HasPrefix target (str "#") = false ->
  pillConverter bridge displayname alias eventID ctx
  = pillConverter bridge displayname target eventID ctx.
Proof.
  intros Hctx Ha Hr Hne Ht.
  destruct (PillFacts.first_byte _ _ Ha) as (t & ->).
  destruct target as [|c r]; [congruence|].
  unfold pillConverter. cbn [length Nat.eqb]. rewrite Hctx.
  cbn [assertUser bind index nth_error deref].
  change (isByte "#" "#") with true. cbv iota. rewrite Hr.
  cbn [HasPrefix str list_ascii_of_string] in Ht.
  rewrite andb_true_r, Ascii.eqb_sym in Ht.
  unfold isByte at 1. rewrite Ht. reflexivity.
Qed.

(** X13. A reference to a room that is a portal, with no event id, gives
    the channel mention of the portal; with an event id the message
    directory does not know, it gives the display name. *)
Theorem pill_room_without_message
        (bridge : Bridge) (displayname mxid eventID : gostring)
        (ctx : Context) (u : User) (portal : Portal) :
  ctxGet ctx formatterContextUserKey = Some (VUser (Some u)) ->
  HasPrefix mxid (str "!") = true ->
  GetPortalByMXID bridge mxid = Some portal ->
  (eventID <> [] -> MessageGetByMXID bridge (Key portal) eventID = None) ->
  pillConverter bridge displayname mxid eventID ctx
  = Ret match eventID with
        | [] => channelMention (ChannelID (Key portal))
        | _ => displayname
        end.
Proof.
  intros Hctx Hp Hportal Hmsg.
  destruct (PillFacts.first_byte _ _ Hp) as (t & ->).
  unfold pillConverter. cbn [length Nat.eqb]. rewrite Hctx.
  cbn [assertUser bind index nth_error deref].
  change (isByte "!" "#") with false. cbv iota.
  unfold pillResolved. cbn [index nth_error bind deref].
  change (isByte "!" "!") with true. cbv iota.
  rewrite Hportal, ResolverFacts.streq_nil.
  destruct eventID as [|e0 e]; [reflexivity|].
  rewrite Hmsg by discriminate. reflexivity.
Qed.

(** X14. A user reference: the id parsed from a puppet address is
    mentioned, whatever the user directory holds; otherwise the Discord id
    of the user the directory finds, if it is not empty; otherwise the
    display name stays.  The event id plays no part. *)
Theorem pill_user_reference
        (bridge : Bridge) (displayname mxid eventID : gostring)
        (ctx : Context) (u : User) :
  ctxGet ctx formatterContextUserKey = Some (VUser (Some u)) ->
  HasPrefix mxid (str "@") = true ->
  pillConverter bridge displayname mxid eventID ctx
  = Ret match ParsePuppetMXID bridge mxid, GetUserByMXID bridge mxid with
        | Some parsedID, _ => userMention parsedID
        | None, Some mentioned =>
          match DiscordID mentioned with
          | [] => displayname
          | _ => userMention (DiscordID mentioned)
          end
        | None, None => displayname
        end.
Proof.
  intros Hctx Hp.
  destruct (PillFacts.first_byte _ _ Hp) as (t & ->).
  unfold pillConverter. cbn [length Nat.eqb]. rewrite Hctx.
  cbn [assertUser bind index nth_error deref].
  change (isByte "@" "#") with false. cbv iota.
  unfold pillResolved. cbn [index nth_error bind deref].
  change (isByte "@" "!") with false. change (isByte "@" "@") with true.
  cbv iota.
  destruct (ParsePuppetMXID bridge ("@"%char :: t)); [reflexivity|].
  destruct (GetUserByMXID bridge ("@"%char :: t)) as [m|]; [|reflexivity].
  rewrite ResolverFacts.streq_nil. destruct (DiscordID m); reflexivity.
Qed.

(** X15. With an HTML formatted body, [parseMatrixHTML] hands the parser a
    context in which the type assertion of [pillConverter] finds the user:
    for a user that is not nil and a directory whose aliases resolve to
    room ids that are not empty, every call of [pillConverter] under that
    context returns, and the portal entry does not change what it
    returns. *)
Theorem html_context_serves_pills
        (portal : option Portal) (u : User) (content : MessageEventContent) :
  Format content = FormatHTML -> FormattedBody content <> [] ->
  exists ctx,
    (forall Parse,
        parseMatrixHTML Parse portal (Some u) content
        = Parse (FormattedBody content) ctx)
    /\ (forall bridge d mxid e,
           (forall alias roomID,
               ResolveAlias bridge alias = Some roomID -> roomID <> []) ->
           exists out, pillConverter bridge d mxid e ctx = Ret out)
    /\ (forall bridge d mxid e,
           pillConverter bridge d mxid e ctx
           = pillConverter bridge d mxid e
                           [(formatterContextUserKey, VUser (Some u))]).
Proof.
  intros HF HB.
  exists [ (formatterContextUserKey, VUser (Some u));
           (formatterContextPortalKey, VPortal portal) ].
  split; [|split].
  - intro Parse. apply parseMatrixHTML_html; assumption.
  - intros bridge d mxid e Hrooms.
    destruct (pillConverter bridge d mxid e _) as [out|] eqn:E;
      [exists out; reflexivity|].
    apply PillFacts.pill_panic_iff in E. exfalso.
    unfold pillPanics in E. destruct mxid as [|c t]; [discriminate|].
    cbn [ctxGet formatterContextUserKey String.eqb] in E.
    change (String.eqb formatterContextUserKey formatterContextUserKey)
      with true in E. cbv iota in E.
    apply andb_prop in E. destruct E as [_ E].
    destruct (ResolveAlias bridge (c :: t)) as [[|r room]|] eqn:R;
      try discriminate.
    apply (Hrooms _ _ R). reflexivity.
  - intros. reflexivity.
Qed.

(* ================================================================== *)
(** * Properties of the commands *)

Module CommandFacts.
Import regexp regexploops EngineFacts.
Import commands trace.

Lemma lowerByte_fixed (s : gostring) :
  existsb isUpper s = false -> map lowerByte s = s.
Proof.
  induction s as [|c s IH]; [reflexivity|].
  cbn [existsb map]. intro H. apply orb_false_elim in H as [H0 H1].
  unfold lowerByte at 1. rewrite H0, IH by exact H1. reflexivity.
Qed.

Lemma ToLower_ascii (mapToLower : gostring -> gostring) (s : gostring) :
  isASCII s = true -> ToLower mapToLower s = map lowerByte s.
Proof.
  intro H. unfold ToLower. unfold isASCII in H. unfold RuneSelf. rewrite H.
  destruct (existsb isUpper s) eqn:U; [reflexivity|].
  cbn [negb]. symmetry. apply lowerByte_fixed. exact U.
Qed.

Lemma guildLine_length (g : guild.Guild) : 0 < length (guildLine g).
Proof. unfold guildLine. cbn [str list_ascii_of_string app length]. lia. Qed.

Lemma listGuildsLoop_spec (ce : World) (portals : list database.UserPortal) :
  forall output,
    listGuildsLoop ce portals output
    = output
        ++ concat (map guildLine
                       (flat_map (fun ug =>
                                    match GetGuildByID ce (database.DiscordID ug) false with
                                    | Some g => [g]
                                    | None => []
                                    end) portals)).
Proof.
  induction portals as [|ug rest IH]; intro output.
  - cbn. rewrite app_nil_r. reflexivity.
  - cbn [listGuildsLoop flat_map].
    destruct (GetGuildByID ce (database.DiscordID ug) false) as [g|].
    + rewrite IH. cbn [app map concat]. rewrite <- !app_assoc.
      f_equal. unfold guildLine. rewrite ResolverFacts.streq_nil.
      destruct (guild.MXID g); cbn [negb]; rewrite <- !app_assoc; reflexivity.
    + rewrite IH. reflexivity.
Qed.

Lemma fnBridgeGuild_cases mapToLower ce Args :
  fnBridgeGuild mapToLower ce Args
  = Ret match Args with
        | [g] =>
          UserBridgeGuild g false ::
          match bridgeGuild ce g false with
          | Some err => [Reply (str "Error bridging guild: %v") [OError err]]
          | None => [Reply (str "Successfully bridged guild") []]
          end
        | [g; f] =>
          let everything := streq (ToLower mapToLower f) (str "--entire") in
          UserBridgeGuild g everything ::
          match bridgeGuild ce g everything with
          | Some err => [Reply (str "Error bridging guild: %v") [OError err]]
          | None => [Reply (str "Successfully bridged guild") []]
          end
        | _ => [Reply (str "**Usage**: `$cmdprefix guilds bridge <guild ID> [--entire]") []]
        end.
Proof. destruct Args as [|g [|f [|x r]]]; reflexivity. Qed.

Lemma fnUnbridgeGuild_cases ce Args :
  fnUnbridgeGuild ce Args
  = Ret match Args with
        | [g] =>
          UserUnbridgeGuild g ::
          match unbridgeGuild ce g with
          | Some err => [Reply (str "Error unbridging guild: %v") [OError err]]
          | None => [Reply (str "Successfully unbridged guild") []]
          end
        | _ => [Reply (str "**Usage**: `$cmdprefix guilds unbridge <guild ID>") []]
        end.
Proof. destruct Args as [|g [|x r]]; reflexivity. Qed.

Lemma fnListGuilds_one_reply ce :
  length (replies (fnListGuilds ce)) = 1 /\ guildCalls (fnListGuilds ce) = [].
Proof.
  unfold fnListGuilds.
  destruct (length (listGuildsLoop ce (GetPortals ce) []) =? 0); split; reflexivity.
Qed.

Lemma fnGuilds_cons mapToLower ce a rest :
  fnGuilds mapToLower ce (a :: rest)
  = if streq (ToLower mapToLower a) (str "status") then Ret (fnListGuilds ce)
    else if streq (ToLower mapToLower a) (str "bridge")
         then fnBridgeGuild mapToLower ce rest
         else if streq (ToLower mapToLower a) (str "unbridge")
              then fnUnbridgeGuild ce rest
              else Ret [].
Proof. reflexivity. Qed.

Definition leaveOf (ce : World) : portal.Portal -> list event :=
  match customIntent ce with
  | Some intent => leaveByIntent intent
  | None => leaveByKick ce
  end.

Lemma fnDeleteAllPortals_eq ce :
  fnDeleteAllPortals ce
  = match GetAllPortals ce with
    | [] => [Reply (str "Didn't find any portals") []]
    | _ =>
      [Reply (str "Found %d portals, deleting...") [OInt (length (GetAllPortals ce))]]
        ++ flat_map (fun p => PortalDelete p :: leaveOf ce p) (GetAllPortals ce)
        ++ [Reply (str "Finished deleting portal info. Now cleaning up rooms in background.") []]
        ++ [Go (map (fun p => PortalCleanup p false) (GetAllPortals ce)
                ++ [Reply (str "Finished background cleanup of deleted portal rooms.") []])]
    end.
Proof.
  unfold fnDeleteAllPortals, leaveOf, customIntent.
  destruct (GetAllPortals ce) as [|p ps]; [reflexivity|].
  cbn [length Nat.eqb].
  destruct (GetPuppetByCustomMXID ce (UserMXID ce)) as [cp|]; [|reflexivity].
  destruct (puppet.CustomIntent cp); reflexivity.
Qed.

Lemma has_room (r : gostring) : (0 <? length r) = negb (streq r []).
Proof. destruct r; reflexivity. Qed.

(** A projection of the loop of [fnDeleteAllPortals], from the projection
    of one round. *)
Lemma loop_projection {B} (f : event -> list B) (leave : portal.Portal -> list event)
      (g : portal.Portal -> list B) (ps : list portal.Portal) :
  (forall p, flat_map f (PortalDelete p :: leave p) = g p) ->
  flat_map f (flat_map (fun p => PortalDelete p :: leave p) ps) = flat_map g ps.
Proof.
  intro H. induction ps as [|p ps IH]; [reflexivity|].
  cbn [flat_map]. rewrite <- IH, <- H.
  change (PortalDelete p :: leave p ++ flat_map (fun p => PortalDelete p :: leave p) ps)
    with ((PortalDelete p :: leave p) ++ flat_map (fun p => PortalDelete p :: leave p) ps).
  apply flat_map_app.
Qed.

Lemma flat_map_rooms {B} (h : gostring -> B) (ps : list portal.Portal) :
  flat_map (fun p => if 0 <? length (portal.MXID p) then [h (portal.MXID p)] else []) ps
  = map h (rooms ps).
Proof.
  unfold rooms. induction ps as [|p ps IH]; [reflexivity|].
  cbn [flat_map map filter]. rewrite IH, has_room.
  destruct (negb (streq (portal.MXID p) [])); reflexivity.
Qed.

Lemma flat_map_nil {A B} (l : list A) : flat_map (fun _ : A => @nil B) l = [].
Proof. induction l; [reflexivity|assumption]. Qed.

Lemma cleanup_projection (ps : list portal.Portal) :
  cleaned (map (fun p => PortalCleanup p false) ps) = ps
  /\ deleted (map (fun p => PortalCleanup p false) ps) = []
  /\ replies (map (fun p => PortalCleanup p false) ps) = [].
Proof.
  unfold cleaned, deleted, replies.
  induction ps as [|p ps (I1 & I2 & I3)]; [repeat split|].
  cbn [map flat_map app]. rewrite I1, I2, I3. repeat split.
Qed.

Lemma flat_map_single {A} (l : list A) : flat_map (fun a => [a]) l = l.
Proof. induction l as [|a l IH]; [reflexivity|]. cbn. rewrite IH. reflexivity. Qed.

(** A projection of the trace of [fnDeleteAllPortals] when there are
    portals. *)
Lemma delete_trace_projection {B} (f : event -> list B)
      (g : portal.Portal -> list B) (ce : World) :
  (forall fmt args, f (Reply fmt args) = []) ->
  (forall p, flat_map f (PortalDelete p :: leaveOf ce p) = g p) ->
  GetAllPortals ce <> [] ->
  flat_map f (fnDeleteAllPortals ce)
  = flat_map g (GetAllPortals ce)
      ++ f (Go (map (fun p => PortalCleanup p false) (GetAllPortals ce)
                ++ [Reply (str "Finished background cleanup of deleted portal rooms.") []])).
Proof.
  intros HR HL Hne. rewrite fnDeleteAllPortals_eq.
  destruct (GetAllPortals ce) as [|p0 ps0] eqn:E; [congruence|].
  rewrite <- E. clear E p0 ps0 Hne.
  rewrite !flat_map_app. cbn [flat_map]. rewrite !HR, !app_nil_r. cbn [app].
  rewrite (loop_projection f (leaveOf ce) g _ HL). reflexivity.
Qed.

Lemma leaveOf_cases (ce : World) (p : portal.Portal) :
  leaveOf ce p
  = match customIntent ce with
    | Some intent =>
      if 0 <? length (portal.MXID p)
      then [LeaveRoom intent (portal.MXID p); ForgetRoom intent (portal.MXID p)]
      else []
    | None =>
      if 0 <? length (portal.MXID p)
      then [KickUser p (portal.MXID p) (str "Deleting portal") (UserMXID ce)]
      else []
    end.
Proof. unfold leaveOf. destruct (customIntent ce); reflexivity. Qed.

End CommandFacts.

(** X16. The guilds command returns for every list of arguments, without
    an index out of range.  It sends one reply, and none exactly when its
    first argument is none of the three subcommands; it changes at most
    one guild. *)
Theorem guilds_replies_once
        (mapToLower : gostring -> gostring) (ce : commands.World)
        (Args : list gostring) :
  exists tr,
    commands.fnGuilds mapToLower ce Args = Ret tr
    /\ length (trace.replies tr) <= 1
    /\ length (trace.guildCalls tr) <= 1
    /\ (trace.replies tr = [] <->
        exists a rest,
          Args = a :: rest
          /\ trace.isSubcommand (commands.ToLower mapToLower a) = false).
Proof.
  destruct Args as [|a rest].
  { eexists. split; [reflexivity|]. cbn. repeat split; try lia.
    - discriminate.
    - intros (a & rest & E & _). discriminate. }
  rewrite CommandFacts.fnGuilds_cons. unfold trace.isSubcommand.
  destruct (streq (commands.ToLower mapToLower a) (str "status")) eqn:S1.
  { exists (commands.fnListGuilds ce).
    destruct (CommandFacts.fnListGuilds_one_reply ce) as [L G].
    rewrite G, L. repeat split; try (cbn [length]; lia).
    - intro E. rewrite E in L. discriminate.
    - intros (a0 & rest0 & E & F). injection E as <- <-.
      rewrite S1 in F. discriminate. }
  destruct (streq (commands.ToLower mapToLower a) (str "bridge")) eqn:S2.
  { rewrite CommandFacts.fnBridgeGuild_cases. eexists. split; [reflexivity|].
    assert (F0 : forall a0 rest0,
               a :: rest = a0 :: rest0 ->
               streq (commands.ToLower mapToLower a0) (str "status")
               || streq (commands.ToLower mapToLower a0) (str "bridge")
               || streq (commands.ToLower mapToLower a0) (str "unbridge")
               = false -> False).
    { intros a0 rest0 E F. injection E as <- <-. rewrite S1, S2 in F.
      discriminate. }
    destruct rest as [|g [|f [|x r]]]; cbv zeta;
      try match goal with
          | |- context [commands.bridgeGuild ce ?g ?e] =>
            destruct (commands.bridgeGuild ce g e)
          end;
      cbn [trace.replies trace.guildCalls flat_map filter app length];
      (split; [lia|split; [lia|split; [discriminate|]]]);
      intros (a0 & rest0 & E & F); destruct (F0 a0 rest0 E F). }
  destruct (streq (commands.ToLower mapToLower a) (str "unbridge")) eqn:S3.
  { rewrite CommandFacts.fnUnbridgeGuild_cases. eexists. split; [reflexivity|].
    assert (F0 : forall a0 rest0,
               a :: rest = a0 :: rest0 ->
               streq (commands.ToLower mapToLower a0) (str "status")
               || streq (commands.ToLower mapToLower a0) (str "bridge")
               || streq (commands.ToLower mapToLower a0) (str "unbridge")
               = false -> False).
    { intros a0 rest0 E F. injection E as <- <-. rewrite S1, S2, S3 in F.
      discriminate. }
    destruct rest as [|g [|x r]];
      try destruct (commands.unbridgeGuild ce g);
      cbn [trace.replies trace.guildCalls flat_map filter app length];
      (split; [lia|split; [lia|split; [discriminate|]]]);
      intros (a0 & rest0 & E & F); destruct (F0 a0 rest0 E F). }
  exists []. split; [reflexivity|].
  split; [cbn; lia|]. split; [cbn; lia|]. split; [intros _|reflexivity].
  exists a, rest. split; [reflexivity|]. rewrite S1, S2, S3. reflexivity.
Qed.

(** X17. The subcommand of the guilds command is read without regard to
    the case of its ASCII letters. *)
Theorem guilds_subcommand_any_case
        (mapToLower : gostring -> gostring) (ce : commands.World)
        (a a' : gostring) (rest : list gostring) :
  trace.isASCII a = true -> trace.isASCII a' = true ->
  map commands.lowerByte a = map commands.lowerByte a' ->
  commands.fnGuilds mapToLower ce (a :: rest)
  = commands.fnGuilds mapToLower ce (a' :: rest).
Proof.
  intros Ha Ha' E. rewrite !CommandFacts.fnGuilds_cons.
  rewrite (CommandFacts.ToLower_ascii mapToLower a Ha).
  rewrite (CommandFacts.ToLower_ascii mapToLower a' Ha').
  rewrite E. reflexivity.
Qed.

(** X18. What the guilds command changes: with the subcommand bridge and
    one guild id, or a guild id and one more argument, it bridges that
    guild, and the whole of it only when the other argument is the flag
    in any case; with the subcommand unbridge and one guild id, it
    unbridges that guild; otherwise it changes nothing. *)
Theorem guilds_changes
        (mapToLower : gostring -> gostring) (ce : commands.World)
        (a : gostring) (rest : list gostring) :
  exists tr,
    commands.fnGuilds mapToLower ce (a :: rest) = Ret tr
    /\ trace.guildCalls tr
       = if streq (commands.ToLower mapToLower a) (str "status") then []
         else if streq (commands.ToLower mapToLower a) (str "bridge") then
           match rest with
           | [g] => [commands.UserBridgeGuild g false]
           | [g; f] =>
             [commands.UserBridgeGuild
                g (streq (commands.ToLower mapToLower f) (str "--entire"))]
           | _ => []
           end
         else if streq (commands.ToLower mapToLower a) (str "unbridge") then
           match rest with
           | [g] => [commands.UserUnbridgeGuild g]
           | _ => []
           end
         else [].
Proof.
  rewrite CommandFacts.fnGuilds_cons.
  destruct (streq (commands.ToLower mapToLower a) (str "status")).
  { exists (commands.fnListGuilds ce). split; [reflexivity|].
    apply CommandFacts.fnListGuilds_one_reply. }
  destruct (streq (commands.ToLower mapToLower a) (str "bridge")).
  { rewrite CommandFacts.fnBridgeGuild_cases. eexists. split; [reflexivity|].
    destruct rest as [|g [|f [|x r]]]; cbv zeta;
      try match goal with
          | |- context [commands.bridgeGuild ce ?g ?e] =>
            destruct (commands.bridgeGuild ce g e)
          end; reflexivity. }
  destruct (streq (commands.ToLower mapToLower a) (str "unbridge")).
  { rewrite CommandFacts.fnUnbridgeGuild_cases. eexists. split; [reflexivity|].
    destruct rest as [|g [|x r]];
      try destruct (commands.unbridgeGuild ce g); reflexivity. }
  exists []. split; reflexivity.
Qed.

(** X19. The status subcommand sends one reply: that no guild was found,
    exactly when the bridge knows the guild of none of the portals of the
    user; otherwise the list, with one line for each guild the bridge
    knows, in the order of the portals, marked as bridged exactly when
    the guild has a room. *)
Theorem list_guilds_reply (ce : commands.World) :
  commands.fnListGuilds ce
  = match trace.knownGuilds ce with
    | [] => [commands.Reply (str "No guilds found") []]
    | gs =>
      [commands.Reply (str "List of guilds:" ++ [newline; newline] ++ str "%s")
                      [commands.OString (concat (map trace.guildLine gs))]]
    end.
Proof.
  unfold commands.fnListGuilds.
  rewrite CommandFacts.listGuildsLoop_spec. cbn [app].
  fold (trace.knownGuilds ce).
  destruct (trace.knownGuilds ce) as [|g gs]; [reflexivity|].
  cbn [map concat]. rewrite length_app.
  pose proof (CommandFacts.guildLine_length g) as L.
  destruct (length (trace.guildLine g) + length (concat (map trace.guildLine gs)) =? 0)
           eqn:Z; [apply Nat.eqb_eq in Z; lia|reflexivity].
Qed.

(** X20. Deleting all portals: without portals the handler only says so.
    Otherwise every portal is deleted once, in the order the bridge gives
    them, and cleaned up only in the goroutine the handler starts at its
    end.  The user leaves the rooms of the portals
    that have one, through the intent of the custom puppet where there is
    one, and by a kick otherwise. *)
Theorem delete_all_portals_trace (ce : commands.World) :
  (commands.GetAllPortals ce = [] ->
   commands.fnDeleteAllPortals ce
   = [commands.Reply (str "Didn't find any portals") []])
  /\ trace.deleted (commands.fnDeleteAllPortals ce) = commands.GetAllPortals ce
  /\ trace.cleaned (commands.fnDeleteAllPortals ce) = []
  /\ trace.deleted (trace.started (commands.fnDeleteAllPortals ce)) = []
  /\ trace.cleaned (trace.started (commands.fnDeleteAllPortals ce))
     = commands.GetAllPortals ce
  /\ match trace.customIntent ce with
     | Some intent =>
       trace.kicked (commands.fnDeleteAllPortals ce) = []
       /\ trace.left (commands.fnDeleteAllPortals ce)
          = map (pair intent) (trace.rooms (commands.GetAllPortals ce))
       /\ trace.forgotten (commands.fnDeleteAllPortals ce)
          = map (pair intent) (trace.rooms (commands.GetAllPortals ce))
     | None =>
       trace.kicked (commands.fnDeleteAllPortals ce)
       = trace.rooms (commands.GetAllPortals ce)
       /\ trace.left (commands.fnDeleteAllPortals ce) = []
       /\ trace.forgotten (commands.fnDeleteAllPortals ce) = []
     end.
Proof.
  split.
  { intro E. rewrite CommandFacts.fnDeleteAllPortals_eq, E. reflexivity. }
  destruct (commands.GetAllPortals ce) as [|p0 ps0] eqn:E.
  { rewrite CommandFacts.fnDeleteAllPortals_eq, E. cbn.
    destruct (trace.customIntent ce); repeat split. }
  assert (Hne : commands.GetAllPortals ce <> []) by congruence.
  rewrite <- E. clear E p0 ps0.
  pose proof (CommandFacts.cleanup_projection (commands.GetAllPortals ce))
    as (C1 & C2 & _).
  assert (St : trace.started (commands.fnDeleteAllPortals ce)
               = map (fun p => commands.PortalCleanup p false)
                     (commands.GetAllPortals ce)
                   ++ [commands.Reply (str "Finished background cleanup of deleted portal rooms.") []]).
  { unfold trace.started.
    rewrite (CommandFacts.delete_trace_projection _ (fun _ => []) ce);
      [|reflexivity| |exact Hne].
    - rewrite CommandFacts.flat_map_nil. reflexivity.
    - intro p. rewrite CommandFacts.leaveOf_cases.
      destruct (trace.customIntent ce);
        destruct (0 <? length (commands.portal.MXID p)); reflexivity. }
  split; [|split; [|split; [|split]]].
  - unfold trace.deleted.
    rewrite (CommandFacts.delete_trace_projection _ (fun p => [p]) ce);
      [|reflexivity| |exact Hne].
    + rewrite CommandFacts.flat_map_single, app_nil_r. reflexivity.
    + intro p. rewrite CommandFacts.leaveOf_cases.
      destruct (trace.customIntent ce);
        destruct (0 <? length (commands.portal.MXID p)); reflexivity.
  - unfold trace.cleaned.
    rewrite (CommandFacts.delete_trace_projection _ (fun _ => []) ce);
      [|reflexivity| |exact Hne].
    + rewrite CommandFacts.flat_map_nil. reflexivity.
    + intro p. rewrite CommandFacts.leaveOf_cases.
      destruct (trace.customIntent ce);
        destruct (0 <? length (commands.portal.MXID p)); reflexivity.
  - rewrite St. unfold trace.deleted in *. rewrite flat_map_app, C2. reflexivity.
  - rewrite St. unfold trace.cleaned in *. rewrite flat_map_app, C1.
    apply app_nil_r.
  - destruct (trace.customIntent ce) as [intent|] eqn:CI.
    + split; [|split].
      * unfold trace.kicked.
        rewrite (CommandFacts.delete_trace_projection _ (fun _ => []) ce);
          [|reflexivity| |exact Hne].
        -- rewrite CommandFacts.flat_map_nil. reflexivity.
        -- intro p. rewrite CommandFacts.leaveOf_cases, CI.
           destruct (0 <? length (commands.portal.MXID p)); reflexivity.
      * unfold trace.left.
        rewrite (CommandFacts.delete_trace_projection
                   _ (fun p => if 0 <? length (commands.portal.MXID p)
                               then [(intent, commands.portal.MXID p)] else [])
                   ce); [|reflexivity| |exact Hne].
        -- rewrite (CommandFacts.flat_map_rooms (pair intent)). apply app_nil_r.
        -- intro p. rewrite CommandFacts.leaveOf_cases, CI.
           destruct (0 <? length (commands.portal.MXID p)); reflexivity.
      * unfold trace.forgotten.
        rewrite (CommandFacts.delete_trace_projection
                   _ (fun p => if 0 <? length (commands.portal.MXID p)
                               then [(intent, commands.portal.MXID p)] else [])
                   ce); [|reflexivity| |exact Hne].
        -- rewrite (CommandFacts.flat_map_rooms (pair intent)). apply app_nil_r.
        -- intro p. rewrite CommandFacts.leaveOf_cases, CI.
           destruct (0 <? length (commands.portal.MXID p)); reflexivity.
    + split; [|split].
      * unfold trace.kicked.
        rewrite (CommandFacts.delete_trace_projection
                   _ (fun p => if 0 <? length (commands.portal.MXID p)
                               then [commands.portal.MXID p] else [])
                   ce); [|reflexivity| |exact Hne].
        -- rewrite (CommandFacts.flat_map_rooms (fun r => r)), map_id.
           apply app_nil_r.
        -- intro p. rewrite CommandFacts.leaveOf_cases, CI.
           destruct (0 <? length (commands.portal.MXID p)); reflexivity.
      * unfold trace.left.
        rewrite (CommandFacts.delete_trace_projection _ (fun _ => []) ce);
          [|reflexivity| |exact Hne].
        -- rewrite CommandFacts.flat_map_nil. reflexivity.
        -- intro p. rewrite CommandFacts.leaveOf_cases, CI.
           destruct (0 <? length (commands.portal.MXID p)); reflexivity.
      * unfold trace.forgotten.
        rewrite (CommandFacts.delete_trace_projection _ (fun _ => []) ce);
          [|reflexivity| |exact Hne].
        -- rewrite CommandFacts.flat_map_nil. reflexivity.
        -- intro p. rewrite CommandFacts.leaveOf_cases, CI.
           destruct (0 <? length (commands.portal.MXID p)); reflexivity.
Qed.

(** X21. Disconnecting a user that is not connected, and reconnecting one
    that is, touch nothing; otherwise the connection is closed or opened
    once.  Each of the two commands, and the logout, sends one reply. *)
Theorem connection_commands (ce : commands.World) :
  trace.connectionCalls (commands.fnDisconnect ce)
  = (if commands.Connected ce then [commands.UserDisconnect] else [])
  /\ trace.connectionCalls (commands.fnReconnect ce)
     = (if commands.Connected ce then [] else [commands.UserConnect])
  /\ length (trace.replies (commands.fnDisconnect ce)) = 1
  /\ length (trace.replies (commands.fnReconnect ce)) = 1
  /\ length (trace.replies (commands.fnLogout ce)) = 1.
Proof.
  unfold commands.fnDisconnect, commands.fnReconnect, commands.fnLogout.
  destruct (commands.Connected ce), (commands.Disconnect ce),
    (commands.Connect ce), (commands.Logout ce); repeat split.
Qed.

(* ================================================================== *)
(** * The further theorems at concrete inputs *)

Lemma escape_then_unescape_around_a_link :
  plainLinks (str "a_b http://example.com/x_y *c*") = true
  /\ unescape (escapeDiscordMarkdown (str "a_b http://example.com/x_y *c*"))
     = str "a_b http://example.com/x_y *c*".
Proof.
  assert (H : plainLinks (str "a_b http://example.com/x_y *c*") = true)
    by (vm_compute; reflexivity).
  split; [exact H|].
  exact (escape_then_unescape (str "a_b http://example.com/x_y *c*") H).
Defined.

Lemma code_span_with_backticks :
  plainLinks (str "`x_y`") = true
  /\ MonospaceConverter (TextConverter (str "`x_y`")) = wrapMonospace (str "`x_y`").
Proof.
  assert (H : plainLinks (str "`x_y`") = true) by (vm_compute; reflexivity).
  split; [exact H|].
  exact (code_span_is_literal (str "`x_y`") H).
Defined.

Lemma no_repair_after_escaping_a_pair :
  plainLinks (str "\__a http://example.com/__b") = true
  /\ fixAmbiguousEscape (escapeDiscordMarkdown (str "\__a http://example.com/__b"))
     = escapeDiscordMarkdown (str "\__a http://example.com/__b").
Proof.
  assert (H : plainLinks (str "\__a http://example.com/__b") = true)
    by (vm_compute; reflexivity).
  split; [exact H|].
  exact (escaped_text_needs_no_repair (str "\__a http://example.com/__b") H).
Defined.

Lemma pill_for_an_event_reference :
  ctxGet [(formatterContextUserKey, VUser None)] formatterContextUserKey
  = Some (VUser None)
  /\ pillConverter emptyBridge (str "an event") (str "$event:example.org") []
                   [(formatterContextUserKey, VUser None)]
     = Ret (str "an event").
Proof.
  split; [reflexivity|].
  apply (pill_other_reference emptyBridge (str "an event") "$"%char
                              (str "event:example.org") []
                              [(formatterContextUserKey, VUser None)] None);
    [reflexivity|discriminate|discriminate|discriminate].
Defined.

Lemma pill_for_an_alias_of_a_portal :
  ResolveAlias smallBridge (str "#general:example.org")
  = Some (str "!room:example.org")
  /\ pillConverter smallBridge (str "general") (str "#general:example.org") []
                   aliceContext
     = pillConverter smallBridge (str "general") (str "!room:example.org") []
                     aliceContext.
Proof.
  split; [reflexivity|].
  apply (pill_alias_as_target smallBridge (str "general")
                              (str "#general:example.org")
                              (str "!room:example.org") [] aliceContext alice);
    [reflexivity|reflexivity|reflexivity|discriminate|reflexivity].
Defined.

Lemma pill_for_an_unknown_event :
  GetPortalByMXID smallBridge (str "!room:example.org")
  = Some {| Key := {| ChannelID := str "42"; Receiver := [] |}; GuildID := [] |}
  /\ MessageGetByMXID smallBridge {| ChannelID := str "42"; Receiver := [] |}
                      (str "$other")
     = None
  /\ pillConverter smallBridge (str "a message") (str "!room:example.org")
                   (str "$other") aliceContext
     = Ret (str "a message").
Proof.
  split; [reflexivity|]. split; [reflexivity|].
  apply (pill_room_without_message
           smallBridge (str "a message") (str "!room:example.org") (str "$other")
           aliceContext alice
           {| Key := {| ChannelID := str "42"; Receiver := [] |}; GuildID := [] |});
    [reflexivity|reflexivity|reflexivity|intros _; reflexivity].
Defined.

Lemma pill_for_a_user_of_the_directory :
  pillConverter smallBridge (str "Alice") (str "@alice:example.org") (str "$event")
                aliceContext
  = Ret (userMention (str "1001")).
Proof.
  apply (pill_user_reference smallBridge (str "Alice") (str "@alice:example.org")
                             (str "$event") aliceContext alice);
    reflexivity.
Defined.

Lemma html_context_of_a_bold_message :
  exists ctx,
    (forall Parse,
        parseMatrixHTML Parse None (Some alice)
                        {| Format := FormatHTML;
                           FormattedBody := str "<b>x</b>";
                           Body := str "x" |}
        = Parse (str "<b>x</b>") ctx)
    /\ (forall bridge d mxid e,
           (forall alias roomID,
               ResolveAlias bridge alias = Some roomID -> roomID <> []) ->
           exists out, pillConverter bridge d mxid e ctx = Ret out)
    /\ (forall bridge d mxid e,
           pillConverter bridge d mxid e ctx
           = pillConverter bridge d mxid e
                           [(formatterContextUserKey, VUser (Some alice))]).
Proof.
  apply (html_context_serves_pills
           None alice
           {| Format := FormatHTML; FormattedBody := str "<b>x</b>";
              Body := str "x" |});
    [reflexivity|discriminate].
Defined.

Lemma guilds_status_in_capitals :
  commands.fnGuilds (fun s => s) sampleWorld [str "STATUS"]
  = commands.fnGuilds (fun s => s) sampleWorld [str "status"].
Proof.
  apply (guilds_subcommand_any_case (fun s => s) sampleWorld
                                    (str "STATUS") (str "status") []);
    reflexivity.
Defined.

(* ================================================================== *)
(** * More of the code at work *)

Example guilds_status_lists_the_known_guilds :
  commands.fnGuilds (fun s => s) sampleWorld [str "Status"]
  = Ret [commands.Reply
           (str "List of guilds:" ++ [newline; newline] ++ str "%s")
           [commands.OString
              (str "* One (`g1`) - bridged" ++ [newline]
                   ++ str "* Three (`g3`) - not bridged" ++ [newline])]].
Proof. reflexivity. Qed.

Example guilds_bridge_with_the_flag :
  commands.fnGuilds (fun s => s) sampleWorld
                    [str "bridge"; str "g2"; str "--ENTIRE"]
  = Ret [commands.UserBridgeGuild (str "g2") true;
         commands.Reply (str "Successfully bridged guild") []].
Proof. reflexivity. Qed.

Example guilds_bridge_with_another_word :
  commands.fnGuilds (fun s => s) sampleWorld
                    [str "bridge"; str "g2"; str "everything"]
  = Ret [commands.UserBridgeGuild (str "g2") false;
         commands.Reply (str "Successfully bridged guild") []].
Proof. reflexivity. Qed.

Example guilds_unknown_subcommand_is_silent :
  commands.fnGuilds (fun s => s) sampleWorld [str "list"] = Ret [].
Proof. reflexivity. Qed.

Example delete_all_portals_of_the_sample :
  commands.fnDeleteAllPortals sampleWorld
  = [commands.Reply (str "Found %d portals, deleting...") [commands.OInt 2];
     commands.PortalDelete portalOne;
     commands.KickUser portalOne
                       (str "!one:example.org") (str "Deleting portal")
                       (str "@alice:example.org");
     commands.PortalDelete portalTwo;
     commands.Reply (str "Finished deleting portal info. Now cleaning up rooms in background.") [];
     commands.Go
       [commands.PortalCleanup portalOne false;
        commands.PortalCleanup portalTwo false;
        commands.Reply (str "Finished background cleanup of deleted portal rooms.") []]].
Proof. reflexivity. Qed.

Example a_link_ends_at_the_space :
  linkSpans (str "http://a b<c https://d<e") = [(0, 8); (13, 23)].
Proof. vm_compute. reflexivity. Qed.

Example a_link_runs_over_a_line_feed :
  linkSpans (str "http://a" ++ [newline] ++ str "b c") = [(0, 10)].
Proof. vm_compute. reflexivity. Qed.

Example a_backslash_in_a_link_is_lost :
  unescape (escapeDiscordMarkdown (str "http://a\_b")) = str "http://a_b".
Proof. vm_compute. reflexivity. Qed.
